(** * A shallow embedding of the storage server

    The development follows the C++ sources: the sharded hash table of
    [p3/common/hashtable.h] and [p5/common/hashtable.h], the quota tracker
    and the MRU index of [p4/common], the storage facade of
    [p3/server/server_storage.cc] and [p1/server/server_storage.cc], and the
    request handlers of [p1/server/server_commands.cc].

    Effectful code runs in a small state-and-failure monad: a computation
    receives the ambient state and either returns a result with the new
    state or has no defined outcome ([None]): a division by zero, an access
    outside a container, a write through a closed stream. *)

From stdpp Require Import base option list strings gmap.
From Stdlib Require Import ZArith QArith Lia.

Local Open Scope nat_scope.

(** ** The effect monad *)

Definition Eff (St A : Type) : Type := St → option (A * St).

#[export] Instance Eff_ret {St} : MRet (Eff St) := λ A a s, Some (a, s).
#[export] Instance Eff_bind {St} : MBind (Eff St) := λ A B f m s,
  match m s with
  | Some (a, s') => f a s'
  | None => None
  end.

(** A computation without a defined outcome. *)
Definition crash {St A} : Eff St A := λ _, None.

(** Lift a partial value: [None] has no defined outcome. *)
Definition defined {St A} (o : option A) : Eff St A :=
  match o with
  | Some a => mret a
  | None => crash
  end.

Definition modify {St} (f : St → St) : Eff St () := λ s, Some ((), f s).

(** Run [m] with a local variable next to the ambient state; the result
    comes with the final value of the local. *)
Definition with_local {St L A} (init : L) (m : Eff (L * St) A)
    : Eff St (A * L) :=
  λ s,
    match m (init, s) with
    | Some (a, (l, s')) => Some ((a, l), s')
    | None => None
    end.

(** The line feed, ['\n']. *)
Definition newline : string := String (Ascii.ascii_of_nat 10) EmptyString.

(** ** Bucket locks

    A table operation locks and unlocks bucket mutexes.  What a lock
    operation does to the ambient state is left to an instance: the
    sequential instance ignores it, the tracing instance records it. *)

Class Locking (St : Type) := {
  mtx_lock : nat → St → St;
  mtx_lock_shared : nat → St → St;
  mtx_unlock : nat → St → St;
}.

Definition lock {St} `{!Locking St} (i : nat) : Eff St () :=
  modify (mtx_lock i).
Definition lock_shared {St} `{!Locking St} (i : nat) : Eff St () :=
  modify (mtx_lock_shared i).
Definition unlock {St} `{!Locking St} (i : nat) : Eff St () :=
  modify (mtx_unlock i).

(** In a single-threaded run the mutexes leave the data alone. *)
Definition sequential (St : Type) : Locking St :=
  {| mtx_lock := λ _ s, s;
     mtx_lock_shared := λ _ s, s;
     mtx_unlock := λ _ s, s |}.

(** The observable steps of a table operation, in program order. *)
Inductive event (K V : Type) : Type :=
  | EvLock (i : nat)
  | EvLockShared (i : nat)
  | EvUnlock (i : nat)
  | EvF (k : K) (v : V)
  | EvThen
  | EvOnSuccess.
Arguments EvLock {K V} i.
Arguments EvLockShared {K V} i.
Arguments EvUnlock {K V} i.
Arguments EvF {K V} k v.
Arguments EvThen {K V}.
Arguments EvOnSuccess {K V}.

Definition emit {E} (e : E) : Eff (list E) () := modify (λ tr, tr ++ [e]).

#[export] Instance tracing {K V} : Locking (list (event K V)) :=
  {| mtx_lock := λ i tr, tr ++ [EvLock i];
     mtx_lock_shared := λ i tr, tr ++ [EvLockShared i];
     mtx_unlock := λ i tr, tr ++ [EvUnlock i] |}.

(** ** The sharded hash table: what both versions share *)

(** [vector<bucket*>]: one [vector<pair<K, V>>] per bucket. *)
Abbreviation table K V := (list (list (K * V))).

Section table.
Context {K V : Type} `{EqDecision K}.
Variable hash : K → nat.

(** [ConcurrentHashTable(size_t _buckets)] *)
Definition new_table (_buckets : nat) : table K V := replicate _buckets [].

(** [key_hash(key) % hashTable.size()]; the remainder by zero is
    undefined. *)
Definition bucket_index (key : K) (hashTable : table K V) : option nat :=
  match length hashTable with
  | O => None
  | S n => Some (hash key mod S n)
  end.

(** The scan [for (i = 0; i < elements.size(); i++) if (elements[i].first
    == key)]: the first position that holds [key]. *)
Fixpoint find_key (key : K) (elements : list (K * V)) : option nat :=
  match elements with
  | [] => None
  | e :: rest =>
      if decide (e.1 = key) then Some 0 else S <$> find_key key rest
  end.

(** [hashTable[index]->elements.push_back(make_pair(key, val))] *)
Definition push_back (index : nat) (key : K) (val : V) (hashTable : table K V)
  : table K V :=
  alter (λ elements, elements ++ [(key, val)]) index hashTable.

(** [hashTable[index]->elements[i].second = val] *)
Definition set_second (index i : nat) (val : V) (hashTable : table K V)
  : table K V :=
  alter (alter (λ e, (e.1, val)) i) index hashTable.

(** A key is held by the table when some bucket has a pair for it. *)
Definition present (key : K) (hashTable : table K V) : Prop :=
  ∃ val, (key, val) ∈ concat hashTable.

(** The table maps [key] to [val]: the scan for [key] in its bucket stops
    at a pair that holds [val]. *)
Definition maps_to (key : K) (val : V) (hashTable : table K V) : Prop :=
  ∃ index elements i,
    bucket_index key hashTable = Some index ∧
    hashTable !! index = Some elements ∧
    find_key key elements = Some i ∧
    elements !! i = Some (key, val).

(** Every pair sits in the bucket its key hashes to. *)
Definition well_placed (hashTable : table K V) : Prop :=
  ∀ index elements key val,
    hashTable !! index = Some elements →
    (key, val) ∈ elements →
    bucket_index key hashTable = Some index.
End table.

Section table_invariants.
Context {K V : Type} `{EqDecision K}.
Variable hash : K → nat.

(** No bucket holds two pairs for one key. *)
Definition distinct_keys (hashTable : table K V) : Prop :=
  ∀ index elements,
    hashTable !! index = Some elements → NoDup elements.*1.

(** The state the operations keep a table in: at least one bucket, every
    pair in the bucket of its key, no key twice. *)
Definition consistent (hashTable : table K V) : Prop :=
  hashTable ≠ [] ∧ well_placed hash hashTable ∧ distinct_keys hashTable.

(** What a lookup of [key] finds: the value of the first pair for [key] in
    the bucket of [key]. *)
Definition find_value (key : K) (hashTable : table K V) : option V :=
  index ← bucket_index hash key hashTable;
  elements ← hashTable !! index;
  i ← find_key key elements;
  e ← elements !! i;
  Some e.2.
End table_invariants.

Section table_of_pairs.
Context {K V : Type}.
Variable hash : K → nat.

(** The table of [n] buckets that holds the pairs of a list, each in the
    bucket of its key, in the order of the list. *)
Definition table_of (n : nat) (l : list (K * V)) : table K V :=
  (λ i, filter (λ kv, hash kv.1 mod n = i) l) <$> seq 0 n.
End table_of_pairs.

(** ** [p3/common/hashtable.h] *)

Module p3_hashtable.
Section ops.
Context {K V : Type} `{EqDecision K}.
Variable hash : K → nat.
Context {St : Type} `{!Locking St}.

Definition insert (key : K) (val : V) (on_success : Eff St ())
    (hashTable : table K V) : Eff St (bool * table K V) :=
  index ← defined (bucket_index hash key hashTable);
  elements ← defined (hashTable !! index);
  lock index;;
  match find_key key elements with
  | Some _ => unlock index;; mret (false, hashTable)
  | None =>
      let hashTable' := push_back index key val hashTable in
      on_success;;
      unlock index;;
      mret (true, hashTable')
  end.

Definition upsert (key : K) (val : V) (on_ins on_upt : Eff St ())
    (hashTable : table K V) : Eff St (bool * table K V) :=
  index ← defined (bucket_index hash key hashTable);
  elements ← defined (hashTable !! index);
  lock_shared index;;
  let found := find_key key elements in
  unlock index;;
  lock index;;
  match found with
  | Some i =>
      let hashTable' := set_second index i val hashTable in
      on_upt;;
      unlock index;;
      mret (false, hashTable')
  | None =>
      let hashTable' := push_back index key val hashTable in
      on_ins;;
      unlock index;;
      mret (true, hashTable')
  end.

(** [f] receives the value by reference: it returns the value it leaves
    behind. *)
Definition do_with (key : K) (f : V → Eff St V) (hashTable : table K V)
    : Eff St (bool * table K V) :=
  index ← defined (bucket_index hash key hashTable);
  elements ← defined (hashTable !! index);
  lock_shared index;;
  let found := find_key key elements in
  unlock index;;
  match found with
  | None => mret (false, hashTable)
  | Some i =>
      lock index;;
      e ← defined (elements !! i);
      val ← f e.2;
      unlock index;;
      mret (true, set_second index i val hashTable)
  end.

Definition do_with_readonly (key : K) (f : V → Eff St ())
    (hashTable : table K V) : Eff St bool :=
  index ← defined (bucket_index hash key hashTable);
  elements ← defined (hashTable !! index);
  lock_shared index;;
  match find_key key elements with
  | Some i =>
      e ← defined (elements !! i);
      f e.2;;
      unlock index;;
      mret true
  | None => unlock index;; mret false
  end.

(** The first loop of [do_all_readonly]: [lock_shared] on every bucket. *)
Fixpoint lock_all_shared (i size : nat) : Eff St () :=
  match size with
  | O => mret ()
  | S size' => lock_shared i;; lock_all_shared (S i) size'
  end.

(** The inner loop: [f] on every pair of a bucket. *)
Fixpoint each_pair (f : K → V → Eff St ()) (elements : list (K * V))
    : Eff St () :=
  match elements with
  | [] => mret ()
  | e :: rest => f e.1 e.2;; each_pair f rest
  end.

(** The second loop: bucket by bucket, [f] on its pairs, then its
    [unlock]. *)
Fixpoint visit_buckets (f : K → V → Eff St ()) (i : nat)
    (buckets : table K V) : Eff St () :=
  match buckets with
  | [] => mret ()
  | elements :: rest =>
      each_pair f elements;;
      unlock i;;
      visit_buckets f (S i) rest
  end.

Definition do_all_readonly (f : K → V → Eff St ()) (then_ : Eff St ())
    (hashTable : table K V) : Eff St () :=
  let size := length hashTable in
  lock_all_shared 0 size;;
  then_;;
  visit_buckets f 0 hashTable.
(** The first loop of [clear]: [lock] on every bucket. *)
Fixpoint lock_all (i size : nat) : Eff St () :=
  match size with
  | O => mret ()
  | S size' => lock i;; lock_all (S i) size'
  end.

(** The second loop of [clear]: bucket by bucket, empty it and [unlock]
    it. *)
Fixpoint clear_buckets (i : nat) (buckets : table K V)
    : Eff St (table K V) :=
  match buckets with
  | [] => mret []
  | _ :: rest =>
      unlock i;;
      rest' ← clear_buckets (S i) rest;
      mret ([] :: rest')
  end.

Definition clear (hashTable : table K V) : Eff St (table K V) :=
  let size := length hashTable in
  lock_all 0 size;;
  clear_buckets 0 hashTable.

(** [remove]: the scan runs under the shared lock; a hit trades it for the
    exclusive lock, erases the pair and runs [on_success]; a miss returns
    with the shared lock still held. *)
Definition remove (key : K) (on_success : Eff St ()) (hashTable : table K V)
    : Eff St (bool * table K V) :=
  index ← defined (bucket_index hash key hashTable);
  elements ← defined (hashTable !! index);
  lock_shared index;;
  match find_key key elements with
  | Some i =>
      unlock index;;
      lock index;;
      let hashTable' := alter (delete i) index hashTable in
      on_success;;
      unlock index;;
      mret (true, hashTable')
  | None => mret (false, hashTable)
  end.

End ops.
End p3_hashtable.

(** ** [p5/common/hashtable.h] *)

Module p5_hashtable.
Section ops.
Context {K V : Type} `{EqDecision K}.
Variable hash : K → nat.
Context {St : Type} `{!Locking St}.

(** The [lock_guard] releases the bucket when the function returns. *)
Definition insert (key : K) (val : V) (on_success : Eff St ())
    (buckets : table K V) : Eff St (bool * table K V) :=
  b ← defined (bucket_index hash key buckets);
  pairs ← defined (buckets !! b);
  lock b;;
  match find_key key pairs with
  | Some _ => unlock b;; mret (false, buckets)
  | None =>
      let buckets' := push_back b key val buckets in
      on_success;;
      unlock b;;
      mret (true, buckets')
  end.

(** [for (auto b : buckets) b->lock.lock()] *)
Fixpoint lock_all (i size : nat) : Eff St () :=
  match size with
  | O => mret ()
  | S size' => lock i;; lock_all (S i) size'
  end.

(** [for (auto b : buckets) b->lock.unlock()] *)
Fixpoint unlock_all (i size : nat) : Eff St () :=
  match size with
  | O => mret ()
  | S size' => unlock i;; unlock_all (S i) size'
  end.

Fixpoint each_pair (f : K → V → Eff St ()) (pairs : list (K * V))
    : Eff St () :=
  match pairs with
  | [] => mret ()
  | e :: rest => f e.1 e.2;; each_pair f rest
  end.

Fixpoint each_bucket (f : K → V → Eff St ()) (buckets : table K V)
    : Eff St () :=
  match buckets with
  | [] => mret ()
  | b :: rest => each_pair f b;; each_bucket f rest
  end.

Definition do_all_readonly (f : K → V → Eff St ()) (then_ : Eff St ())
    (buckets : table K V) : Eff St () :=
  lock_all 0 (length buckets);;
  each_bucket f buckets;;
  then_;;
  unlock_all 0 (length buckets).
(** [for (auto b : buckets) b->pairs.clear()] *)
Definition clear_all (buckets : table K V) : table K V :=
  (λ _, []) <$> buckets.

Definition clear (buckets : table K V) : Eff St (table K V) :=
  lock_all 0 (length buckets);;
  let buckets' := clear_all buckets in
  unlock_all 0 (length buckets);;
  mret buckets'.

Definition upsert (key : K) (val : V) (on_ins on_upd : Eff St ())
    (buckets : table K V) : Eff St (bool * table K V) :=
  b ← defined (bucket_index hash key buckets);
  pairs ← defined (buckets !! b);
  lock b;;
  match find_key key pairs with
  | Some i =>
      let buckets' := set_second b i val buckets in
      on_upd;;
      unlock b;;
      mret (false, buckets')
  | None =>
      let buckets' := push_back b key val buckets in
      on_ins;;
      unlock b;;
      mret (true, buckets')
  end.

Definition do_with (key : K) (f : V → Eff St V) (buckets : table K V)
    : Eff St (bool * table K V) :=
  b ← defined (bucket_index hash key buckets);
  pairs ← defined (buckets !! b);
  lock b;;
  match find_key key pairs with
  | Some i =>
      e ← defined (pairs !! i);
      val ← f e.2;
      unlock b;;
      mret (true, set_second b i val buckets)
  | None => unlock b;; mret (false, buckets)
  end.

Definition do_with_readonly (key : K) (f : V → Eff St ())
    (buckets : table K V) : Eff St bool :=
  b ← defined (bucket_index hash key buckets);
  pairs ← defined (buckets !! b);
  lock b;;
  match find_key key pairs with
  | Some i =>
      e ← defined (pairs !! i);
      f e.2;;
      unlock b;;
      mret true
  | None => unlock b;; mret false
  end.

Definition remove (key : K) (on_success : Eff St ()) (buckets : table K V)
    : Eff St (bool * table K V) :=
  b ← defined (bucket_index hash key buckets);
  pairs ← defined (buckets !! b);
  lock b;;
  match find_key key pairs with
  | Some i =>
      let buckets' := alter (delete i) b buckets in
      on_success;;
      unlock b;;
      mret (true, buckets')
  | None => unlock b;; mret (false, buckets)
  end.

End ops.
End p5_hashtable.

(** ** [p4/common/quota_tracker.cc] *)

Module quota_tracker.
(** [struct event]: a timestamped amount. *)
Record event := { when : Z; amnt : Z }.

(** [struct Internal].  [q_amt] and [max] are [size_t]; [dur] is a
    [double], here a rational number of seconds. *)
Record Internal := {
  events : list event;
  q_amt : Z;
  max : Z;
  dur : Q;
}.

(** [size_t] arithmetic wraps at 2^64. *)
Definition size_t_wrap (z : Z) : Z := (z mod 2 ^ 64)%Z.

(** [difftime(a, b)]: the seconds from [b] to [a]. *)
Definition difftime (a b : Z) : Q := inject_Z (a - b).

(** [quota_tracker(size_t amount, double duration)].  The initialiser
    list sets [max] and [dur] only: [q_amt] starts with whatever the
    fresh allocation holds, the argument [indeterminate]. *)
Definition new (indeterminate : Z) (amount : Z) (duration : Q) : Internal :=
  {| events := []; q_amt := indeterminate; max := amount; dur := duration |}.

(** [quota_tracker(const quota_tracker &other)]: a fresh [Internal] from
    [other]'s [max] and [dur], then the assignment of [events]. *)
Definition copy (indeterminate : Z) (other : Internal) : Internal :=
  {| events := events other;
     q_amt := q_amt (new indeterminate (max other) (dur other));
     max := max other;
     dur := dur other |}.

(** The loop of [check]: an event whose age exceeds [dur] is erased and
    the index stays, otherwise the index moves on. *)
Fixpoint evict (cur_time : Z) (d : Q) (evs : list event) : list event :=
  match evs with
  | [] => []
  | e :: rest =>
      if Qle_bool (difftime cur_time (when e)) d
      then e :: evict cur_time d rest
      else evict cur_time d rest
  end.

(** [check(amount)] with the clock reading [cur_time]. *)
Definition check (cur_time : Z) (amount : Z) (t : Internal)
  : bool * Internal :=
  let t' := {| events := evict cur_time (dur t) (events t);
               q_amt := q_amt t; max := max t; dur := dur t |} in
  if (max t' <? size_t_wrap (q_amt t' + amount))%Z
  then (false, t')
  else (true, t').

(** [add(amount)] with the clock reading [t_now]. *)
Definition add (t_now : Z) (amount : Z) (t : Internal) : Internal :=
  {| events := events t ++ [{| when := t_now; amnt := amount |}];
     q_amt := size_t_wrap (q_amt t + amount);
     max := max t;
     dur := dur t |}.

(** What the quota calls for: the sum of the amounts of the events with
    a timestamp later than [t - duration]. *)
Definition recent_sum (t_now : Z) (d : Q) (evs : list event) : Z :=
  foldr (λ e acc,
    if Qle_bool (inject_Z (when e)) (inject_Z t_now - d)
    then acc else (amnt e + acc)%Z) 0%Z evs.

(** The calls a client can make, each with the clock reading at the
    call. *)
Inductive call :=
  | DoAdd (t_now amount : Z)
  | DoCheck (t_now amount : Z).

Definition run_call (c : call) (t : Internal) : Internal :=
  match c with
  | DoAdd t_now amount => add t_now amount t
  | DoCheck t_now amount => (check t_now amount t).2
  end.

Definition run (cs : list call) (t : Internal) : Internal :=
  foldl (λ t c, run_call c t) t cs.

(** Everything a sequence of calls has added, old or recent. *)
Definition total_added (cs : list call) : Z :=
  foldr (λ c acc,
    match c with
    | DoAdd _ amount => (amount + acc)%Z
    | DoCheck _ _ => acc
    end) 0%Z cs.
End quota_tracker.

(** ** [p4/common/mru.cc] *)

Module mru_manager.
(** [struct Internal]: the deque, oldest key at the front, and the
    capacity. *)
Record Internal := { mru : list string; max : nat }.

(** [mru_manager(size_t elements)] *)
Definition new (elements : nat) : Internal := {| mru := []; max := elements |}.

(** The loop of [remove]: erase the first element equal to [elt]. *)
Fixpoint erase_first (elt : string) (l : list string) : list string :=
  match l with
  | [] => []
  | x :: rest => if decide (x = elt) then rest else x :: erase_first elt rest
  end.

Definition remove (elt : string) (m : Internal) : Internal :=
  {| mru := erase_first elt (mru m); max := max m |}.

Definition insert (elt : string) (m : Internal) : Internal :=
  let m := remove elt m in
  {| mru := mru m ++ [elt]; max := max m |}.

Definition clear (m : Internal) : Internal := {| mru := []; max := max m |}.

(** The loop of [get], from [end() - 1] down to but not including
    [begin()]: [backwards] lists the elements visited, last first. *)
Fixpoint append_all (rv : string) (backwards : list string) : string :=
  match backwards with
  | [] => rv
  | x :: rest => append_all (rv +:+ (newline +:+ x)) rest
  end.

(** [get()].  [rv] starts as a copy of [*end()], the string object found
    one past the last element: the argument [past_the_end].  On an empty
    deque the iterator starts below [begin()] and never meets it: no
    defined outcome. *)
Definition get (past_the_end : string) (m : Internal) : option string :=
  match mru m with
  | [] => None
  | _front :: rest => Some (append_all past_the_end (reverse rest))
  end.

(** The listing the contract describes: the keys most-recent first,
    separated by newlines. *)
Fixpoint join_lines (keys : list string) : string :=
  match keys with
  | [] => ""
  | [k] => k
  | k :: rest => k +:+ (newline +:+ join_lines rest)
  end.

Inductive op := Insert (elt : string) | Remove (elt : string) | Clear.

Definition run_op (o : op) (m : Internal) : Internal :=
  match o with
  | Insert elt => insert elt m
  | Remove elt => remove elt m
  | Clear => clear m
  end.

Definition run (os : list op) (m : Internal) : Internal :=
  foldl (λ m o, run_op o m) m os.
End mru_manager.

(** ** Bytes, files and the wire constants *)

(** [vec]: [std::vector<uint8_t>]. *)
Abbreviation vec := (list Byte.byte).

Definition vec_from_string (s : string) : vec := String.list_byte_of_string s.

Definition byte_of_Z (z : Z) : Byte.byte :=
  default Byte.x00 (Byte.of_N (Z.to_N (z mod 256))).

(** Modelled from the spec: [vec_append] of [common/vec.h] is not among the
    sources.  It appends the bytes of its argument; an [int] goes out as
    four bytes, and the file format of the spec has all integers
    little-endian. *)
Definition vec_append (v : vec) (bytes : vec) : vec := v ++ bytes.

Definition int_bytes (n : Z) : vec :=
  [byte_of_Z n; byte_of_Z (n / 2 ^ 8); byte_of_Z (n / 2 ^ 16);
   byte_of_Z (n / 2 ^ 24)].

(** [(int)(v.size())] of a vector and of a string. *)
Definition size_int {A} (l : list A) : vec := int_bytes (Z.of_nat (length l)).
Definition str_size_int (s : string) : vec :=
  int_bytes (Z.of_nat (String.length s)).

(** A C string read from memory: the bytes before the first NUL. *)
Fixpoint until_nul (memory : vec) : vec :=
  match memory with
  | [] => []
  | b :: rest =>
      if Byte.eqb b Byte.x00 then [] else b :: until_nul rest
  end.

Definition c_string (memory : vec) : string :=
  String.string_of_list_byte (until_nul memory).

(** The file system: the bytes of each file that exists. *)
Abbreviation files := (gmap string (list Byte.byte)).

(** Modelled from the spec: [write_file] of [common/file.h] is not among
    the sources.  It leaves the named file holding exactly the given
    bytes. *)
Definition write_file (name : string) (data : vec) : files → files :=
  <[name := data]>.

(** [rename(old, new)]: [new] takes the place of [old]; nothing happens
    when [old] does not exist. *)
Definition rename (old new : string) (fs : files) : files :=
  match fs !! old with
  | Some data => <[new := data]> (delete old fs)
  | None => fs
  end.

(** A [FILE*]: null, dangling or closed; open for reading only; or open
    for writing at the end of the named file. *)
Inductive stream :=
  | Closed
  | Reading (name : string)
  | Writing (name : string).

(** [fwrite] followed by [fflush].  On a stream that is open for reading
    the write fails and the code ignores the count it returns; on a closed
    stream there is no defined outcome. *)
Definition fwrite (data : vec) (f_ptr : stream) : Eff files () :=
  match f_ptr with
  | Writing name =>
      modify (λ fs, <[name := default [] (fs !! name) ++ data]> fs)
  | Reading _ => mret ()
  | Closed => crash
  end.

(** [fclose]: closing a null or closed stream has no defined outcome. *)
Definition fclose {St} (f : stream) : Eff St () :=
  match f with
  | Closed => crash
  | _ => mret ()
  end.

(** Modelled from the spec: the response strings of [common/protocol.h],
    which is not among the sources; the spec gives them as the literal
    strings sent to the client. *)
Definition RES_OK : string := "OK".
Definition RES_OKINS : string := "OKINS".
Definition RES_OKUPD : string := "OKUPD".
Definition RES_ERR_USER_EXISTS : string := "ERR_USER_EXISTS".
Definition RES_ERR_NO_USER : string := "ERR_NO_USER".
Definition RES_ERR_LOGIN : string := "ERR_LOGIN".
Definition RES_ERR_NO_DATA : string := "ERR_NO_DATA".
Definition RES_ERR_KEY : string := "ERR_KEY".
Definition RES_ERR_MSG_FMT : string := "ERR_MSG_FMT".

(** Modelled from the spec: the length bounds of [common/protocol.h]; a
    user name has at most 64 bytes and a password at most 128. *)
Definition LEN_UNAME : nat := 64.
Definition LEN_PASS : nat := 128.

(** [AuthTableEntry], the same in [p1] and [p3]. *)
Record AuthTableEntry := {
  username : string;
  pass_hash : string;
  content : vec;
}.

(** [a.compare(b)]: zero exactly when the strings are equal. *)
Definition compare (a b : string) : Z :=
  match String.compare a b with
  | Eq => 0
  | Lt => -1
  | Gt => 1
  end%Z.

Definition AUTHENTRY : string := "AUTHAUTH".
Definition KVENTRY : string := "KVKVKVKV".
Definition AUTHDIFF : string := "AUTHDIFF".
Definition KVUPDATE : string := "KVUPDATE".
Definition KVDELETE : string := "KVDELETE".

(** ** [p3/server/server_storage.cc] *)

Module p3_storage.
Section storage.
(** [std::hash<string>] *)
Variable str_hash : string → nat.

(** What the pointer returned by [MD5(&pass, pass.length(), md5_digest)]
    points to in the call at hand, as far as the code reads it: the
    sixteen digest bytes and the memory behind them.  [MD5] is given the
    address of the string object, not of its characters, so that the
    bytes it hashes are those of the object of this call and not a
    function of the password.  [hashed] is therefore an input of every
    call of an operation; the call of [auth] inside an operation gets the
    object of that operation, by reference, and so the same bytes. *)
Variable hashed : vec.

Import p3_hashtable.

#[local] Instance storage_locking {St} : Locking St := sequential St.

Record Storage := {
  auth_table : table string AuthTableEntry;
  kv_store : table string vec;
  filename : string;
  f_ptr : stream;
}.

(** [Storage(fname, num_buckets)]; [f_ptr] is not a stream until [load]
    opens the file. *)
Definition new (fname : string) (num_buckets : nat) : Storage :=
  {| auth_table := new_table num_buckets; kv_store := new_table num_buckets;
     filename := fname; f_ptr := Closed |}.

Definition with_auth_table (st : Storage) (t : table string AuthTableEntry)
  : Storage :=
  {| auth_table := t; kv_store := kv_store st; filename := filename st;
     f_ptr := f_ptr st |}.

Definition with_kv_store (st : Storage) (t : table string vec) : Storage :=
  {| auth_table := auth_table st; kv_store := t; filename := filename st;
     f_ptr := f_ptr st |}.

(** The record [add_user] logs: the magic, the name, then sixteen raw
    digest bytes, then the size of the empty content. *)
Definition add_user_record (new_user : AuthTableEntry) (hashed_pass : vec)
  : vec :=
  let data := [] in
  let data := vec_append data (vec_from_string AUTHENTRY) in
  let data := vec_append data (str_size_int (username new_user)) in
  let data := vec_append data (vec_from_string (username new_user)) in
  let data := vec_append data (int_bytes 16) in
  let data := vec_append data (take 16 hashed_pass) in
  vec_append data (size_int (content new_user)).

Definition add_user (user_name pass : string) (st : Storage)
  : Eff files (bool * Storage) :=
  let hashed_pass := hashed in
  let new_user := {| username := user_name;
                     pass_hash := c_string hashed_pass;
                     content := [] |} in
  '(result, auth_table') ← insert str_hash user_name new_user
      (fwrite (add_user_record new_user hashed_pass) (f_ptr st))
      (auth_table st);
  mret (result, with_auth_table st auth_table').

(** The lambda of [auth]; the ambient state is the local
    [authenticated]. *)
Definition check_func (check_pass_hash : string) (entry : AuthTableEntry)
  : Eff bool AuthTableEntry :=
  λ authenticated,
    Some (entry,
          if bool_decide (compare (pass_hash entry) check_pass_hash ≠ 0%Z)
          then true else authenticated).

Definition auth (user_name pass : string) (st : Storage)
  : option (bool * Storage) :=
  let check_pass_hash := c_string hashed in
  '(_, auth_table', authenticated) ←
    do_with str_hash user_name (check_func check_pass_hash)
      (auth_table st) false;
  Some (authenticated, with_auth_table st auth_table').

Definition kv_record (magic : string) (key : string) (val : vec) : vec :=
  let data := [] in
  let data := vec_append data (vec_from_string magic) in
  let data := vec_append data (str_size_int key) in
  let data := vec_append data (vec_from_string key) in
  let data := vec_append data (size_int val) in
  vec_append data val.

Definition kv_insert (user_name pass key : string) (val : vec) (st : Storage)
  : Eff files (vec * Storage) :=
  '(authenticated, st) ← defined (auth user_name pass st);
  if negb authenticated then mret (vec_from_string RES_ERR_LOGIN, st)
  else
    '(inserted, kv_store') ← insert str_hash key val
        (fwrite (kv_record KVENTRY key val) (f_ptr st)) (kv_store st);
    let st := with_kv_store st kv_store' in
    if negb inserted then mret (vec_from_string RES_ERR_KEY, st)
    else mret (vec_from_string RES_OK, st).

(** The lambda of [kv_get] appends the value to the local [data], the
    ambient state of the lookup. *)
Definition kv_get (user_name pass key : string) (st : Storage)
  : Eff files ((bool * vec) * Storage) :=
  '(authenticated, st) ← defined (auth user_name pass st);
  if negb authenticated then mret ((true, vec_from_string RES_ERR_LOGIN), st)
  else
    '(found, data) ← defined
      (do_with_readonly str_hash key
         (λ value, modify (λ data, vec_append data value))
         (kv_store st) []);
    if negb found then mret ((true, vec_from_string RES_ERR_KEY), st)
    else mret ((false, data), st).

Definition kv_upsert (user_name pass key : string) (val : vec) (st : Storage)
  : Eff files (vec * Storage) :=
  '(authenticated, st) ← defined (auth user_name pass st);
  if negb authenticated then mret (vec_from_string RES_ERR_LOGIN, st)
  else
    '(inserted, kv_store') ← upsert str_hash key val
        (fwrite (kv_record KVENTRY key val) (f_ptr st))
        (fwrite (kv_record KVUPDATE key val) (f_ptr st))
        (kv_store st);
    let st := with_kv_store st kv_store' in
    if (inserted : bool) then mret (vec_from_string RES_OKINS, st)
    else mret (vec_from_string RES_OKUPD, st).

(** One [AUTHAUTH] record of [persist]. *)
Definition auth_record (entry : AuthTableEntry) : vec :=
  let data := [] in
  let data := vec_append data (vec_from_string AUTHENTRY) in
  let data := vec_append data (str_size_int (username entry)) in
  let data := vec_append data (vec_from_string (username entry)) in
  let data := vec_append data (str_size_int (pass_hash entry)) in
  let data := vec_append data (vec_from_string (pass_hash entry)) in
  let data := vec_append data (size_int (content entry)) in
  if bool_decide (0 < length (content entry))
  then vec_append data (content entry) else data.

(** [persist]: the ambient state of the two scans is the local [data]
    and the file system. *)
Definition persist (st : Storage) : Eff files Storage :=
  fclose (f_ptr st);;
  let tmp := filename st +:+ ".tmp" in
  let on_auth (user_name : string) (entry : AuthTableEntry)
    : Eff (vec * files) () :=
    modify (λ '(data, fs), (vec_append data (auth_record entry), fs)) in
  let on_kv (key2 : string) (value2 : vec) : Eff (vec * files) () :=
    modify (λ '(data, fs),
      let data := vec_append data (kv_record KVENTRY key2 value2) in
      (data, write_file tmp data fs)) in
  let then_ : Eff (vec * files) () :=
    do_all_readonly on_kv (mret ()) (kv_store st) in
  '(_, data) ← with_local [] (do_all_readonly on_auth then_ (auth_table st));
  modify (write_file tmp data);;
  modify (rename tmp (filename st));;
  mret {| auth_table := auth_table st; kv_store := kv_store st;
          filename := filename st; f_ptr := Closed |}.
End storage.
End p3_storage.

(** ** [p1/server/server_storage.cc] *)

Module p1_storage.
Section storage.
(** The 32 hexadecimal characters that [MD5_Init], [MD5_Update] over the
    characters of the password, [MD5_Final] and the [sprintf] loop leave
    in [mdString]. *)
Variable md5_hex : string → string.

(** The table is a [std::unordered_map]. *)
Record Storage := {
  auth_table : gmap string AuthTableEntry;
  filename : string;
}.

Definition new (fname : string) : Storage :=
  {| auth_table := ∅; filename := fname |}.

(** [exists(user_name)]: [auth_table.count(user_name) != 0]. *)
Definition exists_ (user_name : string) (st : Storage) : bool :=
  bool_decide (is_Some (auth_table st !! user_name)).

(** [auth]; [auth_table.at(user_name)] throws for an unknown name. *)
Definition auth (user_name pass : string) (st : Storage) : option bool :=
  entry ← auth_table st !! user_name;
  Some (bool_decide (compare (md5_hex pass) (pass_hash entry) = 0%Z)).

Definition add_user (user_name pass : string) (st : Storage)
  : bool * Storage :=
  if exists_ user_name st then (false, st)
  else
    let new_user := {| username := user_name; pass_hash := md5_hex pass;
                       content := [] |} in
    (true, {| auth_table := <[user_name := new_user]> (auth_table st);
              filename := filename st |}).

Definition get_user_data (user_name pass who : string) (st : Storage)
  : option (bool * vec) :=
  if negb (exists_ user_name st)
  then Some (false, vec_from_string RES_ERR_LOGIN)
  else
    authenticated ← auth user_name pass st;
    if negb authenticated then Some (false, vec_from_string RES_ERR_LOGIN)
    else
      match auth_table st !! who with
      | None => Some (false, vec_from_string RES_ERR_NO_USER)
      | Some user_who =>
          let data := content user_who in
          if bool_decide (length data = 0)
          then Some (false, vec_from_string RES_ERR_NO_DATA)
          else Some (true, data)
      end.

(** One iteration of the loop of [persist]. *)
Definition persist_record (element : string * AuthTableEntry) : vec :=
  let data := [] in
  let data := vec_append data (vec_from_string AUTHENTRY) in
  let data := vec_append data (str_size_int element.1) in
  let data := vec_append data (vec_from_string element.1) in
  let data := vec_append data (str_size_int (pass_hash element.2)) in
  let data := vec_append data (vec_from_string (pass_hash element.2)) in
  let data := vec_append data (size_int (content element.2)) in
  if bool_decide (0 < length (content element.2))
  then vec_append data (content element.2) else data.

(** [persist]: the records of all entries, in the iteration order of the
    map, written to the temporary file. *)
Definition persist (st : Storage) : Eff files () :=
  let data := foldl (λ data element, vec_append data (persist_record element))
                [] (map_to_list (auth_table st)) in
  modify (write_file (filename st +:+ ".tmp") data).
End storage.
End p1_storage.

(** ** [p1/server/server_commands.cc] *)

Module p1_commands.
Section commands.
Variable md5_hex : string → string.

Import p1_storage.

Definition is_newline (c : Byte.byte) : bool := Byte.eqb c Byte.x0a.

(** [while (i < req.size() && c != '\n') c = req[++i];] over the memory
    that starts at [req.data()]; the request occupies its first [size]
    bytes.  A read outside the memory has no defined outcome.  The loop
    makes at most [size] rounds. *)
Fixpoint scan (rounds : nat) (memory : vec) (size i : nat) (c : Byte.byte)
  : option nat :=
  if bool_decide (i < size) && negb (is_newline c) then
    match rounds with
    | O => None
    | S rounds =>
        c ← memory !! S i;
        scan rounds memory size (S i) c
    end
  else Some i.

(** [string(data + off, len)]: [len] is a [size_t], so a negative
    difference is a huge length and the constructor throws; the bytes must
    lie in the memory. *)
Definition string_at (memory : vec) (off : nat) (len : Z) : option string :=
  if bool_decide (0 ≤ len)%Z
     && bool_decide (off + Z.to_nat len ≤ length memory)
  then Some (String.string_of_list_byte (take (Z.to_nat len) (drop off memory)))
  else None.

(** [string(p)] for a [char*]: the bytes up to a NUL, which has to be
    there. *)
Fixpoint read_c_string (memory : vec) : option vec :=
  match memory with
  | [] => None
  | b :: rest =>
      if Byte.eqb b Byte.x00 then Some [] else (b ::.) <$> read_c_string rest
  end.

(** [server_cmd_get].  [req_slack] is the memory behind the request
    buffer and [res_slack] the memory behind the result vector, which the
    function reads past their ends.  The outcome is the plain text [res]
    that goes, encrypted, to the client; the storage is only read. *)
Definition server_cmd_get (req req_slack res_slack : vec) (st : Storage)
  : option string :=
  let memory := req ++ req_slack in
  let size := length req in
  c ← memory !! 0;
  i ← scan size memory size 0 c;
  user ← string_at memory 0 (Z.of_nat i);
  let j := S i in
  let i := S i in
  c ← memory !! i;
  i ← scan size memory size i c;
  pass ← string_at memory j (Z.of_nat i - Z.of_nat j);
  who ← string_at memory (i + 1) (Z.of_nat size - Z.of_nat i);
  let res := RES_OK in
  let res :=
    if bool_decide (String.length user = 0)
       || bool_decide (String.length pass = 0)
       || bool_decide (String.length who = 0)
       || bool_decide (LEN_UNAME < String.length user)
       || bool_decide (LEN_PASS < String.length pass)
       || bool_decide (LEN_UNAME < String.length who)
    then RES_ERR_MSG_FMT else res in
  rv ← get_user_data md5_hex user pass who st;
  (* the trace line prints [rv.second.data()] as a C string *)
  printed ← read_c_string (rv.2 ++ res_slack);
  if negb rv.1 then Some (String.string_of_list_byte printed)
  else Some res.

(** [server_cmd_reg]: the reply and the storage it leaves. *)
Definition server_cmd_reg (req req_slack : vec) (st : Storage)
  : option (string * Storage) :=
  let memory := req ++ req_slack in
  let size := length req in
  c ← memory !! 0;
  i ← scan size memory size 0 c;
  user ← string_at memory 0 (Z.of_nat i);
  pass ← string_at memory (i + 1) (Z.of_nat size - Z.of_nat i - 1);
  if bool_decide (String.length user = 0)
     || bool_decide (String.length pass = 0)
     || bool_decide (LEN_UNAME < String.length user)
     || bool_decide (LEN_PASS < String.length pass)
  then Some (RES_ERR_MSG_FMT, st)
  else
    let '(added, st) := add_user md5_hex user pass st in
    if negb added then Some (RES_ERR_USER_EXISTS, st)
    else Some (RES_OK, st).
End commands.
End p1_commands.

(** ** [p3/server/server_storage.cc]: the other operations *)

Module p3_storage_rest.
Section storage.
Variable str_hash : string → nat.

(** The bytes at the digest pointer in the call at hand, as in
    [p3_storage]. *)
Variable hashed : vec.

Import p3_hashtable p3_storage.

#[local] Existing Instance storage_locking.

Definition with_content (entry : AuthTableEntry) (c : vec) : AuthTableEntry :=
  {| username := username entry; pass_hash := pass_hash entry; content := c |}.

Definition with_f_ptr (st : Storage) (f : stream) : Storage :=
  {| auth_table := auth_table st; kv_store := kv_store st;
     filename := filename st; f_ptr := f |}.

(** The [AUTHDIFF] record of [set_user_data]. *)
Definition authdiff_record (user_name : string) (c : vec) : vec :=
  let data := [] in
  let data := vec_append data (vec_from_string AUTHDIFF) in
  let data := vec_append data (str_size_int user_name) in
  let data := vec_append data (vec_from_string user_name) in
  let data := vec_append data (size_int c) in
  if bool_decide (0 < length c) then vec_append data c else data.

Definition set_user_data (user_name pass : string) (c : vec) (st : Storage)
  : Eff files (vec * Storage) :=
  '(authenticated, st) ← defined (auth str_hash hashed user_name pass st);
  if negb authenticated then mret (vec_from_string RES_ERR_LOGIN, st)
  else
    '(_, auth_table') ← do_with str_hash user_name
        (λ entry,
           fwrite (authdiff_record user_name c) (f_ptr st);;
           mret (with_content entry c))
        (auth_table st);
    mret (vec_from_string RES_OK, with_auth_table st auth_table').

(** [get_user_data]: the first lookup is for [who], the second one, which
    copies the content, for [user_name]. *)
Definition get_user_data (user_name pass who : string) (st : Storage)
  : Eff files ((bool * vec) * Storage) :=
  '(authenticated, st) ← defined (auth str_hash hashed user_name pass st);
  if negb authenticated then mret ((true, vec_from_string RES_ERR_LOGIN), st)
  else
    found ← do_with_readonly str_hash who (λ _, mret ()) (auth_table st);
    if negb found then mret ((true, vec_from_string RES_ERR_NO_USER), st)
    else
      '(_, data) ← defined
        (do_with_readonly str_hash user_name
           (λ entry, modify (λ _ : vec, content entry))
           (auth_table st) []);
      if bool_decide (data = [])
      then mret ((true, vec_from_string RES_ERR_NO_DATA), st)
      else mret ((false, data), st).

Definition get_all_users (user_name pass : string) (st : Storage)
  : Eff files ((bool * vec) * Storage) :=
  '(authenticated, st) ← defined (auth str_hash hashed user_name pass st);
  if negb authenticated then mret ((true, vec_from_string RES_ERR_LOGIN), st)
  else
    '(_, users) ← defined
      (do_all_readonly
         (λ (user_name : string) (_ : AuthTableEntry),
            modify (λ users : vec,
              vec_append (vec_append users (vec_from_string user_name))
                [Byte.x0a]))
         (mret ()) (auth_table st) []);
    mret ((false, users), st).

(** The [KVDELETE] record of [kv_delete]. *)
Definition delete_record (key : string) : vec :=
  let data := [] in
  let data := vec_append data (vec_from_string KVDELETE) in
  let data := vec_append data (str_size_int key) in
  vec_append data (vec_from_string key).

Definition kv_delete (user_name pass key : string) (st : Storage)
  : Eff files (vec * Storage) :=
  '(authenticated, st) ← defined (auth str_hash hashed user_name pass st);
  if negb authenticated then mret (vec_from_string RES_ERR_LOGIN, st)
  else
    '(removed, kv_store') ← remove str_hash key
        (fwrite (delete_record key) (f_ptr st)) (kv_store st);
    let st := with_kv_store st kv_store' in
    if negb removed then mret (vec_from_string RES_ERR_KEY, st)
    else mret (vec_from_string RES_OK, st).

Definition kv_all (user_name pass : string) (st : Storage)
  : Eff files ((bool * vec) * Storage) :=
  '(authenticated, st) ← defined (auth str_hash hashed user_name pass st);
  if negb authenticated then mret ((true, vec_from_string RES_ERR_LOGIN), st)
  else
    '(_, values) ← defined
      (do_all_readonly
         (λ (key : string) (_ : vec),
            modify (λ values : vec,
              vec_append (vec_append values (vec_from_string key))
                [Byte.x0a]))
         (mret ()) (kv_store st) []);
    if bool_decide (length values = 0)
    then mret ((true, vec_from_string RES_ERR_NO_DATA), st)
    else mret ((false, values), st).

(** *** [load] *)

Definition byte_to_Z (b : Byte.byte) : Z := Z.of_N (Byte.to_N b).

(** The [int32_t] at [data.data() + i]: four bytes, the low one first, as
    a signed number.  A read outside the vector has no defined outcome. *)
Definition read_int (data : vec) (i : nat) : option Z :=
  match take 4 (drop i data) with
  | [b0; b1; b2; b3] =>
      let u := (byte_to_Z b0 + 2 ^ 8 * byte_to_Z b1 + 2 ^ 16 * byte_to_Z b2
                + 2 ^ 24 * byte_to_Z b3)%Z in
      Some (if (u <? 2 ^ 31)%Z then u else (u - 2 ^ 32)%Z)
  | _ => None
  end.

(** [string(data.data() + i, len)] *)
Definition read_string (data : vec) (i : nat) (len : Z) : option string :=
  p1_commands.string_at data i len.

(** A key and a value, as the three records of the store have them. *)
Definition read_key_value (data : vec) (i : nat)
  : option (string * string * nat) :=
  k_len ← read_int data i;
  let i := i + 4 in
  key ← read_string data i k_len;
  let i := i + Z.to_nat k_len in
  v_len ← read_int data i;
  let i := i + 4 in
  value ← read_string data i v_len;
  let i := i + Z.to_nat v_len in
  Some (key, value, i).

(** A length and, unless it is zero, that many bytes of content. *)
Definition read_content (data : vec) (i : nat) : option (string * nat) :=
  c_len ← read_int data i;
  let i := i + 4 in
  if bool_decide (c_len = 0%Z) then Some (EmptyString, i)
  else
    c ← read_string data i c_len;
    Some (c, i + Z.to_nat c_len).

(** One round of the loop of [load], for the record at position [i]: the
    position behind the record and the storage, or [None] for the
    [return false] on an unknown magic. *)
Definition load_record (data : vec) (i : nat) (st : Storage)
  : Eff files (option (nat * Storage)) :=
  magic ← defined (read_string data i 8);
  if bool_decide (magic = AUTHENTRY) then
    let i := i + 8 in
    u_len ← defined (read_int data i);
    let i := i + 4 in
    user ← defined (read_string data i u_len);
    let i := i + Z.to_nat u_len in
    p_len ← defined (read_int data i);
    let i := i + 4 in
    pass ← defined (read_string data i p_len);
    let i := i + Z.to_nat p_len in
    '(c, i) ← defined (read_content data i);
    let new_entry := {| username := user; pass_hash := pass;
                        content := vec_from_string c |} in
    '(_, auth_table') ← insert str_hash user new_entry (mret ())
                          (auth_table st);
    mret (Some (i, with_auth_table st auth_table'))
  else if bool_decide (magic = KVENTRY) then
    '(key, value, i) ← defined (read_key_value data (i + 8));
    '(_, kv_store') ← insert str_hash key (vec_from_string value) (mret ())
                        (kv_store st);
    mret (Some (i, with_kv_store st kv_store'))
  else if bool_decide (magic = KVUPDATE) then
    '(key, value, i) ← defined (read_key_value data (i + 8));
    '(_, kv_store') ← upsert str_hash key (vec_from_string value) (mret ())
                        (mret ()) (kv_store st);
    mret (Some (i, with_kv_store st kv_store'))
  else if bool_decide (magic = KVDELETE) then
    let i := i + 8 in
    k_len ← defined (read_int data i);
    let i := i + 4 in
    key ← defined (read_string data i k_len);
    let i := i + Z.to_nat k_len in
    '(_, kv_store') ← remove str_hash key (mret ()) (kv_store st);
    mret (Some (i, with_kv_store st kv_store'))
  else if bool_decide (magic = AUTHDIFF) then
    let i := i + 8 in
    u_len ← defined (read_int data i);
    let i := i + 4 in
    user ← defined (read_string data i u_len);
    let i := i + Z.to_nat u_len in
    '(c, i) ← defined (read_content data i);
    '(_, auth_table') ← do_with str_hash user
        (λ entry, mret (with_content entry (vec_from_string c)))
        (auth_table st);
    mret (Some (i, with_auth_table st auth_table'))
  else mret None.

(** [while (i < data.size())].  Every round moves [i] forward by twelve
    bytes or more, so [data.size()] rounds are enough. *)
Fixpoint load_loop (rounds : nat) (data : vec) (i : nat) (st : Storage)
  : Eff files (bool * Storage) :=
  if bool_decide (i < length data) then
    match rounds with
    | O => crash
    | S rounds =>
        r ← load_record data i st;
        match r with
        | Some (i, st) => load_loop rounds data i st
        | None => mret (false, st)
        end
    end
  else mret (true, st).

(** Modelled from the spec: [load_entire_file] of [common/file.h] is not
    among the sources; it returns the bytes of the file.

    [load]: a missing file is created by the [fopen] for writing and the
    tables stay as they are; otherwise the tables are cleared and the
    records replayed.  The stream is reopened for appending only after a
    full replay. *)
Definition load (st : Storage) : Eff files (bool * Storage) :=
  λ fs,
    match fs !! filename st with
    | None =>
        Some ((true, with_f_ptr st (Writing (filename st))),
              write_file (filename st) [] fs)
    | Some data =>
        (let st := with_f_ptr st (Reading (filename st)) in
         auth_table' ← clear (auth_table st);
         kv_store' ← clear (kv_store st);
         let st := with_kv_store (with_auth_table st auth_table') kv_store' in
         if bool_decide (length data = 0) then mret (true, st)
         else
           '(ok, st) ← load_loop (length data) data 0 st;
           if (ok : bool)
           then mret (true, with_f_ptr st (Writing (filename st)))
           else mret (false, st)) fs
    end.
End storage.
End p3_storage_rest.

(** ** [p1/server/server_storage.cc]: the other operations *)

Module p1_storage_rest.
Section storage.
Variable md5_hex : string → string.

Import p1_storage.

Definition with_auth_table (st : Storage)
    (t : gmap string AuthTableEntry) : Storage :=
  {| auth_table := t; filename := filename st |}.

Definition error_check (user_name pass : string) (st : Storage)
  : option (bool * vec) :=
  if negb (exists_ user_name st)
  then Some (true, vec_from_string RES_ERR_NO_USER)
  else
    authenticated ← auth md5_hex user_name pass st;
    if negb authenticated then Some (true, vec_from_string RES_ERR_LOGIN)
    else Some (false, vec_from_string RES_OK).

(** [set_user_data].  The trace line prints [content.data()] as a C
    string: [content_slack] is the memory behind the vector, and the line
    needs a NUL in the one or the other. *)
Definition set_user_data (user_name pass : string) (c content_slack : vec)
    (st : Storage) : option (vec * Storage) :=
  check ← error_check user_name pass st;
  if (check.1 : bool) then Some (check.2, st)
  else
    entry ← auth_table st !! user_name;
    let auth_table' :=
      <[user_name := p3_storage_rest.with_content entry c]> (auth_table st) in
    _ ← p1_commands.read_c_string (c ++ content_slack);
    Some (vec_from_string RES_OK, with_auth_table st auth_table').

(** [get_all_users]: [vec users(n)] is a vector of [n] zero bytes, and the
    names are appended to it.  The loop visits every pair of the
    [std::unordered_map] once, in an order that the container chooses:
    [elements] is the pairs of [auth_table] in the order of this visit. *)
Definition get_all_users (user_name pass : string)
    (elements : list (string * AuthTableEntry)) (st : Storage)
  : option (bool * vec) :=
  check ← error_check user_name pass st;
  if (check.1 : bool) then Some check
  else
    let users := replicate (size (auth_table st)) Byte.x00 in
    let users :=
      foldl (λ users (element : string * AuthTableEntry),
               vec_append (vec_append users (vec_from_string element.1))
                 [Byte.x0a])
        users elements in
    Some (true, users).

(** [auth_table.insert({user, new_entry})]: a name that is there keeps its
    entry. *)
Definition insert_new (user : string) (new_entry : AuthTableEntry)
    (t : gmap string AuthTableEntry) : gmap string AuthTableEntry :=
  match t !! user with
  | Some _ => t
  | None => <[user := new_entry]> t
  end.

(** The loop of [load], from the position [i]: three lengths, each
    followed by its bytes.  A read outside the data has no defined
    outcome.  Every round moves [i] forward by twelve bytes or more, so
    [data.size()] rounds are enough.  When the data is used up the function
    returns [false]. *)
Fixpoint load_loop (rounds : nat) (data : vec) (i : nat) (st : Storage)
  : option (bool * Storage) :=
  if bool_decide (i < length data) then
    match rounds with
    | O => None
    | S rounds =>
        u_size ← p3_storage_rest.read_int data i;
        let i := i + 4 in
        user ← p1_commands.string_at data i u_size;
        let i := i + Z.to_nat u_size in
        p_size ← p3_storage_rest.read_int data i;
        let i := i + 4 in
        pass ← p1_commands.string_at data i p_size;
        let i := i + Z.to_nat p_size in
        c_size ← p3_storage_rest.read_int data i;
        let i := i + 4 in
        c ← p1_commands.string_at data i c_size;
        let i := i + Z.to_nat c_size in
        let new_entry := {| username := user; pass_hash := pass;
                            content := vec_from_string c |} in
        load_loop rounds data i
          (with_auth_table st (insert_new user new_entry (auth_table st)))
    end
  else Some (false, st).

(** Modelled from the spec: [file_exists] and [load_entire_file] of
    [common/file.h] are not among the sources; the one tells whether the
    file is there and the other returns its bytes.

    [load]: without the file the table stays as it is; otherwise it is
    cleared and the records are read from position 8 on.  The position is
    an [int]: data of 2^31 bytes or more has no defined outcome here. *)
Definition load (st : Storage) (fs : files) : option (bool * Storage) :=
  match fs !! filename st with
  | None => Some (true, st)
  | Some data =>
      let st := with_auth_table st ∅ in
      if bool_decide (length data = 0) then Some (true, st)
      else if bool_decide (2 ^ 31 ≤ Z.of_nat (length data))%Z then None
      else load_loop (length data) data 8 st
  end.
End storage.
End p1_storage_rest.

(** ** [p1/common/net.cc] *)

Module net.
(** [EINTR] of [errno.h]. *)
Definition EINTR : Z := 4.

(** What a call of [recv] finds on the connection: bytes that have
    arrived, one or more, or a failure with the [errno] it sets. *)
Inductive arrival :=
  | Data (first : Byte.byte) (more : vec)
  | Failure (error : Z).

(** The receiving side of a socket: what is still to arrive, after which
    the peer has closed the connection, and [errno], which only a failing
    call sets. *)
Record socket := {
  incoming : list arrival;
  errno : Z;
}.

(** [recv(sd, buf, remain, 0)]: the return value, the bytes stored at
    [buf], and the socket afterwards.  It returns up to [remain] bytes of
    what has arrived, 0 when the peer has closed the connection, and -1 on
    a failure. *)
Definition recv (remain : nat) (sd : socket) : Z * vec * socket :=
  match incoming sd with
  | [] => (0%Z, [], sd)
  | Data first more :: rest =>
      let got := take remain (first :: more) in
      let left :=
        match drop remain (first :: more) with
        | [] => rest
        | b :: bytes => Data b bytes :: rest
        end in
      (Z.of_nat (length got), got, {| incoming := left; errno := errno sd |})
  | Failure error :: rest =>
      ((-1)%Z, [], {| incoming := rest; errno := error |})
  end.

(** [reliable_get_to_eof_or_n]: the bytes stored from [pos] on are
    [stored], and [total] is their number.  The loop has no bound of its
    own. *)
Fixpoint reliable_get_to_eof_or_n (rounds : nat) (remain : nat)
    (stored : vec) (sd : socket) : option (Z * vec * socket) :=
  if bool_decide (remain = 0) then Some (Z.of_nat (length stored), stored, sd)
  else
    match rounds with
    | O => None
    | S rounds =>
        let '(rcd, got, sd) := recv remain sd in
        if bool_decide (rcd ≤ 0)%Z then
          if bool_decide (errno sd ≠ EINTR) then
            if bool_decide (rcd = 0%Z)
            then Some (Z.of_nat (length stored), stored, sd)
            else Some ((-1)%Z, stored, sd)
          else reliable_get_to_eof_or_n rounds remain stored sd
        else
          reliable_get_to_eof_or_n rounds (remain - length got)
            (stored ++ got) sd
    end.

(** [int] has 32 bits.  A conversion to it wraps around; [recd += justgot]
    is a signed addition, which has no defined outcome beyond [INT_MAX].
    A conversion to [size_t] is taken modulo [2^64]. *)
Definition INT_MAX : Z := 2147483647.

Definition to_int (n : Z) : Z := ((n + 2 ^ 31) mod 2 ^ 32 - 2 ^ 31)%Z.

Definition to_size_t (n : Z) : Z := (n mod 2 ^ 64)%Z.

(** The loop of [reliable_get_to_eof]: [res] holds [stored] in a buffer of
    [size] bytes, and the [int] [recd] is the number of the bytes
    stored. *)
Fixpoint get_to_eof_loop (rounds : nat) (size : nat) (stored : vec)
    (sd : socket) : option (vec * socket) :=
  match rounds with
  | O => None
  | S rounds =>
      let recd := Z.of_nat (length stored) in
      let remain := to_int (Z.of_nat size - recd) in
      let '(justgot, got, sd) := recv (Z.to_nat (to_size_t remain)) sd in
      if bool_decide (justgot = 0%Z) then Some (stored, sd)
      else if bool_decide (justgot < 0)%Z then
        if bool_decide (errno sd ≠ EINTR) then Some ([], sd)
        else get_to_eof_loop rounds size stored sd
      else
        if bool_decide (INT_MAX < recd + justgot)%Z then None
        else
          let stored := stored ++ got in
          let recd := Z.of_nat (length stored) in
          let size := if bool_decide (recd = to_int (Z.of_nat size))
                      then 2 * size else size in
          get_to_eof_loop rounds size stored sd
  end.

Definition reliable_get_to_eof (rounds : nat) (sd : socket)
  : option (vec * socket) :=
  get_to_eof_loop rounds 16 [] sd.

(** The bytes of a connection, in the order of arrival. *)
Definition stream (arrivals : list arrival) : vec :=
  flat_map (λ a, match a with
                 | Data first more => first :: more
                 | Failure _ => []
                 end) arrivals.

(** Every failure is an interrupted call. *)
Definition interrupts_only (arrivals : list arrival) : Prop :=
  ∀ error, Failure error ∈ arrivals → error = EINTR.
End net.

(** ** [p4/common/hashtable.h] *)

(** The table of [p4] is one vector of pairs under one mutex, which is
    lock 0 here; the number of buckets given to the constructor is not
    used. *)
Module p4_hashtable.
Section ops.
Context {K V : Type} `{EqDecision K}.
Context {St : Type} `{!Locking St}.

Definition clear (pairs : list (K * V)) : Eff St (list (K * V)) :=
  lock 0;;
  unlock 0;;
  mret [].

Definition insert (key : K) (val : V) (on_success : Eff St ())
    (pairs : list (K * V)) : Eff St (bool * list (K * V)) :=
  lock 0;;
  match find_key key pairs with
  | Some _ => unlock 0;; mret (false, pairs)
  | None =>
      let pairs' := pairs ++ [(key, val)] in
      on_success;;
      unlock 0;;
      mret (true, pairs')
  end.

Definition upsert (key : K) (val : V) (on_ins on_upd : Eff St ())
    (pairs : list (K * V)) : Eff St (bool * list (K * V)) :=
  lock 0;;
  match find_key key pairs with
  | Some i =>
      let pairs' := alter (λ e, (e.1, val)) i pairs in
      on_upd;;
      unlock 0;;
      mret (false, pairs')
  | None =>
      let pairs' := pairs ++ [(key, val)] in
      on_ins;;
      unlock 0;;
      mret (true, pairs')
  end.

Definition do_with (key : K) (f : V → Eff St V) (pairs : list (K * V))
    : Eff St (bool * list (K * V)) :=
  lock 0;;
  match find_key key pairs with
  | Some i =>
      e ← defined (pairs !! i);
      val ← f e.2;
      unlock 0;;
      mret (true, alter (λ e, (e.1, val)) i pairs)
  | None => unlock 0;; mret (false, pairs)
  end.

Definition do_with_readonly (key : K) (f : V → Eff St ())
    (pairs : list (K * V)) : Eff St bool :=
  lock 0;;
  match find_key key pairs with
  | Some i =>
      e ← defined (pairs !! i);
      f e.2;;
      unlock 0;;
      mret true
  | None => unlock 0;; mret false
  end.

Definition remove (key : K) (on_success : Eff St ())
    (pairs : list (K * V)) : Eff St (bool * list (K * V)) :=
  lock 0;;
  match find_key key pairs with
  | Some i =>
      let pairs' := delete i pairs in
      on_success;;
      unlock 0;;
      mret (true, pairs')
  | None => unlock 0;; mret (false, pairs)
  end.

Definition do_all_readonly (f : K → V → Eff St ()) (then_ : Eff St ())
    (pairs : list (K * V)) : Eff St () :=
  lock 0;;
  p5_hashtable.each_pair f pairs;;
  then_;;
  unlock 0.
End ops.
End p4_hashtable.

(** ** [p5/so/all_keys.cc] and [p5/so/odd_key_vals.cc] *)

Module all_keys.
(** [map]: the key. *)
Definition map (key : string) (val : vec) : vec := vec_from_string key.

(** [reduce]: a newline goes in front of a result when something is
    there already. *)
Definition reduce (results : list vec) : vec :=
  foldl (λ res r,
           let res := if bool_decide (length res ≠ 0)
                      then vec_append res [Byte.x0a] else res in
           vec_append res r)
    [] results.
End all_keys.

Module odd_key_vals.
(** [reduce]: every result that is not empty, twice. *)
Definition reduce (results : list vec) : vec :=
  foldl (λ res r,
           if bool_decide (0 < length r) then
             let res := if bool_decide (length res ≠ 0)
                        then vec_append res [Byte.x0a] else res in
             let res := vec_append res r in
             vec_append res r
           else res)
    [] results.
End odd_key_vals.

(** ** Sample states *)

Module samples.
(** A table of two buckets over numbers, hashed by their value. *)
Definition nat_hash (k : nat) : nat := k.
Definition two_buckets : table nat nat := [[(2, 20)]; [(3, 30)]].

Definition no_steps : list (event nat nat) := [].

(** The callbacks of a traced run. *)
Definition traced_f {K V} (k : K) (v : V) : Eff (list (event K V)) () :=
  emit (EvF k v).
Definition traced_then {K V} : Eff (list (event K V)) () := emit EvThen.
Definition traced_on_success {K V} : Eff (list (event K V)) () :=
  emit EvOnSuccess.


(** A quota of 10 units per 60 seconds, its memory zeroed, used up at
    time 0. *)
Definition spent_tracker : quota_tracker.Internal :=
  quota_tracker.run [quota_tracker.DoAdd 0 10]
    (quota_tracker.new 0 10 (inject_Z 60)).

(** An index of capacity 1 after two keys, and one of capacity 4. *)
Definition mru_of_one : mru_manager.Internal :=
  mru_manager.run [mru_manager.Insert "a"; mru_manager.Insert "b"]
    (mru_manager.new 1).
Definition mru_of_four : mru_manager.Internal :=
  mru_manager.run [mru_manager.Insert "a"; mru_manager.Insert "b"]
    (mru_manager.new 4).


(** A storage of [p3] right after start-up on a missing file: four
    empty buckets in each table and the log stream open. *)
Definition fresh_p3 : p3_storage.Storage :=
  {| p3_storage.auth_table := new_table 4;
     p3_storage.kv_store := new_table 4;
     p3_storage.filename := "db";
     p3_storage.f_ptr := Writing "db" |}.

(** Stand-ins for [std::hash] and for the bytes that the digest pointer
    holds in a call, for runs that need concrete ones. *)
Definition length_hash (s : string) : nat := String.length s.
Definition plain_digest (s : string) : vec := vec_from_string s.

(** A storage of [p3] in which "alice" is registered with a stored hash
    that [auth] accepts in a call whose digest pointer holds the bytes of
    "pw", and the key "k" holds one byte. *)
Definition alice : AuthTableEntry :=
  {| username := "alice"; pass_hash := "x"; content := [] |}.
Definition p3_with_key : p3_storage.Storage :=
  {| p3_storage.auth_table := [[("alice", alice)]];
     p3_storage.kv_store := [[("k", [Byte.x01])]];
     p3_storage.filename := "db";
     p3_storage.f_ptr := Writing "db" |}.


(** A storage of [p1] with one user. *)
Definition p1_with_alice : p1_storage.Storage :=
  {| p1_storage.auth_table := {[ "alice" := alice ]};
     p1_storage.filename := "db" |}.

(** A storage of [p1] with two users. *)
Definition bob : AuthTableEntry :=
  {| username := "bob"; pass_hash := "y"; content := [] |}.
Definition p1_with_alice_and_bob : p1_storage.Storage :=
  {| p1_storage.auth_table := <[ "bob" := bob ]> {[ "alice" := alice ]};
     p1_storage.filename := "db" |}.

(** The body of a GET request with an empty user name: a newline, "pw",
    a newline, "bob". *)
Definition get_empty_user : vec :=
  [Byte.x0a] ++ vec_from_string "pw" ++ [Byte.x0a] ++ vec_from_string "bob".

(** The body of a REG request with an empty user name: a newline and
    "pw". *)
Definition reg_empty_user : vec := [Byte.x0a] ++ vec_from_string "pw".

(** A stand-in for the hexadecimal digest of [p1], for runs that need a
    concrete function. *)
Definition plain_hex (s : string) : string := s.

(** A REG request, user "bob" and password "pw", and a GET request of
    "alice" with password "x" for "bob". *)
Definition reg_bob : vec :=
  vec_from_string "bob" ++ Byte.x0a :: vec_from_string "pw".
Definition get_bob : vec :=
  vec_from_string "alice" ++ Byte.x0a :: vec_from_string "x"
  ++ Byte.x0a :: vec_from_string "bob".



End samples.

(** * Properties *)

(** Unfold the monad of effects one layer and compute. *)
Ltac eff :=
  repeat (unfold mbind, Eff_bind, mret, Eff_ret, defined, crash, modify,
            with_local, lock, unlock, lock_shared, option_bind; cbn).

(** The same for the binds alone: callbacks stay folded. *)
Ltac eff_bind :=
  repeat (unfold mbind, Eff_bind, mret, Eff_ret, defined, option_bind; cbn).

(** ** The sharded hash table *)

Section table_facts.
Context {K V : Type} `{EqDecision K}.
Variable hash : K → nat.

Lemma elem_of_concat {A} (x : A) (ls : list (list A)) :
  x ∈ concat ls ↔ ∃ l, x ∈ l ∧ l ∈ ls.
Proof.
  induction ls as [|l ls IH]; simpl.
  - rewrite elem_of_nil. split; [done|]. intros (l & _ & Hl).
    by apply elem_of_nil in Hl.
  - rewrite elem_of_app, IH. split.
    + intros [Hx|(l' & Hx & Hl')].
      * exists l. split; [done|]. apply elem_of_cons. by left.
      * exists l'. split; [done|]. apply elem_of_cons. by right.
    + intros (l' & Hx & Hl'). apply elem_of_cons in Hl' as [->|Hl'].
      * by left.
      * right. eauto.
Qed.

Lemma find_key_None (key : K) (elements : list (K * V)) :
  find_key key elements = None ↔ ∀ val, (key, val) ∉ elements.
Proof.
  induction elements as [|[k v] rest IH]; simpl.
  - split; [intros _ val Hin; inversion Hin | done].
  - destruct (decide (k = key)) as [->|Hne].
    + split; [done|]. intros Hno. destruct (Hno v). left.
    + destruct (find_key key rest) eqn:Hf; simpl.
      * split; [done|]. intros Hno. destruct IH as [_ IH].
        discriminate IH. intros val Hin. apply (Hno val). by right.
      * split; [|done]. intros _ val Hin.
        apply elem_of_cons in Hin as [Heq|Hin]; [congruence|].
        destruct IH as [IH _]. by apply (IH eq_refl val).
Qed.

Lemma find_key_Some (key : K) (elements : list (K * V)) (i : nat) :
  find_key key elements = Some i → ∃ val, elements !! i = Some (key, val).
Proof.
  revert i. induction elements as [|[k v] rest IH]; intros i; simpl; [done|].
  destruct (decide (k = key)) as [->|Hne].
  - intros [= <-]. by exists v.
  - destruct (find_key key rest) as [i'|]; [|done]. simpl.
    intros [= <-]. by apply IH.
Qed.

Lemma bucket_index_lt (key : K) (t : table K V) (index : nat) :
  bucket_index hash key t = Some index → index < length t.
Proof.
  unfold bucket_index. destruct (length t) eqn:Hl; [done|].
  intros Hi. apply (inj Some) in Hi. subst index.
  apply Nat.mod_upper_bound. lia.
Qed.

Lemma bucket_index_defined (key : K) (t : table K V) :
  t ≠ [] → ∃ index elements,
    bucket_index hash key t = Some index ∧ t !! index = Some elements.
Proof.
  intros Hne. unfold bucket_index. destruct (length t) as [|n] eqn:Hl.
  { by destruct t. }
  destruct (lookup_lt_is_Some_2 t (hash key mod S n)) as [elements Hel].
  { rewrite Hl. apply Nat.mod_upper_bound. lia. }
  eauto.
Qed.

(** In a well-placed table a key is present exactly when the scan of its
    own bucket finds it. *)
Lemma present_find_key (key : K) (t : table K V) (index : nat)
    (elements : list (K * V)) :
  well_placed hash t →
  bucket_index hash key t = Some index →
  t !! index = Some elements →
  present key t ↔ is_Some (find_key key elements).
Proof.
  intros Hwp Hidx Hel. split.
  - intros [val Hin]. apply elem_of_concat in Hin as (b & Hin & Hb).
    apply list_elem_of_lookup in Hb as [i Hi].
    pose proof (Hwp _ _ _ _ Hi Hin) as Hi'.
    rewrite Hidx in Hi'. injection Hi' as Heq. subst i.
    rewrite Hel in Hi. injection Hi as Heq. subst b.
    destruct (find_key key elements) eqn:Hf; [eauto|].
    pose proof (proj1 (find_key_None key elements) Hf val) as Hno.
    by destruct Hno.
  - intros [i Hf]. apply find_key_Some in Hf as [val Hi].
    exists val. apply elem_of_concat. exists elements. split.
    + apply list_elem_of_lookup. eauto.
    + apply list_elem_of_lookup. eauto.
Qed.
End table_facts.

Section insert_facts.
Context {K V : Type} `{EqDecision K}.
Variable hash : K → nat.
Context {St : Type} `{!Locking St}.

(** What [insert] does on a bucket whose scan has been decided. *)
Lemma p3_insert_unfold (t : table K V) (key : K) (val : V)
    (on_success : Eff St ()) (s : St) (index : nat)
    (elements : list (K * V)) :
  bucket_index hash key t = Some index →
  t !! index = Some elements →
  p3_hashtable.insert hash key val on_success t s =
    match find_key key elements with
    | Some _ => Some ((false, t), mtx_unlock index (mtx_lock index s))
    | None =>
        '(_, s') ← on_success (mtx_lock index s);
        Some ((true, push_back index key val t), mtx_unlock index s')
    end.
Proof.
  intros Hidx Hel. unfold p3_hashtable.insert.
  rewrite Hidx. eff. rewrite Hel. eff.
  destruct (find_key key elements); [done|]. eff.
  by destruct (on_success (mtx_lock index s)) as [[[] s']|].
Qed.

Lemma p5_insert_unfold (t : table K V) (key : K) (val : V)
    (on_success : Eff St ()) (s : St) (index : nat)
    (elements : list (K * V)) :
  bucket_index hash key t = Some index →
  t !! index = Some elements →
  p5_hashtable.insert hash key val on_success t s =
    match find_key key elements with
    | Some _ => Some ((false, t), mtx_unlock index (mtx_lock index s))
    | None =>
        '(_, s') ← on_success (mtx_lock index s);
        Some ((true, push_back index key val t), mtx_unlock index s')
    end.
Proof.
  intros Hidx Hel. unfold p5_hashtable.insert.
  rewrite Hidx. eff. rewrite Hel. eff.
  destruct (find_key key elements); [done|]. eff.
  by destruct (on_success (mtx_lock index s)) as [[[] s']|].
Qed.

Lemma push_back_insert (t : table K V) (key : K) (val : V) (index : nat)
    (elements : list (K * V)) :
  t !! index = Some elements →
  push_back index key val t = <[index := elements ++ [(key, val)]]> t.
Proof.
  revert index. unfold push_back.
  induction t as [|b t IH]; intros [|index]; simpl; try done.
  - by intros [= ->].
  - intros Hel. f_equal. by apply IH.
Qed.

(** C7: on a table with at least one bucket and every pair in the bucket
    of its key, [insert(k, v, on_success)] of both versions behaves as
    follows.  If [k] is present it returns [false] (exists), the table is
    the same, and the ambient state has only seen the lock and the unlock
    of the bucket: [on_success] has not run.  If [k] is absent it returns
    [true] (inserted), the pair [(k, v)] is appended to the bucket of [k],
    and [on_success] has run exactly once, between the lock and the
    unlock. *)
Theorem insert_contract (t : table K V) (key : K) (val : V)
    (on_success : Eff St ()) (s : St) :
  t ≠ [] →
  well_placed hash t →
  ∃ index elements,
    bucket_index hash key t = Some index ∧
    t !! index = Some elements ∧
    (present key t →
       let outcome :=
         Some ((false, t), mtx_unlock index (mtx_lock index s)) in
       p3_hashtable.insert hash key val on_success t s = outcome ∧
       p5_hashtable.insert hash key val on_success t s = outcome) ∧
    (¬ present key t →
       let appended := <[index := elements ++ [(key, val)]]> t in
       let outcome :=
         '(_, s') ← on_success (mtx_lock index s);
         Some ((true, appended), mtx_unlock index s') in
       p3_hashtable.insert hash key val on_success t s = outcome ∧
       p5_hashtable.insert hash key val on_success t s = outcome).
Proof.
  intros Hne Hwp.
  destruct (bucket_index_defined hash key t Hne)
    as (index & elements & Hidx & Hel).
  exists index, elements. split; [done|]. split; [done|].
  pose proof (present_find_key hash key t index elements Hwp Hidx Hel)
    as Hpres.
  rewrite (p3_insert_unfold t key val on_success s index elements Hidx Hel).
  rewrite (p5_insert_unfold t key val on_success s index elements Hidx Hel).
  rewrite (push_back_insert t key val index elements Hel).
  split.
  - intros Hp. apply Hpres in Hp as [i Hf]. by rewrite Hf.
  - intros Hn. destruct (find_key key elements) as [i|] eqn:Hf; [|done].
    destruct Hn. apply Hpres. eauto.
Qed.
End insert_facts.

Lemma two_buckets_well_placed :
  well_placed samples.nat_hash samples.two_buckets.
Proof.
  intros index elements key val Hel Hin.
  destruct index as [|[|index]]; simpl in Hel; [| |done].
  - injection Hel as <-. apply list_elem_of_singleton in Hin as [= -> ->].
    reflexivity.
  - injection Hel as <-. apply list_elem_of_singleton in Hin as [= -> ->].
    reflexivity.
Qed.

Lemma four_not_present : ¬ present 4 samples.two_buckets.
Proof.
  intros [val Hin]. cbn in Hin.
  repeat (apply elem_of_cons in Hin as [[=]|Hin]).
  by apply elem_of_nil in Hin.
Qed.

(** The contract of [insert] on the sample table: the key 4 is absent and
    joins the first bucket; the traced callback shows once, between the lock
    and the unlock. *)
Lemma insert_contract_witness :
  samples.two_buckets ≠ [] ∧
  well_placed samples.nat_hash samples.two_buckets ∧
  ¬ present 4 samples.two_buckets ∧
  p3_hashtable.insert samples.nat_hash 4 40 samples.traced_on_success
    samples.two_buckets samples.no_steps
  = Some ((true, [[(2, 20); (4, 40)]; [(3, 30)]]),
          [EvLock 0; EvOnSuccess; EvUnlock 0]) ∧
  p5_hashtable.insert samples.nat_hash 4 40 samples.traced_on_success
    samples.two_buckets samples.no_steps
  = Some ((true, [[(2, 20); (4, 40)]; [(3, 30)]]),
          [EvLock 0; EvOnSuccess; EvUnlock 0]).
Proof.
  split; [discriminate|]. split; [exact two_buckets_well_placed|].
  split; [exact four_not_present|].
  destruct (insert_contract samples.nat_hash samples.two_buckets 4 40
              samples.traced_on_success samples.no_steps)
    as (index & elements & Hidx & Hel & _ & Habsent);
    [discriminate | exact two_buckets_well_placed |].
  vm_compute in Hidx. injection Hidx as <-.
  vm_compute in Hel. injection Hel as <-.
  exact (Habsent four_not_present).
Defined.

(** The two outcomes of [insert], computed on the sample table. *)
Example insert_traces :
  p3_hashtable.insert samples.nat_hash 4 40 samples.traced_on_success
    samples.two_buckets samples.no_steps
  = Some ((true, [[(2, 20); (4, 40)]; [(3, 30)]]),
          [EvLock 0; EvOnSuccess; EvUnlock 0]) ∧
  p3_hashtable.insert samples.nat_hash 3 40 samples.traced_on_success
    samples.two_buckets samples.no_steps
  = Some ((false, samples.two_buckets), [EvLock 1; EvUnlock 1]).
Proof. split; reflexivity. Qed.

(** ** The whole-table scan *)

Section scan_traces.
Context {K V : Type}.
Implicit Types (t : table K V) (tr : list (event K V)).

Lemma p5_lock_all_trace (i n : nat) tr :
  p5_hashtable.lock_all i n tr = Some ((), tr ++ (EvLock <$> seq i n)).
Proof.
  revert i tr. induction n as [|n IH]; intros i tr; simpl.
  - by rewrite app_nil_r.
  - eff. rewrite IH. by rewrite <- app_assoc.
Qed.

Lemma p5_unlock_all_trace (i n : nat) tr :
  p5_hashtable.unlock_all i n tr = Some ((), tr ++ (EvUnlock <$> seq i n)).
Proof.
  revert i tr. induction n as [|n IH]; intros i tr; simpl.
  - by rewrite app_nil_r.
  - eff. rewrite IH. by rewrite <- app_assoc.
Qed.

Lemma p5_each_pair_trace (pairs : list (K * V)) tr :
  p5_hashtable.each_pair samples.traced_f pairs tr
  = Some ((), tr ++ (uncurry EvF <$> pairs)).
Proof.
  revert tr. induction pairs as [|[k v] pairs IH]; intros tr; simpl.
  - by rewrite app_nil_r.
  - unfold samples.traced_f at 1, emit. eff. rewrite IH.
    by rewrite <- app_assoc.
Qed.

Lemma p5_each_bucket_trace t tr :
  p5_hashtable.each_bucket samples.traced_f t tr
  = Some ((), tr ++ (uncurry EvF <$> concat t)).
Proof.
  revert tr. induction t as [|b t IH]; intros tr; simpl.
  - by rewrite app_nil_r.
  - eff. rewrite p5_each_pair_trace. rewrite IH.
    by rewrite fmap_app, app_assoc.
Qed.

(** The scan of [p5]: every lock, then [f] on every pair of the table,
    then [then], then every unlock. *)
Lemma p5_do_all_readonly_order t tr :
  p5_hashtable.do_all_readonly samples.traced_f samples.traced_then t tr
  = Some ((), tr ++ (EvLock <$> seq 0 (length t))
                 ++ (uncurry EvF <$> concat t)
                 ++ [EvThen]
                 ++ (EvUnlock <$> seq 0 (length t))).
Proof.
  unfold p5_hashtable.do_all_readonly. eff.
  rewrite p5_lock_all_trace, p5_each_bucket_trace.
  unfold samples.traced_then, emit. eff.
  rewrite p5_unlock_all_trace. by rewrite <- !app_assoc.
Qed.

Lemma p3_lock_all_shared_trace (i n : nat) tr :
  p3_hashtable.lock_all_shared i n tr
  = Some ((), tr ++ (EvLockShared <$> seq i n)).
Proof.
  revert i tr. induction n as [|n IH]; intros i tr; simpl.
  - by rewrite app_nil_r.
  - eff. rewrite IH. by rewrite <- app_assoc.
Qed.

(** The scan of [p3] runs [then] right after the locks, whatever the
    table holds. *)
Lemma p3_do_all_readonly_then_first t tr :
  p3_hashtable.do_all_readonly samples.traced_f samples.traced_then t tr
  = p3_hashtable.visit_buckets samples.traced_f 0 t
      (tr ++ (EvLockShared <$> seq 0 (length t)) ++ [EvThen]).
Proof.
  unfold p3_hashtable.do_all_readonly. eff.
  rewrite p3_lock_all_shared_trace.
  unfold samples.traced_then, emit. eff. by rewrite <- app_assoc.
Qed.
End scan_traces.

(** C8, on the scan of [p3]: on the sample table [then] runs before [f] has
    seen any pair, and the first bucket is unlocked before [f] sees the
    pair of the second. *)
Theorem p3_do_all_readonly_trace :
  p3_hashtable.do_all_readonly samples.traced_f samples.traced_then
    samples.two_buckets samples.no_steps
  = Some ((), [EvLockShared 0; EvLockShared 1; EvThen;
               EvF 2 20; EvUnlock 0; EvF 3 30; EvUnlock 1]).
Proof. reflexivity. Qed.

(** ** The quota tracker *)

Section quota_facts.
Import quota_tracker.

(** [check] decides on the running sum alone: neither the clock nor the
    recorded events enter the comparison. *)
Lemma check_result (cur_time amount : Z) (t : Internal) :
  (check cur_time amount t).1
  = bool_decide (size_t_wrap (q_amt t + amount) ≤ max t)%Z.
Proof.
  unfold check. cbn.
  destruct (Z.ltb_spec (max t) (size_t_wrap (q_amt t + amount))); cbn;
    symmetry; [apply bool_decide_eq_false | apply bool_decide_eq_true]; lia.
Qed.

(** [check] prunes the events and leaves the running sum as it was. *)
Lemma check_keeps_q_amt (cur_time amount : Z) (t : Internal) :
  q_amt (check cur_time amount t).2 = q_amt t.
Proof. unfold check. by destruct (_ <? _)%Z. Qed.

(** The copy has the events, the maximum and the duration of the
    original, and the running sum of a fresh tracker. *)
Lemma copy_fields (indeterminate : Z) (other : Internal) :
  events (copy indeterminate other) = events other ∧
  max (copy indeterminate other) = max other ∧
  dur (copy indeterminate other) = dur other ∧
  q_amt (copy indeterminate other) = indeterminate.
Proof. done. Qed.

(** After any calls, at any times, the running sum is the initial value
    plus all that was ever added, modulo 2^64. *)
Lemma run_q_amt (cs : list call) (t : Internal) :
  size_t_wrap (q_amt (run cs t)) = size_t_wrap (q_amt t + total_added cs).
Proof.
  revert t. induction cs as [|c cs IH]; intros t.
  - cbn. by rewrite Z.add_0_r.
  - change (run (c :: cs) t) with (run cs (run_call c t)). rewrite IH.
    destruct c as [t_now amount|t_now amount];
      cbn [run_call total_added foldr].
    + cbn [add q_amt]. unfold size_t_wrap. rewrite Zplus_mod_idemp_l.
      f_equal. unfold total_added. lia.
    + by rewrite check_keeps_q_amt.
Qed.

Lemma check_after_run (cs : list call) (t : Internal) (cur_time amount : Z) :
  (check cur_time amount (run cs t)).1
  = bool_decide
      (size_t_wrap (q_amt t + total_added cs + amount) ≤ max (run cs t))%Z.
Proof.
  rewrite check_result. apply bool_decide_ext.
  assert (size_t_wrap (q_amt (run cs t) + amount)
          = size_t_wrap (q_amt t + total_added cs + amount)) as ->; [|done].
  unfold size_t_wrap.
  rewrite <- (Zplus_mod_idemp_l (q_amt (run cs t))).
  rewrite <- (Zplus_mod_idemp_l (q_amt t + total_added cs)).
  pose proof (run_q_amt cs t) as Hq. unfold size_t_wrap in Hq.
  by rewrite Hq.
Qed.

Lemma copy_check_result (indeterminate cur_time amount : Z)
    (other : Internal) :
  (check cur_time amount (copy indeterminate other)).1
  = bool_decide (size_t_wrap (indeterminate + amount) ≤ max other)%Z.
Proof. by rewrite check_result. Qed.
End quota_facts.

(** C2, on [check]: the tracker allows 10 units per 60 seconds and recorded
    10 units at time 0.  At time 100 that event is older than the window:
    [check] erases it, the recent events sum to 0, one more unit fits the
    quota, and yet [check(1)] answers [false]. *)
Theorem check_counts_expired_events :
  let t := samples.spent_tracker in
  quota_tracker.events (quota_tracker.check 100 1 t).2 = [] ∧
  quota_tracker.recent_sum 100 (quota_tracker.dur t) (quota_tracker.events t)
    = 0%Z ∧
  (1 + 0 ≤ quota_tracker.max t)%Z ∧
  (quota_tracker.check 100 1 t).1 = false.
Proof. repeat split. vm_compute. discriminate. Qed.

(** C10, on the copy constructor: the copy of the used-up tracker, built
    in zeroed memory, has the events of the original but not its running
    sum; at the same instant the original refuses one unit and the copy
    grants it. *)
Theorem copy_drops_running_sum :
  let original := samples.spent_tracker in
  let copied := quota_tracker.copy 0 original in
  quota_tracker.events copied = quota_tracker.events original ∧
  quota_tracker.q_amt original = 10%Z ∧
  quota_tracker.q_amt copied = 0%Z ∧
  (quota_tracker.check 0 1 original).1 = false ∧
  (quota_tracker.check 0 1 copied).1 = true.
Proof. repeat split. Qed.

(** ** The MRU index *)

Section mru_facts.
Import mru_manager.

Lemma erase_first_subset (elt x : string) (l : list string) :
  x ∈ erase_first elt l → x ∈ l.
Proof.
  induction l as [|y l IH]; simpl; [done|].
  destruct (decide (y = elt)).
  - intros Hx. by right.
  - intros Hx. apply elem_of_cons in Hx as [->|Hx]; [by left|].
    right. by apply IH.
Qed.

Lemma erase_first_NoDup (elt : string) (l : list string) :
  NoDup l → NoDup (erase_first elt l).
Proof.
  induction 1 as [|y l Hy Hl IH]; simpl; [constructor|].
  destruct (decide (y = elt)); [done|].
  constructor; [|done]. intros Hin. apply Hy.
  by apply erase_first_subset in Hin.
Qed.

Lemma erase_first_gone (elt : string) (l : list string) :
  NoDup l → elt ∉ erase_first elt l.
Proof.
  induction 1 as [|y l Hy Hl IH]; simpl; [apply not_elem_of_nil|].
  destruct (decide (y = elt)) as [->|Hne]; [done|].
  intros Hin. apply elem_of_cons in Hin as [->|Hin]; [done|]. by apply IH.
Qed.

(** The half of the invariant that the code keeps: no key twice. *)
Lemma insert_NoDup (elt : string) (m : Internal) :
  NoDup (mru m) → NoDup (mru (insert elt m)).
Proof.
  intros Hnd. unfold insert, remove. cbn.
  apply NoDup_app. split; [by apply erase_first_NoDup|]. split.
  - intros x Hx Hx'. apply list_elem_of_singleton in Hx' as ->.
    by apply (erase_first_gone elt (mru m)).
  - apply NoDup_singleton.
Qed.

Lemma run_NoDup (os : list op) (m : Internal) :
  NoDup (mru m) → NoDup (mru (run os m)).
Proof.
  revert m. induction os as [|o os IH]; intros m Hnd; [done|].
  apply IH. destruct o; cbn.
  - by apply insert_NoDup.
  - by apply erase_first_NoDup.
  - constructor.
Qed.

(** [insert] never looks at [max]: a key that is new makes the index one
    longer, whatever the capacity. *)
Lemma insert_new_length (elt : string) (m : Internal) :
  elt ∉ mru m → length (mru (insert elt m)) = S (length (mru m)).
Proof.
  intros Hnew. unfold insert, remove. cbn. rewrite length_app. cbn.
  assert (erase_first elt (mru m) = mru m) as ->; [|lia].
  induction (mru m) as [|y l IH]; simpl; [done|].
  destruct (decide (y = elt)) as [->|Hne].
  - destruct Hnew. by left.
  - f_equal. apply IH. intros Hin. apply Hnew. by right.
Qed.
End mru_facts.

(** C5, on the capacity: an index built for one key holds two after two
    inserts; the older key has not been dropped. *)
Theorem insert_exceeds_capacity :
  mru_manager.max samples.mru_of_one = 1 ∧
  mru_manager.mru samples.mru_of_one = ["a"; "b"] ∧
  mru_manager.max samples.mru_of_one
    < length (mru_manager.mru samples.mru_of_one).
Proof. repeat split. vm_compute. lia. Qed.

(** C6, on [get]: with "a" inserted before "b" the listing should read
    "b", newline, "a".  Whatever string lies past the end of the deque, [get]
    returns that string, a newline and "b": the oldest key is missing and
    the result differs from the listing.  On an empty index [get] has no
    defined result. *)
Theorem get_misses_front (past_the_end : string) :
  mru_manager.get past_the_end samples.mru_of_four
    = Some (past_the_end +:+ newline +:+ "b") ∧
  mru_manager.get past_the_end samples.mru_of_four
    ≠ Some (mru_manager.join_lines
              (reverse (mru_manager.mru samples.mru_of_four))) ∧
  mru_manager.get past_the_end (mru_manager.new 4) = None.
Proof.
  split; [reflexivity|]. split; [|reflexivity].
  cbn. intros [= Heq]. revert Heq.
  destruct past_the_end as [|c1 [|c2 [|c3 [|c4 rest]]]]; cbn; discriminate.
Qed.

(** ** Lookups in the table of [p3] *)

Section p3_table_facts.
Context {K V : Type} `{EqDecision K}.
Variable hash : K → nat.

Lemma bucket_index_length (key : K) (t t' : table K V) :
  length t' = length t →
  bucket_index hash key t' = bucket_index hash key t.
Proof. unfold bucket_index. by intros ->. Qed.

Lemma find_key_app_new (key : K) (val : V) (elements : list (K * V)) :
  find_key key elements = None →
  find_key key (elements ++ [(key, val)]) = Some (length elements).
Proof.
  induction elements as [|[k v] rest IH]; simpl.
  - intros _. by rewrite decide_True.
  - destruct (decide (k = key)); [done|].
    destruct (find_key key rest); [done|]. intros _. by rewrite IH.
Qed.

Lemma find_key_set_second (key : K) (val : V) (i : nat)
    (elements : list (K * V)) :
  find_key key (alter (λ e, (e.1, val)) i elements) = find_key key elements.
Proof.
  revert i. induction elements as [|[k v] rest IH]; intros [|i]; cbn;
    try done.
  destruct (decide (k = key)); [done|]. f_equal. apply IH.
Qed.

Lemma alter_same {A} (f : A → A) (l : list A) (i : nat) (x : A) :
  l !! i = Some x → f x = x → alter f i l = l.
Proof.
  revert i. induction l as [|y l IH]; intros [|i]; simpl; try done.
  - intros [= ->] ->. done.
  - intros Hl Hf. f_equal. by apply IH.
Qed.

(** Writing back the value that is there leaves the table as it was. *)
Lemma set_second_same (t : table K V) (index i : nat)
    (elements : list (K * V)) (e : K * V) :
  t !! index = Some elements →
  elements !! i = Some e →
  set_second index i e.2 t = t.
Proof.
  intros Hel Hi. unfold set_second.
  apply (alter_same _ t index elements Hel).
  apply (alter_same _ elements i e Hi). by destruct e.
Qed.

Lemma push_back_maps_to (key : K) (val : V) (t : table K V) (index : nat)
    (elements : list (K * V)) :
  bucket_index hash key t = Some index →
  t !! index = Some elements →
  find_key key elements = None →
  maps_to hash key val (push_back index key val t).
Proof.
  intros Hidx Hel Hf.
  exists index, (elements ++ [(key, val)]), (length elements).
  unfold push_back. split; [|split; [|split]].
  - rewrite <- Hidx. apply bucket_index_length. apply length_alter.
  - by rewrite list_lookup_alter_eq, Hel.
  - by apply find_key_app_new.
  - rewrite lookup_app_r by lia. by rewrite Nat.sub_diag.
Qed.

Lemma set_second_maps_to (key : K) (val : V) (t : table K V)
    (index i : nat) (elements : list (K * V)) :
  bucket_index hash key t = Some index →
  t !! index = Some elements →
  find_key key elements = Some i →
  maps_to hash key val (set_second index i val t).
Proof.
  intros Hidx Hel Hf.
  exists index, (alter (λ e, (e.1, val)) i elements), i.
  unfold set_second. split; [|split; [|split]].
  - rewrite <- Hidx. apply bucket_index_length. apply length_alter.
  - by rewrite list_lookup_alter_eq, Hel.
  - by rewrite find_key_set_second.
  - apply find_key_Some in Hf as [v0 Hi].
    by rewrite list_lookup_alter_eq, Hi.
Qed.

Context {St : Type} `{!Locking St}.

Lemma p3_do_with_unfold (t : table K V) (key : K) (f : V → Eff St V)
    (s : St) (index : nat) (elements : list (K * V)) :
  bucket_index hash key t = Some index →
  t !! index = Some elements →
  p3_hashtable.do_with hash key f t s =
    let s1 := mtx_unlock index (mtx_lock_shared index s) in
    match find_key key elements with
    | None => Some ((false, t), s1)
    | Some i =>
        e ← elements !! i;
        '(val, s2) ← f e.2 (mtx_lock index s1);
        Some ((true, set_second index i val t), mtx_unlock index s2)
    end.
Proof.
  intros Hidx Hel. unfold p3_hashtable.do_with.
  rewrite Hidx. eff. rewrite Hel. eff.
  destruct (find_key key elements) as [i|]; [|done]. eff.
  destruct (elements !! i) as [e|]; [|done]. eff.
  by destruct (f e.2 _) as [[val s2]|].
Qed.

Lemma p3_do_with_readonly_maps_to (t : table K V) (key : K) (val : V)
    (f : V → Eff St ()) (s : St) :
  maps_to hash key val t →
  ∃ index,
    bucket_index hash key t = Some index ∧
    p3_hashtable.do_with_readonly hash key f t s =
      '(_, s') ← f val (mtx_lock_shared index s);
      Some (true, mtx_unlock index s').
Proof.
  intros (index & elements & i & Hidx & Hel & Hf & Hi).
  exists index. split; [done|]. unfold p3_hashtable.do_with_readonly.
  rewrite Hidx. eff. rewrite Hel. eff. rewrite Hf. eff. rewrite Hi. eff.
  by destruct (f val _) as [[[] s']|].
Qed.

Lemma p3_do_with_readonly_absent (t : table K V) (key : K)
    (f : V → Eff St ()) (s : St) (index : nat) (elements : list (K * V)) :
  bucket_index hash key t = Some index →
  t !! index = Some elements →
  find_key key elements = None →
  p3_hashtable.do_with_readonly hash key f t s =
    Some (false, mtx_unlock index (mtx_lock_shared index s)).
Proof.
  intros Hidx Hel Hf. unfold p3_hashtable.do_with_readonly.
  rewrite Hidx. eff. rewrite Hel. eff. by rewrite Hf.
Qed.

Lemma p3_upsert_unfold (t : table K V) (key : K) (val : V)
    (on_ins on_upt : Eff St ()) (s : St) (index : nat)
    (elements : list (K * V)) :
  bucket_index hash key t = Some index →
  t !! index = Some elements →
  p3_hashtable.upsert hash key val on_ins on_upt t s =
    let s1 :=
      mtx_lock index (mtx_unlock index (mtx_lock_shared index s)) in
    match find_key key elements with
    | Some i =>
        '(_, s2) ← on_upt s1;
        Some ((false, set_second index i val t), mtx_unlock index s2)
    | None =>
        '(_, s2) ← on_ins s1;
        Some ((true, push_back index key val t), mtx_unlock index s2)
    end.
Proof.
  intros Hidx Hel. unfold p3_hashtable.upsert.
  rewrite Hidx. eff. rewrite Hel. eff.
  destruct (find_key key elements) as [i|]; eff.
  - by destruct (on_upt _) as [[[] s2]|].
  - by destruct (on_ins _) as [[[] s2]|].
Qed.

(** After [upsert] the key maps to the new value, on either branch. *)
Lemma p3_upsert_maps_to (t : table K V) (key : K) (val : V)
    (on_ins on_upt : Eff St ()) (s : St) (inserted : bool)
    (t' : table K V) (s' : St) :
  p3_hashtable.upsert hash key val on_ins on_upt t s
    = Some ((inserted, t'), s') →
  maps_to hash key val t' ∧ length t' = length t.
Proof.
  destruct (bucket_index hash key t) as [index|] eqn:Hidx.
  2:{ unfold p3_hashtable.upsert. by rewrite Hidx. }
  destruct (t !! index) as [elements|] eqn:Hel.
  2:{ unfold p3_hashtable.upsert. rewrite Hidx. eff. by rewrite Hel. }
  rewrite (p3_upsert_unfold t key val on_ins on_upt s index elements Hidx Hel).
  cbn. destruct (find_key key elements) as [i|] eqn:Hf.
  - destruct (on_upt _) as [[[] s2]|]; [|done]. cbn. intros [= <- <- <-].
    split; [by eapply set_second_maps_to|]. apply length_alter.
  - destruct (on_ins _) as [[[] s2]|]; [|done]. cbn. intros [= <- <- <-].
    split; [by eapply push_back_maps_to|]. apply length_alter.
Qed.
End p3_table_facts.

(** ** The storage facade of [p3] *)

Lemma compare_zero (a b : string) : compare a b = 0%Z ↔ a = b.
Proof.
  unfold compare. split.
  - intros Hc. apply String.compare_eq_iff.
    by destruct (String.compare a b).
  - intros ->. pose proof (String.compare_antisym b b) as Hanti.
    by destruct (String.compare b b).
Qed.

Lemma new_table_bucket {K V} (hash : K → nat) (key : K) (n : nat) :
  0 < n →
  ∃ index,
    bucket_index hash key (new_table (V:=V) n) = Some index ∧
    new_table (K:=K) (V:=V) n !! index = Some [].
Proof.
  intros Hn.
  destruct (bucket_index_defined hash key (new_table (V:=V) n))
    as (index & elements & Hidx & Hel).
  { unfold new_table. destruct n; [lia|done]. }
  exists index. split; [done|].
  unfold new_table in *. apply lookup_replicate in Hel as [-> _].
  apply lookup_replicate. split; [done|].
  apply bucket_index_lt in Hidx. by rewrite length_replicate in Hidx.
Qed.

Section p3_storage_facts.
Variable str_hash : string → nat.
Variable hashed : vec.

Import p3_storage.

Local Abbreviation auth := (p3_storage.auth str_hash hashed).
Local Abbreviation add_user := (p3_storage.add_user str_hash hashed).
Local Abbreviation kv_insert := (p3_storage.kv_insert str_hash hashed).
Local Abbreviation kv_upsert := (p3_storage.kv_upsert str_hash hashed).
Local Abbreviation kv_get := (p3_storage.kv_get str_hash hashed).

Lemma with_auth_table_same (st : Storage) :
  with_auth_table st (auth_table st) = st.
Proof. by destruct st. Qed.

(** [auth] looks the user up and answers [true] exactly when the stored
    hash differs from the hash of the call; the storage stays as it
    is. *)
Lemma auth_unfold (st : Storage) (user pass : string) (index : nat)
    (elements : list (string * AuthTableEntry)) :
  bucket_index str_hash user (auth_table st) = Some index →
  auth_table st !! index = Some elements →
  auth user pass st =
    match find_key user elements with
    | None => Some (false, st)
    | Some i =>
        e ← elements !! i;
        Some (bool_decide (pass_hash e.2 ≠ c_string hashed), st)
    end.
Proof.
  intros Hidx Hel. unfold p3_storage.auth.
  rewrite (p3_do_with_unfold str_hash (auth_table st) user _ false
             index elements Hidx Hel).
  cbn. destruct (find_key user elements) as [i|]; cbn.
  2:{ by rewrite with_auth_table_same. }
  destruct (elements !! i) as [e|] eqn:Hi; cbn; [|done].
  rewrite (set_second_same (auth_table st) index i elements e Hel Hi).
  rewrite with_auth_table_same. do 2 f_equal.
  rewrite (bool_decide_ext _ (pass_hash e.2 ≠ c_string hashed))
    by (by rewrite compare_zero).
  by destruct (bool_decide _).
Qed.


Lemma auth_maps_to (st : Storage) (user pass : string)
    (entry : AuthTableEntry) :
  maps_to str_hash user entry (auth_table st) →
  auth user pass st
  = Some (bool_decide (pass_hash entry ≠ c_string hashed), st).
Proof.
  intros (index & elements & i & Hidx & Hel & Hf & Hi).
  rewrite (auth_unfold st user pass index elements Hidx Hel).
  by rewrite Hf, Hi.
Qed.

(** [auth] reads the table of users only. *)
Lemma auth_with_kv_store (st : Storage) (user pass : string) (b : bool)
    (t : table string vec) :
  auth user pass st = Some (b, st) →
  auth user pass (with_kv_store st t) = Some (b, with_kv_store st t).
Proof.
  unfold p3_storage.auth. cbn.
  destruct (p3_hashtable.do_with _ _ _ _ _) as [[[found t'] a]|]; cbn;
    [|done].
  intros [= -> Hst]. do 2 f_equal.
  unfold with_auth_table, with_kv_store in *. cbn.
  destruct st; cbn in *. by injection Hst as ->.
Qed.

(** Registration of a name that is not in the table. *)
Lemma add_user_new (st : Storage) (user pass : string) (fs : files)
    (index : nat) (elements : list (string * AuthTableEntry)) :
  bucket_index str_hash user (auth_table st) = Some index →
  auth_table st !! index = Some elements →
  find_key user elements = None →
  f_ptr st ≠ Closed →
  ∃ st' fs',
    add_user user pass st fs = Some ((true, st'), fs') ∧
    maps_to str_hash user
      {| username := user; pass_hash := c_string hashed;
         content := [] |} (auth_table st').
Proof.
  intros Hidx Hel Hf Hopen. unfold p3_storage.add_user.
  eff. rewrite (p3_insert_unfold str_hash (auth_table st) user _ _ fs
                  index elements Hidx Hel).
  rewrite Hf.
  destruct (f_ptr st); [done| |]; eff;
    (eexists _, _; split; [done|]; cbn; by eapply push_back_maps_to).
Qed.
End p3_storage_facts.

(** C1, on [auth] of [p3]: the test of line 405 is inverted.  "alice"
    registers with the password "pw" on a fresh storage, in a call in
    which the digest pointer holds [hashed]; this succeeds.  A call of
    [auth] for "alice" in which the pointer holds other bytes, [hashed'],
    then answers [true], whatever the password supplied is, a wrong one
    included: [authenticated] is set when [compare] does not return 0,
    that is when the stored hash and the one of the call differ.  A call
    in which the pointer holds the bytes of the registration is the one
    that is refused. *)
Theorem p3_auth_accepts_wrong_password (str_hash : string → nat)
    (hashed hashed' : vec) (pass' : string) :
  c_string hashed' ≠ c_string hashed →
  ∃ st' fs',
    p3_storage.add_user str_hash hashed "alice" "pw" samples.fresh_p3 ∅
      = Some ((true, st'), fs') ∧
    p3_storage.auth str_hash hashed' "alice" pass' st' = Some (true, st') ∧
    p3_storage.auth str_hash hashed "alice" "pw" st' = Some (false, st').
Proof.
  intros Hdiffer.
  destruct (new_table_bucket (V:=AuthTableEntry) str_hash "alice" 4)
    as (index & Hidx & Hel); [lia|].
  destruct (add_user_new str_hash hashed samples.fresh_p3 "alice" "pw" ∅
              index [] Hidx Hel eq_refl)
    as (st' & fs' & Hadd & Hmaps); [discriminate|].
  exists st', fs'. split; [done|].
  rewrite !(auth_maps_to _ _ _ _ _ _ Hmaps). cbn [pass_hash].
  split.
  - by rewrite bool_decide_eq_true_2 by auto.
  - by rewrite bool_decide_eq_false_2 by auto.
Qed.

Lemma p3_auth_accepts_wrong_password_witness :
  let hashed := samples.plain_digest "pw" in
  let hashed' := samples.plain_digest "no" in
  c_string hashed' ≠ c_string hashed ∧
  ∃ st' fs',
    p3_storage.add_user samples.length_hash hashed "alice" "pw"
      samples.fresh_p3 ∅
    = Some ((true, st'), fs') ∧
    p3_storage.auth samples.length_hash hashed' "alice" "no" st'
    = Some (true, st') ∧
    p3_storage.auth samples.length_hash hashed "alice" "pw" st'
    = Some (false, st').
Proof.
  cbv zeta. split; [by vm_compute|].
  apply (p3_auth_accepts_wrong_password samples.length_hash
           (samples.plain_digest "pw") (samples.plain_digest "no") "no").
  by vm_compute.
Defined.

Section p3_kv_facts.
Variable str_hash : string → nat.
Variable hashed : vec.

Import p3_storage.

Local Abbreviation auth := (p3_storage.auth str_hash hashed).
Local Abbreviation kv_insert := (p3_storage.kv_insert str_hash hashed).
Local Abbreviation kv_upsert := (p3_storage.kv_upsert str_hash hashed).
Local Abbreviation kv_get := (p3_storage.kv_get str_hash hashed).

(** [kv_get] of an authenticated user on a key that maps to [val]. *)
Lemma kv_get_maps_to (st : Storage) (user pass key : string) (val : vec)
    (fs : files) :
  auth user pass st = Some (true, st) →
  maps_to str_hash key val (kv_store st) →
  kv_get user pass key st fs = Some (((false, val), st), fs).
Proof.
  intros Hauth Hmaps. unfold p3_storage.kv_get. rewrite Hauth. eff_bind.
  destruct (p3_do_with_readonly_maps_to (Locking0 := storage_locking)
              str_hash (kv_store st) key val
              (λ value, modify (λ data, vec_append data value)) []
              Hmaps) as (index & _ & ->).
  by eff.
Qed.

(** [kv_insert] of an authenticated user on a key its bucket does not
    hold. *)
Lemma kv_insert_new (st : Storage) (user pass key : string) (val : vec)
    (fs : files) (index : nat) (elements : list (string * vec)) :
  auth user pass st = Some (true, st) →
  f_ptr st ≠ Closed →
  bucket_index str_hash key (kv_store st) = Some index →
  kv_store st !! index = Some elements →
  find_key key elements = None →
  ∃ fs',
    kv_insert user pass key val st fs
    = Some ((vec_from_string RES_OK,
             with_kv_store st (push_back index key val (kv_store st))), fs').
Proof.
  intros Hauth Hopen Hidx Hel Hf. unfold p3_storage.kv_insert.
  rewrite Hauth. eff.
  rewrite (p3_insert_unfold str_hash (kv_store st) key val _ fs index
             elements Hidx Hel).
  rewrite Hf.
  destruct (f_ptr st); [done| |]; eff; by eexists.
Qed.

(** [kv_insert] on a key its bucket holds: the answer is [ERR_KEY] and
    nothing changes. *)
Lemma kv_insert_present (st : Storage) (user pass key : string)
    (val : vec) (fs : files) (index i : nat)
    (elements : list (string * vec)) :
  auth user pass st = Some (true, st) →
  bucket_index str_hash key (kv_store st) = Some index →
  kv_store st !! index = Some elements →
  find_key key elements = Some i →
  kv_insert user pass key val st fs
  = Some ((vec_from_string RES_ERR_KEY, st), fs).
Proof.
  intros Hauth Hidx Hel Hf. unfold p3_storage.kv_insert.
  rewrite Hauth. eff.
  rewrite (p3_insert_unfold str_hash (kv_store st) key val _ fs index
             elements Hidx Hel).
  rewrite Hf. eff. by destruct st.
Qed.

(** [kv_upsert] of an authenticated user: it answers, and the key maps
    to the new value afterwards. *)
Lemma kv_upsert_maps_to (st : Storage) (user pass key : string)
    (val : vec) (fs : files) :
  auth user pass st = Some (true, st) →
  f_ptr st ≠ Closed →
  kv_store st ≠ [] →
  ∃ res t' fs',
    kv_upsert user pass key val st fs
      = Some ((res, with_kv_store st t'), fs') ∧
    maps_to str_hash key val t' ∧
    length t' = length (kv_store st).
Proof.
  intros Hauth Hopen Hne. unfold p3_storage.kv_upsert.
  rewrite Hauth. eff_bind.
  destruct (bucket_index_defined str_hash key (kv_store st) Hne)
    as (index & elements & Hidx & Hel).
  destruct (p3_hashtable.upsert _ _ _ _ _ _ _)
    as [[[inserted t'] fs']|] eqn:Hup.
  - destruct (p3_upsert_maps_to _ _ _ _ _ _ _ _ _ _ Hup) as [Hmaps Hlen].
    destruct inserted; eff_bind; eexists _, t', fs'; done.
  - rewrite (p3_upsert_unfold str_hash (kv_store st) key val _ _ fs index
               elements Hidx Hel) in Hup.
    cbn in Hup.
    by destruct (find_key key elements); destruct (f_ptr st).
Qed.

(** The round trip while the log stream is open, in calls whose digest
    pointers hold the same bytes.  For a user whose authentication
    succeeds, on a storage with at least one bucket:
    [kv_insert(k, v)] on a key that the store does not map answers [OK]
    and a following [kv_get(k)] returns exactly [v]; and [kv_upsert(k,
    v1)], [kv_upsert(k, v2)], [kv_get(k)] returns exactly [v2]. *)
Lemma kv_round_trip (st : Storage) (user pass key : string)
    (v v1 v2 : vec) (fs : files) :
  auth user pass st = Some (true, st) →
  f_ptr st ≠ Closed →
  kv_store st ≠ [] →
  ((∀ w, ¬ maps_to str_hash key w (kv_store st)) →
     ∃ st1 fs1,
       kv_insert user pass key v st fs
         = Some ((vec_from_string RES_OK, st1), fs1) ∧
       kv_get user pass key st1 fs1 = Some (((false, v), st1), fs1)) ∧
  (∃ res1 st1 fs1 res2 st2 fs2,
     kv_upsert user pass key v1 st fs = Some ((res1, st1), fs1) ∧
     kv_upsert user pass key v2 st1 fs1 = Some ((res2, st2), fs2) ∧
     kv_get user pass key st2 fs2 = Some (((false, v2), st2), fs2)).
Proof.
  intros Hauth Hopen Hne. split.
  - intros Habsent.
    destruct (bucket_index_defined str_hash key (kv_store st) Hne)
      as (index & elements & Hidx & Hel).
    destruct (find_key key elements) as [i|] eqn:Hf.
    { destruct (find_key_Some key elements i Hf) as [w Hi].
      destruct (Habsent w). by exists index, elements, i. }
    destruct (kv_insert_new st user pass key v fs index elements
                Hauth Hopen Hidx Hel Hf) as [fs1 Hins].
    eexists _, fs1. split; [exact Hins|].
    apply kv_get_maps_to.
    + by apply auth_with_kv_store.
    + cbn. by eapply push_back_maps_to.
  - destruct (kv_upsert_maps_to st user pass key v1 fs Hauth Hopen Hne)
      as (res1 & t1 & fs1 & Hup1 & _ & Hlen1).
    pose proof (auth_with_kv_store str_hash hashed st user pass true t1 Hauth)
      as Hauth1.
    destruct (kv_upsert_maps_to (with_kv_store st t1) user pass key v2 fs1
                Hauth1 Hopen) as (res2 & t2 & fs2 & Hup2 & Hmaps2 & _).
    { cbn. intros ->. destruct (kv_store st); [done|]. cbn in Hlen1. lia. }
    exists res1, (with_kv_store st t1), fs1, res2,
      (with_kv_store (with_kv_store st t1) t2), fs2.
    split; [done|]. split; [done|].
    apply kv_get_maps_to; [|done].
    by apply auth_with_kv_store.
Qed.
End p3_kv_facts.

Lemma new_key_not_mapped (w : vec) :
  ¬ maps_to samples.length_hash "new" w
      (p3_storage.kv_store samples.p3_with_key).
Proof.
  intros (index & elements & i & Hidx & Hel & Hf & _).
  injection Hidx as <-. injection Hel as <-. discriminate Hf.
Qed.

(** The round trip on the sample storage: the key "new" is not mapped; it
    is inserted and read back, and upserted twice and read back. *)
Lemma kv_round_trip_witness :
  let st := samples.p3_with_key in
  let h := samples.length_hash in
  let d := samples.plain_digest "pw" in
  p3_storage.auth h d "alice" "pw" st = Some (true, st) ∧
  p3_storage.f_ptr st ≠ Closed ∧
  p3_storage.kv_store st ≠ [] ∧
  (∀ w, ¬ maps_to h "new" w (p3_storage.kv_store st)) ∧
  (∃ st1 fs1,
     p3_storage.kv_insert h d "alice" "pw" "new" [Byte.x07] st ∅
       = Some ((vec_from_string RES_OK, st1), fs1) ∧
     p3_storage.kv_get h d "alice" "pw" "new" st1 fs1
       = Some (((false, [Byte.x07]), st1), fs1)) ∧
  (∃ res1 st1 fs1 res2 st2 fs2,
     p3_storage.kv_upsert h d "alice" "pw" "new" [Byte.x08] st ∅
       = Some ((res1, st1), fs1) ∧
     p3_storage.kv_upsert h d "alice" "pw" "new" [Byte.x09] st1 fs1
       = Some ((res2, st2), fs2) ∧
     p3_storage.kv_get h d "alice" "pw" "new" st2 fs2
       = Some (((false, [Byte.x09]), st2), fs2)).
Proof.
  cbv zeta. split; [reflexivity|]. split; [discriminate|].
  split; [discriminate|]. split; [exact new_key_not_mapped|].
  destruct (kv_round_trip samples.length_hash (samples.plain_digest "pw")
              samples.p3_with_key "alice" "pw" "new" [Byte.x07] [Byte.x08]
              [Byte.x09] ∅ eq_refl) as [Hinsert Hupsert].
  - discriminate.
  - discriminate.
  - split; [exact (Hinsert new_key_not_mapped) | exact Hupsert].
Defined.

(** On a key that is already stored [kv_insert] answers [ERR_KEY], and
    the following [kv_get] returns the old value, not the one given to
    [kv_insert]. *)
Lemma kv_insert_keeps_old_value :
  let st := samples.p3_with_key in
  let h := samples.length_hash in
  let d := samples.plain_digest "pw" in
  p3_storage.auth h d "alice" "pw" st = Some (true, st) ∧
  p3_storage.kv_insert h d "alice" "pw" "k" [Byte.x02] st ∅
    = Some ((vec_from_string RES_ERR_KEY, st), ∅) ∧
  p3_storage.kv_get h d "alice" "pw" "k" st ∅
    = Some (((false, [Byte.x01]), st), ∅) ∧
  [Byte.x01] ≠ [Byte.x02].
Proof. cbv zeta. repeat split. discriminate. Qed.

(** ** The snapshot *)

Lemma append_suffix_neq (s : string) : s +:+ ".tmp" ≠ s.
Proof. induction s as [|c s IH]; cbn; [discriminate|]. by intros [= H]. Qed.

(** C3, on [persist] of [p1]: for every storage and file system, [persist]
    leaves the snapshot in the temporary file and never renames it: the
    file [filename] is what it was before, or still missing. *)
Theorem p1_persist_leaves_file (st : p1_storage.Storage) (fs : files) :
  ∃ data fs',
    p1_storage.persist st fs = Some ((), fs') ∧
    fs' !! (p1_storage.filename st +:+ ".tmp") = Some data ∧
    fs' !! p1_storage.filename st = fs !! p1_storage.filename st.
Proof.
  unfold p1_storage.persist, modify, write_file. eexists _, _.
  split; [reflexivity|]. split.
  - apply lookup_insert_eq.
  - apply lookup_insert_ne. apply append_suffix_neq.
Qed.

(** On the sample storage and an empty disk: the snapshot of "alice" is in
    "db.tmp", the only file there is. *)
Example p1_persist_sample :
  p1_storage.persist samples.p1_with_alice ∅
  = Some ((), {[ "db.tmp" :=
                   p1_storage.persist_record ("alice", samples.alice) ]}).
Proof. vm_compute. reflexivity. Qed.

(** [persist] of [p3] does install the file, with the records of the
    key/value store before those of the users: the scan of the users runs
    its [then], the scan of the store, first. *)
Example p3_persist_sample :
  p3_storage.persist samples.p3_with_key ∅
  = Some ({| p3_storage.auth_table := [[("alice", samples.alice)]];
             p3_storage.kv_store := [[("k", [Byte.x01])]];
             p3_storage.filename := "db";
             p3_storage.f_ptr := Closed |},
          {[ "db" := p3_storage.kv_record KVENTRY "k" [Byte.x01]
                     ++ p3_storage.auth_record samples.alice ]}).
Proof. vm_compute. reflexivity. Qed.

(** ** The request handlers of [p1] *)

Section p1_command_facts.
Variable md5_hex : string → string.

Import p1_storage p1_commands.

Lemma get_user_data_unknown (user pass who : string) (st : Storage) :
  auth_table st !! user = None →
  get_user_data md5_hex user pass who st
  = Some (false, vec_from_string RES_ERR_LOGIN).
Proof.
  intros Hno. unfold get_user_data, exists_. rewrite Hno.
  by rewrite bool_decide_eq_false_2 by (by intros [? ?]).
Qed.

(** The parse of the sample GET request: the user name is empty, the
    password is "pw", and [who] is "bob" and the byte behind the
    request.  The format error is set, and the storage is queried all the
    same. *)
Lemma server_cmd_get_empty_user_parse (b : Byte.byte)
    (req_slack res_slack : vec) (st : Storage) :
  server_cmd_get md5_hex samples.get_empty_user (b :: req_slack) res_slack
    st =
    rv ← get_user_data md5_hex "" "pw"
            (String.string_of_list_byte
               (vec_from_string "bob" ++ [b])) st;
    printed ← read_c_string (rv.2 ++ res_slack);
    if negb rv.1 then Some (String.string_of_list_byte printed)
    else Some RES_ERR_MSG_FMT.
Proof. reflexivity. Qed.

Lemma read_c_string_err_login (res_slack : vec) :
  read_c_string (vec_from_string RES_ERR_LOGIN ++ res_slack)
  = (vec_from_string RES_ERR_LOGIN ++.) <$> read_c_string res_slack.
Proof. cbn. by destruct (read_c_string res_slack). Qed.

(** In [p1] the registered password authenticates, and another password
    does exactly when its digest is the same. *)
Lemma p1_auth_after_add_user (user pass pass' : string) (st : Storage) :
  auth_table st !! user = None →
  (add_user md5_hex user pass st).1 = true ∧
  auth md5_hex user pass (add_user md5_hex user pass st).2 = Some true ∧
  auth md5_hex user pass' (add_user md5_hex user pass st).2
  = Some (bool_decide (md5_hex pass' = md5_hex pass)).
Proof.
  intros Hno. unfold add_user, exists_. rewrite Hno.
  rewrite bool_decide_eq_false_2 by (by intros [? ?]). cbn.
  unfold auth. cbn. rewrite lookup_insert_eq. cbn.
  split; [done|]. split; f_equal.
  - apply bool_decide_eq_true. by apply compare_zero.
  - apply bool_decide_ext. apply compare_zero.
Qed.

(** [server_cmd_reg] on the request with an empty user name: the reply
    is the format error and the storage is untouched. *)
Lemma server_cmd_reg_empty_user (req_slack : vec) (st : Storage) :
  server_cmd_reg md5_hex samples.reg_empty_user req_slack st
  = Some (RES_ERR_MSG_FMT, st).
Proof. reflexivity. Qed.
End p1_command_facts.

(** C9, on [server_cmd_get]: the request has an empty user name, so the
    handler sets the format error; it goes on to query the storage, and the
    answer to the unknown user overwrites the reply.  With a NUL behind the
    buffers the client gets [ERR_LOGIN]; whatever lies behind them, the
    reply is never [ERR_MSG_FMT]. *)
Theorem server_cmd_get_overwrites_format_error (md5_hex : string → string)
    (req_slack res_slack : vec) :
  p1_commands.server_cmd_get md5_hex samples.get_empty_user
    [Byte.x00] [Byte.x00] (p1_storage.new "db") = Some RES_ERR_LOGIN ∧
  p1_commands.server_cmd_get md5_hex samples.get_empty_user
    req_slack res_slack (p1_storage.new "db") ≠ Some RES_ERR_MSG_FMT.
Proof.
  split; [reflexivity|].
  destruct req_slack as [|b req_slack]; [discriminate|].
  rewrite server_cmd_get_empty_user_parse.
  rewrite get_user_data_unknown by apply lookup_empty.
  cbn [mbind option_bind fst snd negb].
  rewrite read_c_string_err_login.
  destruct (p1_commands.read_c_string res_slack) as [printed|]; cbn;
    discriminate.
Qed.

(** * Further properties *)

(** ** Lookups and the operations that change a table *)

Section find_value_facts.
Context {K V : Type} `{EqDecision K}.
Variable hash : K → nat.
Implicit Types (t : table K V) (elements : list (K * V)).

Lemma find_key_lt (key : K) elements (i : nat) :
  find_key key elements = Some i → i < length elements.
Proof.
  intros Hf. apply find_key_Some in Hf as [val Hi].
  by apply lookup_lt_Some in Hi.
Qed.

Lemma find_key_first (key : K) elements (i j : nat) (e : K * V) :
  find_key key elements = Some i →
  elements !! j = Some e → e.1 = key → i ≤ j.
Proof.
  revert i j. induction elements as [|[k v] rest IH]; intros i j; simpl;
    [done|].
  destruct (decide (k = key)) as [->|Hne].
  - intros [= <-] _ _. lia.
  - destruct (find_key key rest) as [i'|] eqn:Hf; [|done]. simpl.
    intros [= <-]. destruct j as [|j]; simpl.
    + intros [= <-]. simpl. done.
    + intros Hj He. pose proof (IH i' j eq_refl Hj He). lia.
Qed.

Lemma find_value_unfold (key : K) t (index : nat) elements :
  bucket_index hash key t = Some index →
  t !! index = Some elements →
  find_value hash key t =
    match find_key key elements with
    | Some i => snd <$> elements !! i
    | None => None
    end.
Proof.
  intros Hidx Hel. unfold find_value. rewrite Hidx. cbn. rewrite Hel. cbn.
  destruct (find_key key elements) as [i|]; [|done]. cbn.
  by destruct (elements !! i).
Qed.

Lemma find_value_maps_to (key : K) (val : V) t :
  maps_to hash key val t ↔ find_value hash key t = Some val.
Proof.
  split.
  - intros (index & elements & i & Hidx & Hel & Hf & Hi).
    rewrite (find_value_unfold key t index elements Hidx Hel).
    by rewrite Hf, Hi.
  - unfold find_value.
    destruct (bucket_index hash key t) as [index|] eqn:Hidx; [|done]. cbn.
    destruct (t !! index) as [elements|] eqn:Hel; [|done]. cbn.
    destruct (find_key key elements) as [i|] eqn:Hf; [|done]. cbn.
    destruct (find_key_Some key elements i Hf) as [v Hi].
    rewrite Hi. cbn. intros [= <-]. by exists index, elements, i.
Qed.


Lemma scan_set_other (key key' : K) (val : V) elements (i : nat) :
  key' ≠ key →
  find_key key elements = Some i →
  (j ← find_key key' (alter (λ e, (e.1, val)) i elements);
   snd <$> alter (λ e : K * V, (e.1, val)) i elements !! j)
  = (j ← find_key key' elements; snd <$> elements !! j).
Proof.
  intros Hne Hf. rewrite find_key_set_second.
  destruct (find_key key' elements) as [j|] eqn:Hf'; [|done]. cbn.
  destruct (decide (i = j)) as [->|Hij].
  - apply find_key_Some in Hf as [v Hi]. apply find_key_Some in Hf' as [v' Hj].
    rewrite Hi in Hj. by injection Hj as -> _.
  - by rewrite list_lookup_alter_ne.
Qed.

Lemma scan_delete_other (key key' : K) elements (i : nat) :
  key' ≠ key →
  find_key key elements = Some i →
  (j ← find_key key' (delete i elements); snd <$> delete i elements !! j)
  = (j ← find_key key' elements; snd <$> elements !! j).
Proof.
  intros Hne. revert i. induction elements as [|[k v] rest IH]; intros i;
    simpl; [done|].
  destruct (decide (k = key)) as [->|Hk].
  - intros [= <-]. simpl. rewrite decide_False by congruence.
    by destruct (find_key key' rest).
  - destruct (find_key key rest) as [i'|] eqn:Hf; [|done]. simpl.
    intros [= <-]. simpl. destruct (decide (k = key')); [done|].
    specialize (IH i' eq_refl).
    destruct (find_key key' (delete i' rest)) as [j|];
      destruct (find_key key' rest) as [j'|]; simpl in *; done.
Qed.

Lemma find_key_delete_gone (key : K) elements (i : nat) :
  NoDup elements.*1 →
  find_key key elements = Some i →
  find_key key (delete i elements) = None.
Proof.
  revert i. induction elements as [|[k v] rest IH]; intros i Hnd; simpl;
    [done|].
  apply NoDup_cons in Hnd as [Hk Hnd]. simpl in Hk.
  destruct (decide (k = key)) as [->|Hne].
  - intros [= <-]. simpl.
    apply find_key_None. intros val Hin. apply Hk.
    apply list_elem_of_fmap. by exists (key, val).
  - destruct (find_key key rest) as [i'|] eqn:Hf; [|done]. simpl.
    intros [= <-]. simpl. rewrite decide_False by done.
    by rewrite (IH i' Hnd eq_refl).
Qed.

(** A change inside the bucket [index] that keeps the scan for [key'] as it
    was keeps the lookup of [key'] as it was. *)
Lemma find_value_alter (key' : K) t (index : nat) elements
    (g : list (K * V) → list (K * V)) :
  t !! index = Some elements →
  (bucket_index hash key' t = Some index →
   (j ← find_key key' (g elements); snd <$> g elements !! j)
   = (j ← find_key key' elements; snd <$> elements !! j)) →
  find_value hash key' (alter g index t) = find_value hash key' t.
Proof.
  intros Hel Hsame. unfold find_value.
  rewrite (bucket_index_length hash key' t (alter g index t))
    by apply length_alter.
  destruct (bucket_index hash key' t) as [index'|] eqn:Hidx; [|done]. cbn.
  destruct (decide (index' = index)) as [->|Hne].
  - rewrite list_lookup_alter_eq, Hel. cbn.
    specialize (Hsame eq_refl).
    destruct (find_key key' (g elements)) as [j|];
      destruct (find_key key' elements) as [j'|]; cbn in *.
    + destruct (g elements !! j), (elements !! j'); cbn in *; congruence.
    + destruct (g elements !! j); cbn in *; congruence.
    + destruct (elements !! j'); cbn in *; congruence.
    + done.
  - by rewrite list_lookup_alter_ne.
Qed.
End find_value_facts.

Section table_invariant_facts.
Context {K V : Type} `{EqDecision K}.
Variable hash : K → nat.
Implicit Types (t : table K V) (elements : list (K * V)).

Lemma find_value_None (key : K) t (index : nat) elements :
  bucket_index hash key t = Some index →
  t !! index = Some elements →
  find_value hash key t = None ↔ find_key key elements = None.
Proof.
  intros Hidx Hel.
  rewrite (find_value_unfold hash key t index elements Hidx Hel).
  destruct (find_key key elements) as [i|] eqn:Hf; [|done].
  destruct (find_key_Some key elements i Hf) as [v ->]. done.
Qed.

Lemma find_key_None_keys (key : K) elements :
  find_key key elements = None ↔ key ∉ elements.*1.
Proof.
  rewrite find_key_None. split.
  - intros Hno Hin. apply list_elem_of_fmap in Hin as ([k v] & -> & Hin).
    by apply (Hno v).
  - intros Hno val Hin. apply Hno. apply list_elem_of_fmap.
    by exists (key, val).
Qed.

Lemma set_second_keys (val : V) (i : nat) elements :
  (alter (λ e : K * V, (e.1, val)) i elements).*1 = elements.*1.
Proof.
  revert i. induction elements as [|[k v] rest IH]; intros [|i]; cbn;
    try done.
  f_equal. apply IH.
Qed.

Lemma delete_keys (i : nat) elements :
  (delete i elements).*1 = delete i elements.*1.
Proof.
  revert i. induction elements as [|[k v] rest IH]; intros [|i]; cbn;
    try done.
  f_equal. apply IH.
Qed.

Lemma NoDup_delete {A} (i : nat) (l : list A) : NoDup l → NoDup (delete i l).
Proof.
  intros Hnd. eapply sublist_NoDup; [done|]. apply sublist_delete.
Qed.

Lemma well_placed_alter t (index : nat) (g : list (K * V) → list (K * V)) :
  well_placed hash t →
  (∀ elements k v,
     t !! index = Some elements → (k, v) ∈ g elements →
     (∃ v', (k, v') ∈ elements) ∨ bucket_index hash k t = Some index) →
  well_placed hash (alter g index t).
Proof.
  intros Hwp Hg index' elements' k v Hel' Hin.
  rewrite (bucket_index_length hash k t) by apply length_alter.
  destruct (decide (index' = index)) as [->|Hne].
  - rewrite list_lookup_alter_eq in Hel'.
    destruct (t !! index) as [elements|] eqn:Hel; [|done].
    injection Hel' as <-.
    destruct (Hg elements k v eq_refl Hin) as [[v' Hin']|Hidx]; [|done].
    by apply (Hwp index elements k v').
  - rewrite list_lookup_alter_ne in Hel' by done.
    by apply (Hwp index' elements' k v).
Qed.

Lemma distinct_keys_alter t (index : nat)
    (g : list (K * V) → list (K * V)) :
  distinct_keys t →
  (∀ elements,
     t !! index = Some elements → NoDup elements.*1 →
     NoDup (g elements).*1) →
  distinct_keys (alter g index t).
Proof.
  intros Hdk Hg index' elements' Hel'.
  destruct (decide (index' = index)) as [->|Hne].
  - rewrite list_lookup_alter_eq in Hel'.
    destruct (t !! index) as [elements|] eqn:Hel; [|done].
    injection Hel' as <-. apply Hg; [done|]. by apply (Hdk index).
  - rewrite list_lookup_alter_ne in Hel' by done. by apply (Hdk index').
Qed.

Lemma alter_nonempty {A} (g : A → A) (i : nat) (l : list A) :
  l ≠ [] → alter g i l ≠ [].
Proof. destruct l; [done|]. by destruct i. Qed.


Lemma consistent_set_second (val : V) t (index i : nat) :
  consistent hash t → consistent hash (set_second index i val t).
Proof.
  intros (Hne & Hwp & Hdk). unfold set_second.
  split; [by apply alter_nonempty|]. split.
  - apply well_placed_alter; [done|]. intros elements' k v Hel' Hin. left.
    assert (k ∈ (alter (λ e : K * V, (e.1, val)) i elements').*1) as Hk.
    { apply list_elem_of_fmap. by exists (k, v). }
    rewrite set_second_keys in Hk.
    apply list_elem_of_fmap in Hk as ([k' v'] & -> & Hin'). eauto.
  - apply distinct_keys_alter; [done|]. intros elements' _ Hnd.
    by rewrite set_second_keys.
Qed.

Lemma consistent_delete t (index i : nat) :
  consistent hash t → consistent hash (alter (delete i) index t).
Proof.
  intros (Hne & Hwp & Hdk).
  split; [by apply alter_nonempty|]. split.
  - apply well_placed_alter; [done|]. intros elements' k v Hel' Hin. left.
    exists v. eapply elem_of_sublist; [done|]. apply sublist_delete.
  - apply distinct_keys_alter; [done|]. intros elements' _ Hnd.
    rewrite delete_keys. by apply NoDup_delete.
Qed.

Lemma consistent_clear t :
  t ≠ [] → consistent hash (p5_hashtable.clear_all t).
Proof.
  intros Hne. unfold p5_hashtable.clear_all. split; [by destruct t|]. split.
  - intros index elements k v Hel Hin.
    apply list_lookup_fmap_Some in Hel as (? & -> & _).
    by apply elem_of_nil in Hin.
  - intros index elements Hel.
    apply list_lookup_fmap_Some in Hel as (? & -> & _). constructor.
Qed.

Lemma find_value_clear (key : K) t :
  find_value hash key (p5_hashtable.clear_all t) = None.
Proof.
  unfold find_value, p5_hashtable.clear_all.
  destruct (bucket_index hash key _) as [index|]; [|done]. cbn.
  destruct (_ !! index) as [elements|] eqn:Hel; [|done]. cbn.
  apply list_lookup_fmap_Some in Hel as (? & -> & _). done.
Qed.
End table_invariant_facts.

Section table_op_facts.
Context {K V : Type} `{EqDecision K}.
Variable hash : K → nat.
Context {St : Type} `{!Locking St}.
Implicit Types (t : table K V) (elements : list (K * V)) (s : St).


Lemma find_value_set_second (key : K) (val : V) t (index i : nat) elements :
  bucket_index hash key t = Some index →
  t !! index = Some elements →
  find_key key elements = Some i →
  find_value hash key (set_second index i val t) = Some val ∧
  (∀ key', key' ≠ key →
     find_value hash key' (set_second index i val t)
     = find_value hash key' t) ∧
  length (set_second index i val t) = length t.
Proof.
  intros Hidx Hel Hf. split; [|split].
  - apply find_value_maps_to. by eapply set_second_maps_to.
  - intros key' Hne. apply (find_value_alter hash key' t index elements);
      [done|]. intros _. by apply scan_set_other with key.
  - apply length_alter.
Qed.

Lemma find_value_delete (key : K) t (index i : nat) elements :
  distinct_keys t →
  bucket_index hash key t = Some index →
  t !! index = Some elements →
  find_key key elements = Some i →
  find_value hash key (alter (delete i) index t) = None ∧
  (∀ key', key' ≠ key →
     find_value hash key' (alter (delete i) index t)
     = find_value hash key' t) ∧
  length (alter (delete i) index t) = length t.
Proof.
  intros Hdk Hidx Hel Hf. split; [|split].
  - apply (find_value_None hash key _ index (delete i elements)).
    + rewrite <- Hidx. apply bucket_index_length, length_alter.
    + by rewrite list_lookup_alter_eq, Hel.
    + apply find_key_delete_gone; [by apply (Hdk index)|done].
  - intros key' Hne. apply (find_value_alter hash key' t index elements);
      [done|]. intros _. by apply scan_delete_other with key.
  - apply length_alter.
Qed.


(** X3.  [remove] of [p5] on a table with at least one bucket and no key
    twice in a bucket: when a lookup finds the key its pair is erased,
    [on_success] runs and the answer is [true]; otherwise the answer is
    [false] and nothing changes.  Afterwards a lookup of the key finds
    nothing, the lookup of every other key finds what it found before, and
    a consistent table stays consistent. *)
Theorem p5_remove_then_lookup t (key : K) (on_success : Eff St ()) s :
  t ≠ [] →
  distinct_keys t →
  ∃ index t',
    bucket_index hash key t = Some index ∧
    p5_hashtable.remove hash key on_success t s
    = match find_value hash key t with
      | Some _ =>
          '(_, s2) ← on_success (mtx_lock index s);
          Some ((true, t'), mtx_unlock index s2)
      | None => Some ((false, t), mtx_unlock index (mtx_lock index s))
      end ∧
    (find_value hash key t = None → t' = t) ∧
    find_value hash key t' = None ∧
    (∀ key', key' ≠ key →
       find_value hash key' t' = find_value hash key' t) ∧
    length t' = length t ∧
    (consistent hash t → consistent hash t').
Proof.
  intros Hne Hdk.
  destruct (bucket_index_defined hash key t Hne)
    as (index & elements & Hidx & Hel).
  unfold p5_hashtable.remove. rewrite Hidx. eff_bind. rewrite Hel. eff_bind.
  rewrite (find_value_unfold hash key t index elements Hidx Hel).
  destruct (find_key key elements) as [i|] eqn:Hf.
  - destruct (find_key_Some key elements i Hf) as [v Hi]. rewrite Hi. cbn.
    destruct (find_value_delete key t index i elements Hdk Hidx Hel Hf)
      as (Hval & Hframe & Hlen).
    exists index, (alter (delete i) index t).
    split; [done|]. split.
    { unfold lock, unlock, modify. cbn.
      by destruct (on_success _) as [[[] s2]|]. }
    split; [done|]. split; [done|]. split; [done|]. split; [done|].
    apply consistent_delete.
  - cbn. exists index, t. split; [done|]. split; [done|].
    split; [done|]. split; [|done].
    rewrite (find_value_unfold hash key t index elements Hidx Hel).
    by rewrite Hf.
Qed.

(** X4.  [remove] of [p3], same table: a hit behaves like [p5], with the
    shared lock traded for the exclusive one; on a miss the function
    returns [false] with the shared lock of the bucket still held: the
    ambient state has seen [lock_shared] and no [unlock]. *)
Theorem p3_remove_then_lookup t (key : K) (on_success : Eff St ()) s :
  t ≠ [] →
  distinct_keys t →
  ∃ index t',
    bucket_index hash key t = Some index ∧
    p3_hashtable.remove hash key on_success t s
    = match find_value hash key t with
      | Some _ =>
          '(_, s2) ← on_success
             (mtx_lock index (mtx_unlock index (mtx_lock_shared index s)));
          Some ((true, t'), mtx_unlock index s2)
      | None => Some ((false, t), mtx_lock_shared index s)
      end ∧
    (find_value hash key t = None → t' = t) ∧
    find_value hash key t' = None ∧
    (∀ key', key' ≠ key →
       find_value hash key' t' = find_value hash key' t) ∧
    length t' = length t ∧
    (consistent hash t → consistent hash t').
Proof.
  intros Hne Hdk.
  destruct (bucket_index_defined hash key t Hne)
    as (index & elements & Hidx & Hel).
  unfold p3_hashtable.remove. rewrite Hidx. eff_bind. rewrite Hel. eff_bind.
  rewrite (find_value_unfold hash key t index elements Hidx Hel).
  destruct (find_key key elements) as [i|] eqn:Hf.
  - destruct (find_key_Some key elements i Hf) as [v Hi]. rewrite Hi. cbn.
    destruct (find_value_delete key t index i elements Hdk Hidx Hel Hf)
      as (Hval & Hframe & Hlen).
    exists index, (alter (delete i) index t).
    split; [done|]. split.
    { unfold lock, lock_shared, unlock, modify. cbn.
      by destruct (on_success _) as [[[] s2]|]. }
    split; [done|]. split; [done|]. split; [done|]. split; [done|].
    apply consistent_delete.
  - cbn. exists index, t. split; [done|]. split; [done|].
    split; [done|]. split; [|done].
    rewrite (find_value_unfold hash key t index elements Hidx Hel).
    by rewrite Hf.
Qed.

(** X5.  [do_with_readonly] of both versions on a table with at least one
    bucket: [f] runs once, under the lock of the bucket, on the value a
    lookup finds, and the answer is [true]; when the lookup finds nothing
    [f] does not run and the answer is [false]. *)
Theorem do_with_readonly_lookup t (key : K) (f : V → Eff St ()) s :
  t ≠ [] →
  ∃ index,
    bucket_index hash key t = Some index ∧
    p5_hashtable.do_with_readonly hash key f t s
    = match find_value hash key t with
      | Some v =>
          '(_, s2) ← f v (mtx_lock index s);
          Some (true, mtx_unlock index s2)
      | None => Some (false, mtx_unlock index (mtx_lock index s))
      end ∧
    p3_hashtable.do_with_readonly hash key f t s
    = match find_value hash key t with
      | Some v =>
          '(_, s2) ← f v (mtx_lock_shared index s);
          Some (true, mtx_unlock index s2)
      | None => Some (false, mtx_unlock index (mtx_lock_shared index s))
      end.
Proof.
  intros Hne.
  destruct (bucket_index_defined hash key t Hne)
    as (index & elements & Hidx & Hel).
  exists index. split; [done|].
  unfold p5_hashtable.do_with_readonly, p3_hashtable.do_with_readonly.
  rewrite Hidx. eff_bind. rewrite Hel. eff_bind.
  rewrite (find_value_unfold hash key t index elements Hidx Hel).
  destruct (find_key key elements) as [i|] eqn:Hf; [|done].
  destruct (find_key_Some key elements i Hf) as [v Hi]. rewrite Hi. cbn.
  unfold lock, lock_shared, unlock, modify. cbn.
  split; by destruct (f v _) as [[[] s2]|].
Qed.

(** X6.  [do_with] of both versions, when a lookup finds the key and [f]
    returns: the answer is [true], [f] has run once on the value found,
    and afterwards a lookup of the key finds the value [f] left; the lookup
    of every other key finds what it found before and a consistent table
    stays consistent. *)
Theorem do_with_then_lookup t (key : K) (f : V → Eff St V) s (v : V) :
  t ≠ [] →
  find_value hash key t = Some v →
  ∃ index,
    bucket_index hash key t = Some index ∧
    ∀ v5 s5 v3 s3,
      f v (mtx_lock index s) = Some (v5, s5) →
      f v (mtx_lock index (mtx_unlock index (mtx_lock_shared index s)))
        = Some (v3, s3) →
      ∃ t5 t3,
        p5_hashtable.do_with hash key f t s
          = Some ((true, t5), mtx_unlock index s5) ∧
        p3_hashtable.do_with hash key f t s
          = Some ((true, t3), mtx_unlock index s3) ∧
        find_value hash key t5 = Some v5 ∧
        find_value hash key t3 = Some v3 ∧
        (∀ key', key' ≠ key →
           find_value hash key' t5 = find_value hash key' t ∧
           find_value hash key' t3 = find_value hash key' t) ∧
        (consistent hash t → consistent hash t5 ∧ consistent hash t3).
Proof.
  intros Hne Hfound.
  destruct (bucket_index_defined hash key t Hne)
    as (index & elements & Hidx & Hel).
  exists index. split; [done|]. intros v5 s5 v3 s3 Hf5 Hf3.
  rewrite (find_value_unfold hash key t index elements Hidx Hel) in Hfound.
  destruct (find_key key elements) as [i|] eqn:Hf; [|done].
  destruct (find_key_Some key elements i Hf) as [v0 Hi].
  rewrite Hi in Hfound. injection Hfound as ->.
  exists (set_second index i v5 t), (set_second index i v3 t).
  destruct (find_value_set_second key v5 t index i elements Hidx Hel Hf)
    as (Hval5 & Hframe5 & _).
  destruct (find_value_set_second key v3 t index i elements Hidx Hel Hf)
    as (Hval3 & Hframe3 & _).
  split.
  { unfold p5_hashtable.do_with. rewrite Hidx. eff_bind. rewrite Hel.
    eff_bind. rewrite Hf. eff_bind. rewrite Hi. eff_bind.
    unfold lock, unlock, modify. cbn. by rewrite Hf5. }
  split.
  { rewrite (p3_do_with_unfold hash t key f s index elements Hidx Hel).
    cbn. rewrite Hf, Hi. cbn. by rewrite Hf3. }
  split; [done|]. split; [done|]. split.
  - intros key' Hk. split; [by apply Hframe5 | by apply Hframe3].
  - intros Hc. split; by apply consistent_set_second.
Qed.
End table_op_facts.

Section clear_facts.
Context {K V : Type} `{EqDecision K}.
Variable hash : K → nat.
Implicit Types (t : table K V) (tr : list (event K V)).

Lemma p3_lock_all_trace (i n : nat) tr :
  p3_hashtable.lock_all i n tr = Some ((), tr ++ (EvLock <$> seq i n)).
Proof.
  revert i tr. induction n as [|n IH]; intros i tr; simpl.
  - by rewrite app_nil_r.
  - eff. rewrite IH. by rewrite <- app_assoc.
Qed.

Lemma p3_clear_buckets_trace (i : nat) t tr :
  p3_hashtable.clear_buckets i t tr
  = Some (p5_hashtable.clear_all t, tr ++ (EvUnlock <$> seq i (length t))).
Proof.
  revert i tr. induction t as [|b t IH]; intros i tr; simpl.
  - by rewrite app_nil_r.
  - eff. rewrite IH. cbn. by rewrite <- app_assoc.
Qed.

(** X7.  [clear] of both versions, on any table: every bucket lock is
    taken, then every bucket is emptied and unlocked; the table keeps its
    buckets, and afterwards no lookup finds anything. *)
Theorem clear_then_lookup t tr :
  p5_hashtable.clear t tr
  = Some (p5_hashtable.clear_all t,
          tr ++ (EvLock <$> seq 0 (length t))
             ++ (EvUnlock <$> seq 0 (length t))) ∧
  p3_hashtable.clear t tr = p5_hashtable.clear t tr ∧
  length (p5_hashtable.clear_all t) = length t ∧
  ∀ key, find_value hash key (p5_hashtable.clear_all t) = None.
Proof.
  assert (p5_hashtable.clear t tr
          = Some (p5_hashtable.clear_all t,
                  tr ++ (EvLock <$> seq 0 (length t))
                     ++ (EvUnlock <$> seq 0 (length t)))) as H5.
  { unfold p5_hashtable.clear. eff_bind. rewrite p5_lock_all_trace.
    rewrite p5_unlock_all_trace. by rewrite <- app_assoc. }
  split; [done|]. split.
  - rewrite H5. unfold p3_hashtable.clear. eff_bind.
    rewrite p3_lock_all_trace. rewrite p3_clear_buckets_trace.
    by rewrite <- app_assoc.
  - split; [apply length_fmap|]. intros key. apply find_value_clear.
Qed.
End clear_facts.

(** The table operations on the sample table. *)

Lemma two_buckets_distinct : distinct_keys samples.two_buckets.
Proof.
  intros index elements Hel.
  destruct index as [|[|index]]; simpl in Hel; [| |done];
    injection Hel as <-; apply NoDup_singleton.
Qed.



Lemma p5_remove_then_lookup_witness :
  samples.two_buckets ≠ [] ∧
  distinct_keys samples.two_buckets ∧
  ∃ t',
    p5_hashtable.remove samples.nat_hash 3 samples.traced_on_success
      samples.two_buckets samples.no_steps
    = Some ((true, t'), [EvLock 1; EvOnSuccess; EvUnlock 1]) ∧
    find_value samples.nat_hash 3 t' = None.
Proof.
  split; [discriminate|]. split; [exact two_buckets_distinct|].
  destruct (p5_remove_then_lookup samples.nat_hash samples.two_buckets 3
              samples.traced_on_success samples.no_steps)
    as (index & t' & Hidx & H5 & _ & Hval & _);
    [discriminate | exact two_buckets_distinct |].
  vm_compute in Hidx. injection Hidx as <-.
  exists t'. split; [exact H5 | exact Hval].
Defined.

Lemma p3_remove_then_lookup_witness :
  samples.two_buckets ≠ [] ∧
  distinct_keys samples.two_buckets ∧
  p3_hashtable.remove samples.nat_hash 5 samples.traced_on_success
    samples.two_buckets samples.no_steps
  = Some ((false, samples.two_buckets), [EvLockShared 1]).
Proof.
  split; [discriminate|]. split; [exact two_buckets_distinct|].
  destruct (p3_remove_then_lookup samples.nat_hash samples.two_buckets 5
              samples.traced_on_success samples.no_steps)
    as (index & t' & Hidx & H3 & _);
    [discriminate | exact two_buckets_distinct |].
  vm_compute in Hidx. injection Hidx as <-. exact H3.
Defined.

Lemma do_with_readonly_lookup_witness :
  samples.two_buckets ≠ [] ∧
  p5_hashtable.do_with_readonly samples.nat_hash 2 (samples.traced_f 2)
    samples.two_buckets samples.no_steps
  = Some (true, [EvLock 0; EvF 2 20; EvUnlock 0]) ∧
  p3_hashtable.do_with_readonly samples.nat_hash 2 (samples.traced_f 2)
    samples.two_buckets samples.no_steps
  = Some (true, [EvLockShared 0; EvF 2 20; EvUnlock 0]).
Proof.
  split; [discriminate|].
  destruct (do_with_readonly_lookup samples.nat_hash samples.two_buckets 2
              (samples.traced_f 2) samples.no_steps)
    as (index & Hidx & H5 & H3); [discriminate|].
  vm_compute in Hidx. injection Hidx as <-.
  split; [exact H5 | exact H3].
Defined.

Lemma do_with_then_lookup_witness :
  samples.two_buckets ≠ [] ∧
  find_value samples.nat_hash 2 samples.two_buckets = Some 20 ∧
  ∃ t5,
    p5_hashtable.do_with samples.nat_hash 2 (λ v, mret (S v))
      samples.two_buckets samples.no_steps
    = Some ((true, t5), [EvLock 0; EvUnlock 0]) ∧
    find_value samples.nat_hash 2 t5 = Some 21.
Proof.
  split; [discriminate|]. split; [reflexivity|].
  destruct (do_with_then_lookup samples.nat_hash samples.two_buckets 2
              (λ v, mret (S v)) samples.no_steps 20)
    as (index & Hidx & Hrun); [discriminate | reflexivity |].
  vm_compute in Hidx. injection Hidx as <-.
  destruct (Hrun 21 [EvLock 0] 21 [EvLockShared 0; EvUnlock 0; EvLock 0]
              eq_refl eq_refl) as (t5 & t3 & H5 & _ & Hval & _).
  exists t5. split; [exact H5 | exact Hval].
Defined.

(** ** More on the quota tracker *)

Section more_quota_facts.
Import quota_tracker.

Lemma evict_idempotent (cur_time : Z) (d : Q) (evs : list event) :
  evict cur_time d (evict cur_time d evs) = evict cur_time d evs.
Proof.
  induction evs as [|e evs IH]; [done|]. cbn.
  destruct (Qle_bool (difftime cur_time (when e)) d) eqn:He; [|done].
  cbn. by rewrite He, IH.
Qed.

Lemma run_max_dur (cs : list call) (t : Internal) :
  max (run cs t) = max t ∧ dur (run cs t) = dur t.
Proof.
  revert t. induction cs as [|c cs IH]; intros t; [done|].
  change (run (c :: cs) t) with (run cs (run_call c t)).
  destruct (IH (run_call c t)) as [-> ->].
  destruct c as [t_now amount|t_now amount]; cbn; [done|].
  unfold check. by destruct (_ <? _)%Z.
Qed.

(** X8.  [check] is idempotent at an instant: after a [check] at time
    [cur_time], any [check] at that time gives the answer and leaves the
    tracker that it would have given and left without the first one. *)
Theorem check_idempotent (cur_time amount amount' : Z) (t : Internal) :
  check cur_time amount' (check cur_time amount t).2
  = check cur_time amount' t.
Proof.
  assert ((check cur_time amount t).2
          = {| events := evict cur_time (dur t) (events t);
               q_amt := q_amt t; max := max t; dur := dur t |}) as ->.
  { unfold check. by destruct (_ <? _)%Z. }
  unfold check. cbn. by rewrite evict_idempotent.
Qed.

(** The quota is never given back: after any sequence of [add] and
    [check] calls, at whatever times, [check(amount)] answers whether the
    initial running sum plus everything ever added plus [amount], modulo
    2^64, is at most the maximum the tracker was built with. *)
Theorem check_never_releases (cs : list call) (t : Internal)
    (cur_time amount : Z) :
  (check cur_time amount (run cs t)).1
  = bool_decide
      (size_t_wrap (q_amt t + total_added cs + amount) ≤ max t)%Z.
Proof.
  rewrite check_after_run. by destruct (run_max_dur cs t) as [-> _].
Qed.

(** X9.  The sum wraps: on a tracker with a positive running sum and a
    non-negative maximum, the [size_t] amount that brings the sum to 2^64
    passes [check], although the running sum alone may already have used up
    the maximum. *)
Theorem check_wraps_around (cur_time : Z) (t : Internal) :
  (0 < q_amt t < 2 ^ 64)%Z →
  (0 ≤ max t)%Z →
  let amount := (2 ^ 64 - q_amt t)%Z in
  (0 < amount < 2 ^ 64)%Z ∧ (check cur_time amount t).1 = true.
Proof.
  intros Hq Hmax amount. split; [unfold amount; lia|].
  rewrite check_result.
  apply bool_decide_eq_true. unfold size_t_wrap, amount.
  replace (q_amt t + (2 ^ 64 - q_amt t))%Z with (2 ^ 64)%Z by lia.
  by rewrite Z_mod_same_full.
Qed.
End more_quota_facts.

Lemma check_wraps_around_witness :
  (0 < quota_tracker.q_amt samples.spent_tracker < 2 ^ 64)%Z ∧
  (0 ≤ quota_tracker.max samples.spent_tracker)%Z ∧
  (quota_tracker.check 0 1 samples.spent_tracker).1 = false ∧
  (quota_tracker.check 0 (2 ^ 64 - 10) samples.spent_tracker).1 = true.
Proof.
  split; [vm_compute; split; reflexivity|].
  split; [vm_compute; discriminate|]. split; [reflexivity|].
  apply (check_wraps_around 0 samples.spent_tracker).
  - vm_compute. split; reflexivity.
  - vm_compute. discriminate.
Defined.

(** ** More on the MRU index *)

Section more_mru_facts.
Import mru_manager.

Lemma filter_other_all (elt : string) (l : list string) :
  elt ∉ l → filter (λ x, x ≠ elt) l = l.
Proof.
  induction l as [|y l IH]; [done|]. intros Hno.
  rewrite filter_cons_True.
  - f_equal. apply IH. intros Hin. apply Hno. by right.
  - intros ->. apply Hno. by left.
Qed.

Lemma erase_first_filter (elt : string) (l : list string) :
  NoDup l → erase_first elt l = filter (λ x, x ≠ elt) l.
Proof.
  induction 1 as [|y l Hy Hl IH]; [done|]. cbn [erase_first].
  destruct (decide (y = elt)) as [->|Hne].
  - rewrite filter_cons_False by (intros Hc; by apply Hc).
    symmetry. by apply filter_other_all.
  - rewrite filter_cons_True by done. by rewrite IH.
Qed.

(** X10.  From an empty index, whatever the capacity and the operations:
    the index never holds a key twice; [insert] leaves the other keys in
    their order and puts the key at the most-recent end; [remove] leaves
    the other keys in their order and the key out. *)
Theorem mru_order (elements : nat) (os : list op) (elt : string) :
  let m := run os (new elements) in
  NoDup (mru m) ∧
  mru (insert elt m) = filter (λ x, x ≠ elt) (mru m) ++ [elt] ∧
  mru (remove elt m) = filter (λ x, x ≠ elt) (mru m).
Proof.
  intros m. assert (NoDup (mru m)) as Hnd.
  { apply run_NoDup. constructor. }
  split; [done|]. unfold insert, remove. cbn.
  by rewrite erase_first_filter.
Qed.
End more_mru_facts.

(** ** Reading back what the storage of [p3] writes *)

Section decode_facts.
Import p3_storage p3_storage_rest.

Lemma byte_to_of_Z (z : Z) : byte_to_Z (byte_of_Z z) = (z mod 256)%Z.
Proof.
  unfold byte_to_Z, byte_of_Z.
  pose proof (Z.mod_pos_bound z 256 ltac:(lia)) as Hz.
  pose proof (Strings.Byte.to_of_N_option_map (Z.to_N (z mod 256))) as Hb.
  rewrite (proj2 (N.leb_le _ _)) in Hb by lia.
  destruct (Byte.of_N (Z.to_N (z mod 256))) as [b|]; [|done].
  cbn in *. injection Hb as ->. lia.
Qed.

Lemma int_bytes_value (n : Z) :
  (0 ≤ n < 2 ^ 31)%Z →
  (byte_to_Z (byte_of_Z n) + 2 ^ 8 * byte_to_Z (byte_of_Z (n / 2 ^ 8))
   + 2 ^ 16 * byte_to_Z (byte_of_Z (n / 2 ^ 16))
   + 2 ^ 24 * byte_to_Z (byte_of_Z (n / 2 ^ 24)))%Z = n.
Proof.
  intros Hn. rewrite !byte_to_of_Z.
  assert (n / 2 ^ 24 < 256)%Z by (apply Z.div_lt_upper_bound; lia).
  rewrite (Z.mod_small (n / 2 ^ 24)) by (split; [apply Z.div_pos|]; lia).
  change (2 ^ 8)%Z with 256%Z. change (2 ^ 16)%Z with (256 * 256)%Z.
  change (2 ^ 24)%Z with (256 * 256 * 256)%Z.
  rewrite <- !Z.div_div by lia.
  pose proof (Z.div_mod n 256 ltac:(lia)).
  pose proof (Z.div_mod (n / 256) 256 ltac:(lia)).
  pose proof (Z.div_mod (n / 256 / 256) 256 ltac:(lia)).
  lia.
Qed.

Lemma take_drop_middle {A} (pre field rest : list A) :
  take (length field) (drop (length pre) (pre ++ field ++ rest)) = field.
Proof. by rewrite drop_app_length, take_app_length. Qed.

Lemma read_int_at (data pre rest : vec) (i : nat) (n : Z) :
  data = pre ++ int_bytes n ++ rest →
  i = length pre →
  (0 ≤ n < 2 ^ 31)%Z →
  read_int data i = Some n.
Proof.
  intros -> -> Hn. unfold read_int.
  assert (take 4 (drop (length pre) (pre ++ int_bytes n ++ rest))
          = int_bytes n) as ->
    by apply (take_drop_middle pre (int_bytes n) rest).
  cbn [int_bytes]. rewrite (int_bytes_value n Hn).
  by rewrite (proj2 (Z.ltb_lt _ _)) by lia.
Qed.

Lemma length_vec_from_string (s : string) :
  length (vec_from_string s) = String.length s.
Proof.
  unfold vec_from_string, String.list_byte_of_string.
  rewrite length_map. induction s as [|c s IH]; cbn; [done|]. by rewrite IH.
Qed.

Lemma read_string_at (data pre rest : vec) (i : nat) (s : string) :
  data = pre ++ vec_from_string s ++ rest →
  i = length pre →
  read_string data i (Z.of_nat (String.length s)) = Some s.
Proof.
  intros -> -> . unfold read_string, p1_commands.string_at.
  rewrite Nat2Z.id. rewrite <- length_vec_from_string.
  rewrite take_drop_middle.
  rewrite bool_decide_eq_true_2 by lia.
  rewrite bool_decide_eq_true_2 by (rewrite !length_app; lia).
  cbn. unfold vec_from_string.
  by rewrite String.string_of_list_byte_of_string.
Qed.

Lemma read_bytes_at (data pre rest v : vec) (i : nat) :
  data = pre ++ v ++ rest →
  i = length pre →
  read_string data i (Z.of_nat (length v))
  = Some (String.string_of_list_byte v).
Proof.
  intros -> ->. unfold read_string, p1_commands.string_at.
  rewrite Nat2Z.id. rewrite take_drop_middle.
  rewrite bool_decide_eq_true_2 by lia.
  rewrite bool_decide_eq_true_2 by (rewrite !length_app; lia).
  done.
Qed.

Lemma vec_from_string_of_bytes (v : vec) :
  vec_from_string (String.string_of_list_byte v) = v.
Proof. apply String.list_byte_of_string_of_list_byte. Qed.
End decode_facts.

Section table_of_facts.
Context {K V : Type} `{EqDecision K}.
Variable hash : K → nat.
Implicit Types (t : table K V) (l : list (K * V)).

Lemma table_of_length (n : nat) l : length (table_of hash n l) = n.
Proof. unfold table_of. by rewrite length_fmap, length_seq. Qed.

Lemma table_of_lookup (n i : nat) l :
  i < n →
  table_of hash n l !! i = Some (filter (λ kv, hash kv.1 mod n = i) l).
Proof.
  intros Hi. unfold table_of. rewrite list_lookup_fmap.
  by rewrite lookup_seq_lt.
Qed.

Lemma table_of_nil (n : nat) : table_of hash n [] = new_table (V:=V) n.
Proof.
  apply list_eq. intros i. unfold new_table.
  destruct (decide (i < n)) as [Hi|Hi].
  - rewrite table_of_lookup by done. symmetry.
    by apply lookup_replicate_2.
  - rewrite !lookup_ge_None_2; [done| |].
    + rewrite length_replicate. lia.
    + rewrite table_of_length. lia.
Qed.

Lemma table_of_bucket_index (key : K) (n : nat) l :
  0 < n → bucket_index hash key (table_of hash n l) = Some (hash key mod n).
Proof.
  intros Hn. unfold bucket_index. rewrite table_of_length.
  by destruct n; [lia|].
Qed.

Lemma table_of_snoc (key : K) (val : V) (n : nat) l :
  0 < n →
  push_back (hash key mod n) key val (table_of hash n l)
  = table_of hash n (l ++ [(key, val)]).
Proof.
  intros Hn. apply list_eq. intros i. unfold push_back.
  destruct (decide (i < n)) as [Hi|Hi].
  - rewrite (table_of_lookup n i (l ++ _)) by done.
    rewrite filter_app. destruct (decide (hash key mod n = i)) as [<-|Hne].
    + rewrite filter_cons_True by done.
      by rewrite list_lookup_alter_eq, table_of_lookup by done.
    + rewrite filter_cons_False by done. rewrite app_nil_r.
      by rewrite list_lookup_alter_ne, table_of_lookup by done.
  - rewrite !lookup_ge_None_2; [done| |].
    + rewrite table_of_length. lia.
    + rewrite length_alter, table_of_length. lia.
Qed.

Lemma filter_concat_bucket (bs : table K V) (o i n : nat) :
  (∀ j b kv, bs !! j = Some b → kv ∈ b → hash kv.1 mod n = o + j) →
  filter (λ kv, hash kv.1 mod n = i) (concat bs)
  = if decide (o ≤ i) then default [] (bs !! (i - o)) else [].
Proof.
  revert o. induction bs as [|b bs IH]; intros o Hb; cbn [concat].
  - rewrite lookup_nil. by destruct (decide (o ≤ i)).
  - rewrite filter_app. rewrite (IH (S o)).
    2:{ intros j b' kv Hj Hin. rewrite (Hb (S j) b' kv Hj Hin). lia. }
    assert (filter (λ kv, hash kv.1 mod n = i) b
            = if decide (i = o) then b else []) as ->.
    { assert (∀ kv, kv ∈ b → hash kv.1 mod n = o) as Hall.
      { intros kv Hin. rewrite (Hb 0 b kv eq_refl Hin). lia. }
      clear Hb IH. induction b as [|kv b IHb]; [by destruct (decide _)|].
      rewrite filter_cons. rewrite IHb.
      2:{ intros kv' Hin. apply Hall. by right. }
      rewrite (Hall kv) by (by left).
      destruct (decide (i = o)) as [->|Hne].
      - by rewrite decide_True.
      - by rewrite decide_False by congruence. }
    destruct (decide (i = o)) as [->|Hne].
    + rewrite (decide_False (P := S o ≤ o)) by lia.
      rewrite (decide_True (P := o ≤ o)) by lia.
      rewrite Nat.sub_diag. cbn. by rewrite app_nil_r.
    + destruct (decide (o ≤ i)) as [Hle|Hgt].
      * rewrite (decide_True (P := S o ≤ i)) by lia. cbn.
        replace (i - o) with (S (i - S o)) by lia. done.
      * by rewrite (decide_False (P := S o ≤ i)) by lia.
Qed.

Lemma well_placed_mod t (index : nat) elements (kv : K * V) :
  well_placed hash t →
  t !! index = Some elements → kv ∈ elements →
  hash kv.1 mod length t = index.
Proof.
  intros Hwp Hel Hin. destruct kv as [k v].
  pose proof (Hwp index elements k v Hel Hin) as Hidx.
  unfold bucket_index in Hidx. destruct (length t); [done|].
  by injection Hidx.
Qed.

(** A table whose pairs all sit in the bucket of their key is the table
    of its own pairs. *)
Lemma table_of_concat t :
  well_placed hash t → table_of hash (length t) (concat t) = t.
Proof.
  intros Hwp. apply list_eq. intros i.
  destruct (decide (i < length t)) as [Hi|Hi].
  - rewrite table_of_lookup by done.
    rewrite (filter_concat_bucket t 0 i (length t)).
    2:{ intros j b kv Hj Hin. by apply (well_placed_mod t j b kv). }
    rewrite decide_True by lia. rewrite Nat.sub_0_r.
    by destruct (lookup_lt_is_Some_2 t i Hi) as [b ->].
  - rewrite !lookup_ge_None_2; [done|lia|].
    rewrite table_of_length. lia.
Qed.

Lemma consistent_NoDup_keys t :
  consistent hash t → NoDup (concat t).*1.
Proof.
  intros (_ & Hwp & Hdk).
  assert (∀ (bs : table K V) (o : nat),
    (∀ j b, bs !! j = Some b → NoDup b.*1) →
    (∀ j b kv, bs !! j = Some b → kv ∈ b →
       hash kv.1 mod length t = o + j) →
    NoDup (concat bs).*1) as Hgen.
  { induction bs as [|b bs IH]; intros o Hnd Hmod; cbn; [constructor|].
    rewrite fmap_app. apply NoDup_app. split; [by apply (Hnd 0)|]. split.
    - intros k Hk Hk'.
      apply list_elem_of_fmap in Hk as (kv & -> & Hin).
      apply list_elem_of_fmap in Hk' as (kv' & Heq & Hin').
      apply elem_of_concat in Hin' as (b' & Hin' & Hb').
      apply list_elem_of_lookup in Hb' as [j Hj].
      pose proof (Hmod 0 b kv eq_refl Hin) as H1.
      pose proof (Hmod (S j) b' kv' Hj Hin') as H2.
      rewrite Heq in H1. lia.
    - apply (IH (S o)).
      + intros j b' Hj. by apply (Hnd (S j)).
      + intros j b' kv Hj Hin. rewrite (Hmod (S j) b' kv Hj Hin). lia. }
  apply (Hgen t 0).
  - intros j b Hj. by apply (Hdk j).
  - intros j b kv Hj Hin. by apply (well_placed_mod t j b kv).
Qed.

Lemma clear_all_new_table t :
  p5_hashtable.clear_all t = new_table (length t).
Proof.
  unfold p5_hashtable.clear_all, new_table.
  induction t as [|b t IH]; cbn; [done|]. by rewrite IH.
Qed.
End table_of_facts.

(** ** Scans of the storage of [p3] *)

Section p3_scan_facts.
Context {K V St : Type}.
Implicit Types (t : table K V) (g : K → V → St → St).

Lemma p3_each_pair_fold g (elements : list (K * V)) (s : St) :
  p3_hashtable.each_pair (λ k v, modify (g k v)) elements s
  = Some ((), foldl (λ s kv, g kv.1 kv.2 s) s elements).
Proof.
  revert s. induction elements as [|e elements IH]; intros s; [done|].
  cbn. eff_bind. unfold modify at 1. cbn. apply IH.
Qed.

Lemma p3_visit_buckets_fold g (i : nat) t (s : St) :
  p3_hashtable.visit_buckets (Locking0 := p3_storage.storage_locking)
    (λ k v, modify (g k v)) i t s
  = Some ((), foldl (λ s kv, g kv.1 kv.2 s) s (concat t)).
Proof.
  revert i s. induction t as [|b t IH]; intros i s; [done|].
  cbn. eff_bind. rewrite p3_each_pair_fold. cbn.
  unfold unlock, modify at 1. cbn. rewrite IH. by rewrite foldl_app.
Qed.

Lemma p3_lock_all_shared_sequential (i n : nat) (s : St) :
  p3_hashtable.lock_all_shared (Locking0 := p3_storage.storage_locking)
    i n s = Some ((), s).
Proof.
  revert i. induction n as [|n IH]; intros i; [done|].
  cbn. eff_bind. unfold lock_shared, modify. cbn. apply IH.
Qed.

Lemma p3_do_all_readonly_fold g (then_ : Eff St ()) t (s : St) :
  p3_hashtable.do_all_readonly (Locking0 := p3_storage.storage_locking)
    (λ k v, modify (g k v)) then_ t s
  = ('(_, s1) ← then_ s;
     Some ((), foldl (λ s kv, g kv.1 kv.2 s) s1 (concat t))).
Proof.
  unfold p3_hashtable.do_all_readonly. eff_bind.
  rewrite p3_lock_all_shared_sequential. cbn.
  destruct (then_ s) as [[[] s1]|]; [|done]. cbn.
  apply p3_visit_buckets_fold.
Qed.

Lemma foldl_append_flat_map {A B} (enc : A → list B) (d0 : list B)
    (l : list A) :
  foldl (λ d x, d ++ enc x) d0 l = d0 ++ flat_map enc l.
Proof.
  revert d0. induction l as [|x l IH]; intros d0; cbn.
  - by rewrite app_nil_r.
  - rewrite IH. by rewrite <- app_assoc.
Qed.
End p3_scan_facts.

Section p3_persist_facts.
Import p3_storage p3_storage_rest.

(** The bytes of a snapshot: the records of the pairs of the store, then
    the records of the users. *)
Local Abbreviation kv_bytes l :=
  (flat_map (λ kv : string * vec, kv_record KVENTRY kv.1 kv.2) l).
Local Abbreviation auth_bytes l :=
  (flat_map (λ ue : string * AuthTableEntry, auth_record ue.2) l).

Lemma persist_kv_scan (tmp : string) (l : list (string * vec))
    (s : vec * files) :
  ∃ fs1,
    foldl (λ (s : vec * files) (kv : string * vec),
      let '(data, fs) := s in
      let data0 := vec_append data (kv_record KVENTRY kv.1 kv.2) in
      (data0, write_file tmp data0 fs)) s l
    = (s.1 ++ kv_bytes l, fs1) ∧
    delete tmp fs1 = delete tmp s.2.
Proof.
  revert s. induction l as [|kv l IH]; intros s.
  - exists s.2. destruct s as [d0 fs0]. cbn. by rewrite app_nil_r.
  - match goal with
    | |- context [foldl ?f s (kv :: l)] =>
        change (foldl f s (kv :: l)) with (foldl f (f s kv) l);
        destruct (IH (f s kv)) as (fs1 & Heq & Hdel); rewrite Heq
    end.
    exists fs1. destruct s as [d0 fs0]. cbn [fst snd flat_map] in *.
    unfold vec_append at 1. rewrite <- app_assoc.
    split; [done|]. rewrite Hdel. unfold write_file.
    apply delete_insert_eq.
Qed.

Lemma tmp_name_ne (name : string) : name ≠ name +:+ ".tmp".
Proof.
  induction name as [|a name IH]; [discriminate|].
  intros Heq. injection Heq as Heq. by apply IH.
Qed.

(** The state and the file system [persist] ends in. *)
Lemma p3_persist_result (st : Storage) (fs : files) :
  f_ptr st ≠ Closed →
  persist st fs
  = Some (with_f_ptr st Closed,
          <[filename st :=
              kv_bytes (concat (kv_store st))
              ++ auth_bytes (concat (auth_table st))]>
            (delete (filename st +:+ ".tmp") fs)).
Proof.
  intros Hopen. unfold persist. eff_bind.
  destruct (f_ptr st) eqn:Hf; [done| |]; cbn.
  all: unfold with_local.
  all: rewrite (p3_do_all_readonly_fold
         (λ (_ : string) (entry : AuthTableEntry) '(data, fs),
            (vec_append data (auth_record entry), fs))).
  all: rewrite (p3_do_all_readonly_fold
         (λ (key2 : string) (value2 : vec) '(data, fs),
            let data0 := vec_append data (kv_record KVENTRY key2 value2) in
            (data0, write_file (filename st +:+ ".tmp") data0 fs))).
  all: cbn.
  all: destruct (persist_kv_scan (filename st +:+ ".tmp")
                   (concat (kv_store st)) ([], fs)) as (fs1 & Hkv & Hdel).
  all: cbn in Hkv; rewrite Hkv.
  all: assert (∀ (l : list (string * AuthTableEntry)) d,
         foldl (λ (s : vec * files) (kv : string * AuthTableEntry),
                  let '(data, fs0) := s in
                  (vec_append data (auth_record kv.2), fs0)) (d, fs1) l
         = (d ++ auth_bytes l, fs1)) as Hauth
    by (induction l as [|ue l IH]; intros d; cbn;
        [by rewrite app_nil_r
        |rewrite IH; unfold vec_append at 1; by rewrite <- app_assoc]).
  all: rewrite Hauth; cbn.
  all: unfold modify, write_file, rename; cbn.
  all: rewrite lookup_insert_eq, delete_insert_eq, Hdel.
  all: reflexivity.
Qed.

(** X11.  [persist] of [p3] on any storage whose stream is not closed: it
    succeeds and leaves the tables alone; the file [filename] then holds
    the records of all pairs of the key/value store followed by the
    records of all users, each table bucket by bucket; the temporary file
    is gone, every other file is as before, and the stream is left
    closed. *)
Theorem p3_persist_file (st : Storage) (fs : files) :
  f_ptr st ≠ Closed →
  ∃ fs1,
    persist st fs = Some (with_f_ptr st Closed, fs1) ∧
    fs1 !! filename st
    = Some (kv_bytes (concat (kv_store st))
            ++ auth_bytes (concat (auth_table st))) ∧
    fs1 !! (filename st +:+ ".tmp") = None ∧
    ∀ name,
      name ≠ filename st → name ≠ filename st +:+ ".tmp" →
      fs1 !! name = fs !! name.
Proof.
  intros Hopen. eexists. split; [by apply p3_persist_result|].
  split; [by rewrite lookup_insert_eq|]. split.
  - rewrite lookup_insert_ne by apply tmp_name_ne.
    by rewrite lookup_delete_eq.
  - intros name H1 H2. rewrite lookup_insert_ne by done.
    by rewrite lookup_delete_ne.
Qed.
End p3_persist_facts.

Lemma p3_persist_file_witness :
  p3_storage.f_ptr samples.p3_with_key ≠ Closed ∧
  ∃ fs1 data,
    p3_storage.persist samples.p3_with_key ∅
    = Some (p3_storage_rest.with_f_ptr samples.p3_with_key Closed, fs1) ∧
    fs1 !! "db" = Some data ∧
    take 8 data = vec_from_string KVENTRY ∧
    fs1 !! "db.tmp" = None.
Proof.
  split; [discriminate|].
  destruct (p3_persist_file samples.p3_with_key ∅)
    as (fs1 & H1 & H2 & H3 & _); [discriminate|].
  exists fs1. eexists. split; [exact H1|]. split; [exact H2|].
  split; [reflexivity | exact H3].
Defined.

(** ** The store after a snapshot *)

Section p3_after_persist_facts.
Import p3_storage p3_storage_rest.
Variable str_hash : string → nat.
Variable hashed : vec.

#[local] Existing Instance storage_locking.

(** [auth] does not look at the stream. *)
Lemma auth_with_f_ptr (st : Storage) (user pass : string) (b : bool)
    (f : stream) :
  auth str_hash hashed user pass st = Some (b, st) →
  auth str_hash hashed user pass (with_f_ptr st f)
  = Some (b, with_f_ptr st f).
Proof.
  unfold p3_storage.auth. cbn.
  destruct (p3_hashtable.do_with _ _ _ _ _) as [[[found t'] a]|]; cbn;
    [|done].
  intros [= -> Hst]. do 2 f_equal.
  unfold with_auth_table, with_f_ptr in *. cbn.
  destruct st; cbn in *. by injection Hst as ->.
Qed.

(** C4, on the key/value store of [p3] once a snapshot has been taken.
    [persist] closes the log stream and does not open it again, and
    [kv_insert] and [kv_upsert] write a record to that stream.  For a
    user whose authentication succeeds, on a storage with at least one
    bucket and an open stream: [persist] succeeds, leaves the two tables
    as they are and the stream closed, and the user still authenticates;
    from then on [kv_upsert] of any key and value, and [kv_insert] of any
    key that the store does not hold, have no defined outcome, so that no
    [kv_get] follows that could return the value. *)
Theorem kv_write_after_persist (st : Storage) (user pass key : string)
    (val : vec) (fs : files) :
  auth str_hash hashed user pass st = Some (true, st) →
  f_ptr st ≠ Closed →
  kv_store st ≠ [] →
  ∃ st1 fs1,
    persist st fs = Some (st1, fs1) ∧
    f_ptr st1 = Closed ∧
    auth_table st1 = auth_table st ∧
    kv_store st1 = kv_store st ∧
    auth str_hash hashed user pass st1 = Some (true, st1) ∧
    kv_upsert str_hash hashed user pass key val st1 fs1 = None ∧
    (find_value str_hash key (kv_store st) = None →
     kv_insert str_hash hashed user pass key val st1 fs1 = None).
Proof.
  intros Hauth Hopen Hne.
  eexists _, _. split; [by apply p3_persist_result|].
  pose proof (auth_with_f_ptr st user pass true Closed Hauth) as Hauth1.
  do 3 (split; [done|]). split; [exact Hauth1|].
  destruct (bucket_index_defined str_hash key (kv_store st) Hne)
    as (index & elements & Hidx & Hel).
  split.
  - unfold kv_upsert. rewrite Hauth1. eff_bind.
    cbn [kv_store f_ptr with_f_ptr].
    rewrite (p3_upsert_unfold str_hash (kv_store st) key val _ _ _ index
               elements Hidx Hel).
    cbn. by destruct (find_key key elements).
  - intros Hnew.
    rewrite (find_value_unfold str_hash key _ index elements Hidx Hel)
      in Hnew.
    assert (find_key key elements = None) as Hf.
    { destruct (find_key key elements) as [i|] eqn:Hf; [|done].
      destruct (find_key_Some key elements i Hf) as [v Hi].
      by rewrite Hi in Hnew. }
    unfold kv_insert. rewrite Hauth1. eff_bind.
    cbn [kv_store f_ptr with_f_ptr].
    rewrite (p3_insert_unfold str_hash (kv_store st) key val _ _ index
               elements Hidx Hel).
    by rewrite Hf.
Qed.
End p3_after_persist_facts.

Lemma kv_write_after_persist_witness :
  let st := samples.p3_with_key in
  let h := samples.length_hash in
  let d := samples.plain_digest "pw" in
  p3_storage.auth h d "alice" "pw" st = Some (true, st) ∧
  p3_storage.f_ptr st ≠ Closed ∧
  p3_storage.kv_store st ≠ [] ∧
  find_value h "new" (p3_storage.kv_store st) = None ∧
  ∃ st1 fs1,
    p3_storage.persist st ∅ = Some (st1, fs1) ∧
    p3_storage.auth h d "alice" "pw" st1 = Some (true, st1) ∧
    p3_storage.kv_upsert h d "alice" "pw" "new" [Byte.x07] st1 fs1 = None ∧
    p3_storage.kv_insert h d "alice" "pw" "new" [Byte.x07] st1 fs1 = None.
Proof.
  cbv zeta. split; [reflexivity|]. split; [discriminate|].
  split; [discriminate|]. split; [reflexivity|].
  destruct (kv_write_after_persist samples.length_hash
              (samples.plain_digest "pw") samples.p3_with_key "alice" "pw"
              "new" [Byte.x07] ∅ eq_refl)
    as (st1 & fs1 & Hsave & _ & _ & _ & Hauth & Hups & Hins);
    [discriminate|discriminate|].
  exists st1, fs1. split; [exact Hsave|]. split; [exact Hauth|].
  split; [exact Hups | exact (Hins eq_refl)].
Defined.

(** ** Replay of the file of [p3] *)

Section p3_load_facts.
Import p3_storage p3_storage_rest.
Variable str_hash : string → nat.

#[local] Existing Instance storage_locking.

Local Abbreviation kv_bytes l :=
  (flat_map (λ kv : string * vec, kv_record KVENTRY kv.1 kv.2) l).
Local Abbreviation auth_bytes l :=
  (flat_map (λ kv : string * AuthTableEntry, auth_record kv.2) l).
Local Abbreviation short_string s :=
  (Z.of_nat (String.length s) < 2 ^ 31)%Z.
Local Abbreviation short_vec v := (Z.of_nat (length v) < 2 ^ 31)%Z.

Lemma defined_bind {St A B} (x : A) (f : A → Eff St B) :
  (defined (Some x) ≫= f) = f x.
Proof. reflexivity. Qed.

Lemma kv_record_layout (magic k : string) (v : vec) :
  kv_record magic k v
  = vec_from_string magic ++ str_size_int k ++ vec_from_string k
    ++ size_int v ++ v.
Proof. unfold kv_record, vec_append. cbn [app]. by rewrite <- !app_assoc. Qed.

Lemma auth_record_layout (e : AuthTableEntry) :
  auth_record e
  = vec_from_string AUTHENTRY ++ str_size_int (username e)
    ++ vec_from_string (username e) ++ str_size_int (pass_hash e)
    ++ vec_from_string (pass_hash e) ++ size_int (content e) ++ content e.
Proof.
  unfold auth_record, vec_append. cbn [app].
  destruct (content e) as [|b c] eqn:Hc.
  - rewrite bool_decide_false by (cbn; lia).
    rewrite <- !app_assoc. by rewrite app_nil_r.
  - rewrite bool_decide_true by (cbn; lia). by rewrite <- !app_assoc.
Qed.

Lemma length_int_bytes (n : Z) : length (int_bytes n) = 4.
Proof. done. Qed.

Ltac vec_len :=
  rewrite ?length_app, ?length_vec_from_string;
  unfold str_size_int, size_int; rewrite ?length_int_bytes;
  change (String.length AUTHENTRY) with 8;
  change (String.length KVENTRY) with 8;
  lia.


Lemma read_key_value_at (data pre rest : vec) (k : string) (v : vec) :
  data = pre ++ (str_size_int k ++ vec_from_string k ++ size_int v ++ v)
         ++ rest →
  (Z.of_nat (String.length k) < 2 ^ 31)%Z →
  (Z.of_nat (length v) < 2 ^ 31)%Z →
  read_key_value data (length pre)
  = Some (k, String.string_of_list_byte v,
          length pre + (4 + String.length k + 4 + length v)).
Proof.
  intros -> Hk Hv. unfold read_key_value.
  rewrite (read_int_at _ pre (vec_from_string k ++ size_int v ++ v ++ rest)
             _ (Z.of_nat (String.length k)));
    [|by rewrite <- !app_assoc|done|lia].
  cbn [mbind option_bind].
  rewrite (read_string_at _ (pre ++ str_size_int k) (size_int v ++ v ++ rest)
             _ k);
    [|by rewrite <- !app_assoc|by rewrite length_app].
  cbn [mbind option_bind]. rewrite Nat2Z.id.
  rewrite (read_int_at _ (pre ++ str_size_int k ++ vec_from_string k)
             (v ++ rest) _ (Z.of_nat (length v)));
    [|by rewrite <- !app_assoc
     |rewrite !length_app, length_vec_from_string; unfold str_size_int;
      rewrite length_int_bytes; lia
     |lia].
  cbn [mbind option_bind].
  rewrite (read_bytes_at _
             (pre ++ str_size_int k ++ vec_from_string k ++ size_int v)
             rest v);
    [|by rewrite <- !app_assoc
     |rewrite !length_app, length_vec_from_string; unfold str_size_int,
        size_int; rewrite !length_int_bytes; lia].
  cbn [mbind option_bind]. rewrite Nat2Z.id. do 2 f_equal. lia.
Qed.

Lemma load_record_kventry (data pre rest : vec) (k : string) (v : vec)
    (st : Storage) (fs : files) :
  data = pre ++ kv_record KVENTRY k v ++ rest →
  (Z.of_nat (String.length k) < 2 ^ 31)%Z →
  (Z.of_nat (length v) < 2 ^ 31)%Z →
  load_record str_hash data (length pre) st fs
  = ('(_, kv_store') ← p3_hashtable.insert str_hash k v (mret ())
                          (kv_store st);
     mret (Some (length (pre ++ kv_record KVENTRY k v),
                 with_kv_store st kv_store'))) fs.
Proof.
  intros -> Hk Hv. unfold load_record.
  assert (length (pre ++ kv_record KVENTRY k v)
          = length (pre ++ vec_from_string KVENTRY)
            + (4 + String.length k + 4 + length v)) as ->.
  { rewrite kv_record_layout, !length_app, !length_vec_from_string.
    unfold str_size_int, size_int. rewrite !length_int_bytes. lia. }
  rewrite kv_record_layout.
  change 8%Z with (Z.of_nat (String.length KVENTRY)).
  rewrite (read_string_at _ pre
             ((str_size_int k ++ vec_from_string k ++ size_int v ++ v)
              ++ rest) _ KVENTRY);
    [|by rewrite <- !app_assoc|done].
  replace (length pre + 8) with (length (pre ++ vec_from_string KVENTRY))
    by (by rewrite length_app).
  rewrite (read_key_value_at _ (pre ++ vec_from_string KVENTRY) rest k v);
    [|by rewrite <- !app_assoc|done|done].
  rewrite defined_bind. cbv beta.
  rewrite (bool_decide_false (KVENTRY = AUTHENTRY)) by done.
  rewrite (bool_decide_true (KVENTRY = KVENTRY)) by done.
  rewrite defined_bind. cbv beta iota.
  by rewrite vec_from_string_of_bytes.
Qed.

Lemma read_content_at (data pre rest c : vec) :
  data = pre ++ (size_int c ++ c) ++ rest →
  (Z.of_nat (length c) < 2 ^ 31)%Z →
  read_content data (length pre)
  = Some (String.string_of_list_byte c, length pre + (4 + length c)).
Proof.
  intros -> Hc. unfold read_content.
  rewrite (read_int_at _ pre (c ++ rest) _ (Z.of_nat (length c)));
    [|by rewrite <- !app_assoc|done|lia].
  cbn [mbind option_bind].
  destruct c as [|b c].
  - rewrite bool_decide_true by done. cbn. f_equal.
  - rewrite bool_decide_false by (cbn [length]; lia).
    rewrite (read_bytes_at _ (pre ++ size_int (b :: c)) rest (b :: c));
      [|by rewrite <- !app_assoc
       |rewrite length_app; unfold size_int; rewrite length_int_bytes; lia].
    cbn [mbind option_bind]. rewrite Nat2Z.id. do 2 f_equal. lia.
Qed.

Lemma load_record_authentry (data pre rest : vec) (e : AuthTableEntry)
    (st : Storage) (fs : files) :
  data = pre ++ auth_record e ++ rest →
  (Z.of_nat (String.length (username e)) < 2 ^ 31)%Z →
  (Z.of_nat (String.length (pass_hash e)) < 2 ^ 31)%Z →
  (Z.of_nat (length (content e)) < 2 ^ 31)%Z →
  load_record str_hash data (length pre) st fs
  = ('(_, auth_table') ← p3_hashtable.insert str_hash (username e) e
                            (mret ()) (auth_table st);
     mret (Some (length (pre ++ auth_record e),
                 with_auth_table st auth_table'))) fs.
Proof.
  intros -> Hu Hp Hc. unfold load_record.
  destruct e as [u p c]. cbn [username pass_hash content] in *.
  set (e := {| username := u; pass_hash := p; content := c |}).
  assert (auth_record e
          = vec_from_string AUTHENTRY ++ str_size_int u
            ++ vec_from_string u ++ str_size_int p
            ++ vec_from_string p ++ size_int c ++ c) as Hlay
    by apply auth_record_layout.
  assert (length (pre ++ auth_record e)
          = length (pre ++ vec_from_string AUTHENTRY ++ str_size_int u
                      ++ vec_from_string u ++ str_size_int p
                      ++ vec_from_string p)
            + (4 + length c)) as ->.
  { rewrite Hlay, !length_app, !length_vec_from_string.
    unfold str_size_int, size_int. rewrite !length_int_bytes. lia. }
  rewrite Hlay.
  change 8%Z with (Z.of_nat (String.length AUTHENTRY)).
  rewrite (read_string_at _ pre
             ((str_size_int u ++ vec_from_string u ++ str_size_int p
               ++ vec_from_string p ++ size_int c ++ c) ++ rest)
             _ AUTHENTRY);
    [|by rewrite <- !app_assoc|done].
  rewrite defined_bind. cbv beta.
  rewrite (bool_decide_true (AUTHENTRY = AUTHENTRY)) by done.
  rewrite (read_int_at _ (pre ++ vec_from_string AUTHENTRY)
             ((vec_from_string u ++ str_size_int p
               ++ vec_from_string p ++ size_int c ++ c) ++ rest)
             _ (Z.of_nat (String.length u)));
    [|by rewrite <- !app_assoc|vec_len|lia].
  rewrite defined_bind. cbv beta.
  rewrite (read_string_at _
             (pre ++ vec_from_string AUTHENTRY ++ str_size_int u)
             ((str_size_int p ++ vec_from_string p ++ size_int c ++ c)
              ++ rest) _ u);
    [|by rewrite <- !app_assoc
     |vec_len].
  rewrite defined_bind. cbv beta. rewrite Nat2Z.id.
  rewrite (read_int_at _
             (pre ++ vec_from_string AUTHENTRY ++ str_size_int u
                ++ vec_from_string u)
             ((vec_from_string p ++ size_int c ++ c) ++ rest)
             _ (Z.of_nat (String.length p)));
    [|by rewrite <- !app_assoc
     |vec_len|lia].
  rewrite defined_bind. cbv beta.
  rewrite (read_string_at _
             (pre ++ vec_from_string AUTHENTRY ++ str_size_int u
                ++ vec_from_string u ++ str_size_int p)
             ((size_int c ++ c) ++ rest) _ p);
    [|by rewrite <- !app_assoc
     |vec_len].
  rewrite defined_bind. cbv beta. rewrite Nat2Z.id.
  replace (length pre + 8 + 4 + String.length u + 4 + String.length p)
    with (length (pre ++ vec_from_string AUTHENTRY ++ str_size_int u
                    ++ vec_from_string u ++ str_size_int p
                    ++ vec_from_string p))
    by vec_len.
  rewrite (read_content_at _ _ rest c);
    [|by rewrite <- !app_assoc|done].
  rewrite defined_bind. cbv beta iota.
  by rewrite vec_from_string_of_bytes.
Qed.

Lemma load_record_user (data pre rest : vec)
    (kv : string * AuthTableEntry) (st : Storage) (fs : files) :
  data = pre ++ auth_record kv.2 ++ rest →
  username kv.2 = kv.1 ∧ short_string kv.1
  ∧ short_string (pass_hash kv.2) ∧ short_vec (content kv.2) →
  load_record str_hash data (length pre) st fs
  = ('(_, auth_table') ← p3_hashtable.insert str_hash kv.1 kv.2
                            (mret ()) (auth_table st);
     mret (Some (length (pre ++ auth_record kv.2),
                 with_auth_table st auth_table'))) fs.
Proof.
  intros Hd (Hn & Hk & Hp & Hc). rewrite <- Hn in *.
  by apply (load_record_authentry data pre rest).
Qed.

(** [insert] with the empty callback of [load], on a table that was built
    from a list of pairs, appends the pair of a new key. *)
Lemma insert_table_of {V} (n : nat) (l : list (string * V)) (k : string)
    (v : V) (fs : files) :
  0 < n →
  k ∉ l.*1 →
  p3_hashtable.insert str_hash k v (mret ()) (table_of str_hash n l) fs
  = Some ((true, table_of str_hash n (l ++ [(k, v)])), fs).
Proof.
  intros Hn Hk.
  rewrite (p3_insert_unfold str_hash _ _ _ _ _ (str_hash k mod n)
             (filter (λ kv, str_hash kv.1 mod n = str_hash k mod n) l));
    [|by apply table_of_bucket_index
     |apply table_of_lookup; by apply Nat.mod_upper_bound, Nat.neq_0_lt_0].
  assert (find_key k
            (filter (λ kv : string * V,
                       str_hash kv.1 mod n = str_hash k mod n) l)
          = None) as ->.
  { apply find_key_None_keys. intros Hin. apply Hk.
    apply list_elem_of_fmap in Hin as (kv & -> & Hin).
    apply list_elem_of_fmap. exists kv. split; [done|].
    by apply list_elem_of_filter in Hin as [_ ?]. }
  cbn. by rewrite table_of_snoc.
Qed.

Section replay.
Context {V : Type}.
Variable get : Storage → table string V.
Variable set : Storage → table string V → Storage.
Variable enc : string * V → vec.
Variable ok : string * V → Prop.
Hypothesis get_set : ∀ st t, get (set st t) = t.
Hypothesis set_set : ∀ st t t', set (set st t) t' = set st t'.
Hypothesis set_get : ∀ st, set st (get st) = st.
Hypothesis enc_length : ∀ kv, 0 < length (enc kv).
Hypothesis step : ∀ data pre rest kv st fs,
  data = pre ++ enc kv ++ rest →
  ok kv →
  load_record str_hash data (length pre) st fs
  = ('(_, t') ← p3_hashtable.insert str_hash kv.1 kv.2 (mret ()) (get st);
     mret (Some (length (pre ++ enc kv), set st t'))) fs.

(** The rounds of [load] over the records of pairs with distinct keys:
    each one is inserted. *)
Lemma load_loop_records (n : nat) (l done : list (string * V))
    (pre rest : vec) (rounds : nat) (st : Storage) (fs : files) :
  0 < n →
  get st = table_of str_hash n done →
  NoDup (done ++ l).*1 →
  Forall ok l →
  load_loop str_hash (length l + rounds) (pre ++ flat_map enc l ++ rest)
    (length pre) st fs
  = load_loop str_hash rounds (pre ++ flat_map enc l ++ rest)
      (length (pre ++ flat_map enc l))
      (set st (table_of str_hash n (done ++ l))) fs.
Proof.
  intros Hn. revert done pre st.
  induction l as [|[k v] l IH]; intros done pre st Hget Hnd Hok.
  - cbn [flat_map length Nat.add]. rewrite !app_nil_r, <- Hget.
    by rewrite set_get.
  - apply Forall_cons in Hok as [Hkv Hok].
    cbn [flat_map length Nat.add load_loop].
    rewrite bool_decide_true
      by (specialize (enc_length (k, v)); rewrite !length_app; lia).
    unfold mbind at 1, Eff_bind at 1.
    rewrite (step _ pre (flat_map enc l ++ rest) (k, v) st fs);
      [|by rewrite <- !app_assoc|done].
    cbn [fst snd].
    unfold mbind at 1, Eff_bind at 1.
    rewrite Hget, insert_table_of; [|done|].
    2:{ rewrite fmap_app in Hnd. apply NoDup_app in Hnd as (_ & Hnd & _).
        intros Hin. apply (Hnd _ Hin). cbn. left. }
    cbn [mret Eff_ret].
    replace (pre ++ (enc (k, v) ++ flat_map enc l) ++ rest)
      with ((pre ++ enc (k, v)) ++ flat_map enc l ++ rest)
      by (by rewrite <- !app_assoc).
    rewrite (IH (done ++ [(k, v)]) (pre ++ enc (k, v)));
      [|by rewrite get_set|by rewrite <- app_assoc|done].
    rewrite set_set. by rewrite <- !app_assoc.
Qed.
End replay.

Lemma p3_clear_sequential {K V} (t : table K V) (fs : files) :
  p3_hashtable.clear (Locking0 := storage_locking) t fs
  = Some (new_table (length t), fs).
Proof.
  unfold p3_hashtable.clear. eff_bind.
  assert (∀ i n, p3_hashtable.lock_all (Locking0 := storage_locking) i n fs
                 = Some ((), fs)) as ->.
  { intros i n. revert i. induction n as [|n IH]; intros i; [done|].
    cbn. eff_bind. unfold lock, modify. cbn. apply IH. }
  rewrite <- clear_all_new_table. generalize 0.
  induction t as [|b t IH]; intros i; [done|].
  cbn. eff_bind. unfold unlock, modify. cbn. by rewrite IH.
Qed.

Lemma load_loop_end (rounds : nat) (data : vec) (st : Storage) (fs : files) :
  load_loop str_hash rounds data (length data) st fs = Some ((true, st), fs).
Proof.
  destruct rounds; cbn [load_loop]; by rewrite bool_decide_false by lia.
Qed.

Lemma length_flat_map_ge {A B} (enc : A → list B) (l : list A) :
  (∀ x, 0 < length (enc x)) → length l ≤ length (flat_map enc l).
Proof.
  intros Hpos. induction l as [|x l IH]; cbn [flat_map length]; [done|].
  specialize (Hpos x). rewrite length_app. lia.
Qed.

Lemma kv_record_length (magic k : string) (v : vec) :
  0 < length (kv_record magic k v).
Proof.
  rewrite kv_record_layout, !length_app. unfold str_size_int.
  rewrite length_int_bytes. lia.
Qed.

Lemma auth_record_length (e : AuthTableEntry) : 0 < length (auth_record e).
Proof.
  rewrite auth_record_layout, !length_app. unfold str_size_int.
  rewrite !length_int_bytes. lia.
Qed.

Lemma with_tables_same (st : Storage) :
  with_kv_store (with_auth_table st (auth_table st)) (kv_store st) = st.
Proof. by destruct st. Qed.

(** The replay of a snapshot. *)
Lemma load_snapshot (st0 : Storage) (fs : files)
    (users : table string AuthTableEntry) (pairs : table string vec) :
  consistent str_hash users →
  consistent str_hash pairs →
  (∀ k e, (k, e) ∈ concat users →
     username e = k ∧ short_string k ∧ short_string (pass_hash e)
     ∧ short_vec (content e)) →
  (∀ k v, (k, v) ∈ concat pairs → short_string k ∧ short_vec v) →
  length (auth_table st0) = length users →
  length (kv_store st0) = length pairs →
  fs !! filename st0
  = Some (kv_bytes (concat pairs) ++ auth_bytes (concat users)) →
  load str_hash st0 fs
  = Some ((true,
           {| auth_table := users; kv_store := pairs;
              filename := filename st0;
              f_ptr := if bool_decide (concat pairs = []
                                       ∧ concat users = [])
                       then Reading (filename st0)
                       else Writing (filename st0) |}), fs).
Proof.
  intros Hu Hp Hus Hps Hlu Hlp Hfile. unfold load. rewrite Hfile.
  unfold mbind at 1, Eff_bind at 1. cbn [auth_table kv_store with_f_ptr].
  rewrite p3_clear_sequential.
  unfold mbind at 1, Eff_bind at 1. rewrite p3_clear_sequential.
  rewrite Hlu, Hlp, <- !(table_of_nil str_hash).
  destruct Hu as (Hu0 & Hu1 & Hu2), Hp as (Hp0 & Hp1 & Hp2).
  pose proof (consistent_NoDup_keys str_hash users
                (conj Hu0 (conj Hu1 Hu2))) as Hndu.
  pose proof (consistent_NoDup_keys str_hash pairs
                (conj Hp0 (conj Hp1 Hp2))) as Hndp.
  pose proof (table_of_concat str_hash users Hu1) as Htu.
  pose proof (table_of_concat str_hash pairs Hp1) as Htp.
  assert (0 < length users) as Hnu by (destruct users; [done|cbn; lia]).
  assert (0 < length pairs) as Hnp by (destruct pairs; [done|cbn; lia]).
  revert Hus Hps Hndu Hndp Htu Htp.
  generalize (concat users) (concat pairs). intros la lk Hus Hps Hndu Hndp.
  intros Htu Htp.
  pose proof (length_flat_map_ge
                (λ kv : string * vec, kv_record KVENTRY kv.1 kv.2) lk
                (λ kv, kv_record_length _ _ _)) as Hgk.
  pose proof (length_flat_map_ge
                (λ kv : string * AuthTableEntry, auth_record kv.2) la
                (λ kv, auth_record_length _)) as Hga.
  destruct (decide (lk = [] ∧ la = [])) as [[-> ->]|Hne].
  - rewrite bool_decide_true by done.
    rewrite (bool_decide_true (_ ∧ _)) by done.
    cbn [mret Eff_ret]. by rewrite Htu, Htp.
  - rewrite bool_decide_false.
    2:{ rewrite length_app. intros H0. apply Hne.
        split; apply length_zero_iff_nil; lia. }
    rewrite (bool_decide_false (_ ∧ _)) by done.
    unfold mbind at 1, Eff_bind at 1.
    assert (∃ r, length (kv_bytes lk ++ auth_bytes la)
                 = length lk + (length la + r)) as [r ->].
    { exists (length (kv_bytes lk ++ auth_bytes la) - length lk - length la).
      rewrite length_app. lia. }
    pose proof (load_loop_records kv_store with_kv_store
                  (λ kv : string * vec, kv_record KVENTRY kv.1 kv.2)
                  (λ kv, short_string kv.1 ∧ short_vec kv.2)
                  (λ st t, eq_refl) (λ st t t', eq_refl)
                  (λ st, ltac:(by destruct st))
                  (λ kv, kv_record_length _ _ _)
                  (λ data pre rest kv st fs Hd Hok,
                     load_record_kventry data pre rest kv.1 kv.2 st fs Hd
                       (proj1 Hok) (proj2 Hok))
                  (length pairs) lk [] [] (auth_bytes la) (length la + r))
      as Hkv.
    cbn [app length] in Hkv. rewrite Hkv; clear Hkv;
      [|done|done|done|apply Forall_forall; intros [k v] Hin; by apply Hps].
    pose proof (load_loop_records auth_table with_auth_table
                  (λ kv : string * AuthTableEntry, auth_record kv.2)
                  (λ kv, username kv.2 = kv.1 ∧ short_string kv.1
                         ∧ short_string (pass_hash kv.2)
                         ∧ short_vec (content kv.2))
                  (λ st t, eq_refl) (λ st t t', eq_refl)
                  (λ st, ltac:(by destruct st))
                  (λ kv, auth_record_length _) load_record_user
                  (length users) la [] (kv_bytes lk) [] r) as Hauth.
    cbn [app] in Hauth. rewrite !app_nil_r in Hauth.
    rewrite Hauth; clear Hauth;
      [|done|done|done|apply Forall_forall; intros [k e] Hin; by apply Hus].
    rewrite load_loop_end. cbn [mret Eff_ret]. by rewrite Htu, Htp.
Qed.

(** X12.  [persist] then [load] of [p3], where [load] runs on any storage
    of the same file name and bucket counts (the one that persisted, or a
    new one after a restart).  When the tables are consistent, every user
    is stored under its own name, and every length fits in an [int]:
    [load] returns true, changes no file, and leaves exactly the tables
    that were persisted, bucket by bucket.  The stream is reopened for
    appending, except when both tables were empty: the early return on an
    empty file leaves it open for reading only. *)
Theorem p3_load_after_persist (st st0 : Storage) (fs : files) :
  f_ptr st ≠ Closed →
  consistent str_hash (auth_table st) →
  consistent str_hash (kv_store st) →
  (∀ k e, (k, e) ∈ concat (auth_table st) →
     username e = k ∧ short_string k ∧ short_string (pass_hash e)
     ∧ short_vec (content e)) →
  (∀ k v, (k, v) ∈ concat (kv_store st) → short_string k ∧ short_vec v) →
  filename st0 = filename st →
  length (auth_table st0) = length (auth_table st) →
  length (kv_store st0) = length (kv_store st) →
  ∃ fs1,
    persist st fs = Some (with_f_ptr st Closed, fs1) ∧
    load str_hash st0 fs1
    = Some ((true,
             {| auth_table := auth_table st; kv_store := kv_store st;
                filename := filename st;
                f_ptr := if bool_decide (concat (kv_store st) = []
                                         ∧ concat (auth_table st) = [])
                         then Reading (filename st)
                         else Writing (filename st) |}), fs1).
Proof.
  intros Hopen Hu Hp Hus Hps Hname Hlu Hlp. eexists.
  split; [by apply p3_persist_result|].
  rewrite <- Hname.
  apply load_snapshot; try done.
  rewrite Hname. by rewrite lookup_insert_eq.
Qed.
End p3_load_facts.

Lemma p3_with_key_consistent :
  consistent samples.length_hash (p3_storage.auth_table samples.p3_with_key)
  ∧ consistent samples.length_hash (p3_storage.kv_store samples.p3_with_key).
Proof.
  split; (split; [discriminate|split]).
  - intros index elements key val Hel Hin.
    destruct index as [|index]; [|done]. done.
  - intros index elements Hel.
    destruct index as [|index]; [|done]. injection Hel as <-.
    apply (bool_decide_unpack _). by vm_compute.
  - intros index elements key val Hel Hin.
    destruct index as [|index]; [|done]. done.
  - intros index elements Hel.
    destruct index as [|index]; [|done]. injection Hel as <-.
    apply (bool_decide_unpack _). by vm_compute.
Qed.

Lemma p3_load_after_persist_witness :
  ∃ fs1,
    p3_storage.persist samples.p3_with_key ∅
    = Some (p3_storage_rest.with_f_ptr samples.p3_with_key Closed, fs1) ∧
    p3_storage_rest.load samples.length_hash (p3_storage.new "db" 1) fs1
    = Some ((true, samples.p3_with_key), fs1).
Proof.
  destruct (p3_load_after_persist samples.length_hash samples.p3_with_key
              (p3_storage.new "db" 1) ∅) as (fs1 & H1 & H2).
  - discriminate.
  - apply p3_with_key_consistent.
  - apply p3_with_key_consistent.
  - intros k e Hin. apply list_elem_of_singleton in Hin.
    injection Hin as -> ->. by vm_compute.
  - intros k v Hin. apply list_elem_of_singleton in Hin.
    injection Hin as -> ->. by vm_compute.
  - reflexivity.
  - reflexivity.
  - reflexivity.
  - exists fs1. split; [exact H1 | exact H2].
Defined.

(** ** The commands of [p3] *)

Section p3_session_facts.
Import p3_storage p3_storage_rest.
Variable str_hash : string → nat.
Variable hashed : vec.

#[local] Existing Instance storage_locking.

Local Abbreviation login_error := (vec_from_string RES_ERR_LOGIN).

(** X13.  A request whose authentication fails: every command of the
    storage answers [ERR_LOGIN], as an error where the answer has a flag,
    and leaves the tables, the stream and the files as they are.  Nothing
    is logged. *)
Theorem p3_failed_login (st : Storage) (user pass key who : string)
    (val : vec) (fs : files) :
  auth str_hash hashed user pass st = Some (false, st) →
  set_user_data str_hash hashed user pass val st fs
    = Some ((login_error, st), fs) ∧
  get_user_data str_hash hashed user pass who st fs
    = Some (((true, login_error), st), fs) ∧
  get_all_users str_hash hashed user pass st fs
    = Some (((true, login_error), st), fs) ∧
  kv_insert str_hash hashed user pass key val st fs
    = Some ((login_error, st), fs) ∧
  kv_get str_hash hashed user pass key st fs
    = Some (((true, login_error), st), fs) ∧
  kv_delete str_hash hashed user pass key st fs
    = Some ((login_error, st), fs) ∧
  kv_upsert str_hash hashed user pass key val st fs
    = Some ((login_error, st), fs) ∧
  kv_all str_hash hashed user pass st fs
    = Some (((true, login_error), st), fs).
Proof.
  intros Hauth.
  unfold set_user_data, get_user_data, get_all_users, kv_insert, kv_get,
    kv_delete, kv_upsert, kv_all.
  rewrite !Hauth. by repeat split.
Qed.

Local Abbreviation key_error := (vec_from_string RES_ERR_KEY).







Local Abbreviation lines l :=
  (flat_map (λ kv, vec_from_string kv.1 ++ [Byte.x0a]) l).

Lemma lines_fold {V} (l : list (string * V)) (d : vec) :
  foldl (λ (values : vec) (kv : string * V),
           vec_append (vec_append values (vec_from_string kv.1)) [Byte.x0a])
    d l
  = d ++ lines l.
Proof.
  revert d. induction l as [|kv l IH]; intros d; cbn [foldl flat_map].
  - by rewrite app_nil_r.
  - rewrite IH. unfold vec_append. by rewrite <- !app_assoc.
Qed.

Lemma lines_scan {V} (t : table string V) :
  p3_hashtable.do_all_readonly
    (λ (key : string) (_ : V),
       modify (λ values : vec,
         vec_append (vec_append values (vec_from_string key)) [Byte.x0a]))
    (mret ()) t []
  = Some ((), lines (concat t)).
Proof.
  rewrite (p3_do_all_readonly_fold
             (λ (key : string) (_ : V) (values : vec),
                vec_append (vec_append values (vec_from_string key))
                  [Byte.x0a])).
  unfold mret, Eff_ret. cbn [mbind option_bind]. by rewrite lines_fold.
Qed.

(** X16.  The two listings of [p3], for an authenticated user.
    [get_all_users] returns the names of the user table and [kv_all] the
    keys of the key/value store, each one followed by a newline, bucket by
    bucket and within a bucket in the order of insertion; [kv_all] answers
    [ERR_NO_DATA] when the store holds no pair.  Nothing changes. *)
Theorem p3_listings (st : Storage) (user pass : string) (fs : files) :
  auth str_hash hashed user pass st = Some (true, st) →
  get_all_users str_hash hashed user pass st fs
  = Some (((false, lines (concat (auth_table st))), st), fs) ∧
  kv_all str_hash hashed user pass st fs
  = Some ((match concat (kv_store st) with
           | [] => (true, vec_from_string RES_ERR_NO_DATA)
           | l => (false, lines l)
           end, st), fs).
Proof.
  intros Hauth. unfold get_all_users, kv_all. rewrite !Hauth. eff_bind.
  rewrite !lines_scan. cbn. split; [done|].
  destruct (concat (kv_store st)) as [|[k v] l]; [done|].
  rewrite bool_decide_false; [done|].
  cbn [flat_map]. rewrite !length_app. cbn. lia.
Qed.
End p3_session_facts.

(** ** Two commands in a row *)

Section p3_two_call_facts.
Import p3_storage p3_storage_rest.
Variable str_hash : string → nat.
Variables hashed hashed' : vec.

#[local] Existing Instance storage_locking.

Local Abbreviation key_error := (vec_from_string RES_ERR_KEY).


End p3_two_call_facts.

Lemma p3_failed_login_witness :
  let st := samples.p3_with_key in
  let h := samples.length_hash in
  let d := samples.plain_digest "pw" in
  p3_storage.auth h d "bob" "pw" st = Some (false, st) ∧
  p3_storage.kv_upsert h d "bob" "pw" "k" [Byte.x02] st ∅
  = Some ((vec_from_string RES_ERR_LOGIN, st), ∅) ∧
  p3_storage_rest.kv_delete h d "bob" "pw" "k" st ∅
  = Some ((vec_from_string RES_ERR_LOGIN, st), ∅).
Proof.
  cbv zeta. split; [reflexivity|].
  destruct (p3_failed_login samples.length_hash (samples.plain_digest "pw")
              samples.p3_with_key "bob" "pw" "k" "alice" [Byte.x02] ∅
              eq_refl) as (_ & _ & _ & _ & _ & Hdel & Hups & _).
  split; [exact Hups | exact Hdel].
Defined.



Lemma p3_listings_witness :
  let st := samples.p3_with_key in
  let h := samples.length_hash in
  let d := samples.plain_digest "pw" in
  p3_storage.auth h d "alice" "pw" st = Some (true, st) ∧
  p3_storage_rest.get_all_users h d "alice" "pw" st ∅
  = Some (((false, vec_from_string "alice" ++ [Byte.x0a]), st), ∅) ∧
  p3_storage_rest.kv_all h d "alice" "pw" st ∅
  = Some (((false, vec_from_string "k" ++ [Byte.x0a]), st), ∅).
Proof.
  cbv zeta. split; [reflexivity|].
  exact (p3_listings samples.length_hash (samples.plain_digest "pw")
           samples.p3_with_key "alice" "pw" ∅ eq_refl).
Defined.

(** ** The requests of [p1] *)

Section p1_parse_facts.
Import p1_storage p1_commands.
Variable md5_hex : string → string.

(** The loop over a field that a newline ends: it stops at the newline and
    reads nothing behind it. *)
Lemma scan_field (pre field rest : vec) (size rounds : nat) (c : Byte.byte) :
  Byte.x0a ∉ field →
  length field ≤ rounds →
  length pre + length field < size →
  head (field ++ [Byte.x0a]) = Some c →
  scan rounds (pre ++ field ++ Byte.x0a :: rest) size (length pre) c
  = Some (length pre + length field).
Proof.
  revert pre rounds c.
  induction field as [|b field IH]; intros pre rounds c Hnl Hr Hsize Hc.
  - injection Hc as <-. cbn [length]. rewrite Nat.add_0_r.
    destruct rounds; cbn [scan]; by rewrite andb_false_r.
  - injection Hc as <-. cbn [length] in *.
    destruct rounds as [|rounds]; [lia|]. cbn [scan].
    assert (is_newline b = false) as ->.
    { unfold is_newline. destruct (Byte.eqb b Byte.x0a) eqn:Heq; [|done].
      apply Byte.byte_dec_bl in Heq as ->. exfalso. apply Hnl. left. }
    rewrite bool_decide_true by lia. cbn [andb negb].
    assert (∃ c', head (field ++ [Byte.x0a]) = Some c') as [c' Hc'].
    { destruct field; by eexists. }
    assert ((pre ++ (b :: field) ++ Byte.x0a :: rest) !! S (length pre)
            = Some c') as ->.
    { rewrite lookup_app_r by lia.
      replace (S (length pre) - length pre) with 1 by lia.
      cbn. destruct field; by injection Hc' as <-. }
    cbn [mbind option_bind].
    replace (pre ++ (b :: field) ++ Byte.x0a :: rest)
      with ((pre ++ [b]) ++ field ++ Byte.x0a :: rest)
      by (by rewrite <- app_assoc).
    replace (S (length pre)) with (length (pre ++ [b]))
      by (rewrite length_app; cbn; lia).
    rewrite IH; [|by apply not_elem_of_cons in Hnl as [_ ?]|lia
                 |rewrite length_app; cbn; lia|done].
    f_equal. rewrite length_app. cbn. lia.
Qed.

Lemma string_at_field (pre rest : vec) (s : string) :
  string_at (pre ++ vec_from_string s ++ rest) (length pre)
    (Z.of_nat (String.length s))
  = Some s.
Proof.
  unfold string_at. rewrite Nat2Z.id.
  rewrite bool_decide_true by lia.
  rewrite bool_decide_true
    by (rewrite !length_app, length_vec_from_string; lia).
  cbn [andb]. rewrite <- (length_vec_from_string s).
  rewrite take_drop_middle. unfold vec_from_string.
  by rewrite String.string_of_list_byte_of_string.
Qed.

Local Abbreviation bad_reg user pass :=
  (bool_decide (String.length user = 0)
   || bool_decide (String.length pass = 0)
   || bool_decide (LEN_UNAME < String.length user)
   || bool_decide (LEN_PASS < String.length pass)).

(** X17.  [server_cmd_reg] on a request of the form user, newline,
    password, where the user name holds no newline: nothing is read behind
    the request.  The reply is [ERR_MSG_FMT], with the storage untouched,
    when the name or the password is empty or longer than its limit;
    [ERR_USER_EXISTS], with the storage untouched, when the name is
    registered; and otherwise [OK], with the user added under the digest
    of the password. *)
Theorem server_cmd_reg_well_formed (user pass : string) (req_slack : vec)
    (st : Storage) :
  Byte.x0a ∉ vec_from_string user →
  server_cmd_reg md5_hex
    (vec_from_string user ++ Byte.x0a :: vec_from_string pass) req_slack st
  = Some (if bad_reg user pass then (RES_ERR_MSG_FMT, st)
          else if exists_ user st then (RES_ERR_USER_EXISTS, st)
          else (RES_OK,
                {| auth_table :=
                     <[user := {| username := user;
                                  pass_hash := md5_hex pass;
                                  content := [] |}]> (auth_table st);
                   filename := filename st |})).
Proof.
  intros Hnl. unfold server_cmd_reg.
  rewrite <- app_assoc, <- app_comm_cons.
  rewrite length_app, length_cons, !length_vec_from_string.
  assert (∃ c, head (vec_from_string user ++ [Byte.x0a]) = Some c ∧
               (vec_from_string user
                ++ Byte.x0a :: vec_from_string pass ++ req_slack) !! 0
               = Some c) as (c & Hhead & ->).
  { destruct (vec_from_string user); by eexists. }
  cbn [mbind option_bind].
  pose proof (scan_field [] (vec_from_string user)
                (vec_from_string pass ++ req_slack)
                (String.length user + S (String.length pass))
                (String.length user + S (String.length pass)) c Hnl) as Hs.
  rewrite length_vec_from_string in Hs. cbn [app length Nat.add] in Hs.
  rewrite Hs by (done || lia). clear Hs.
  cbn [mbind option_bind].
  pose proof (string_at_field []
                (Byte.x0a :: vec_from_string pass ++ req_slack) user) as Hu.
  cbn [app length] in Hu. rewrite Hu. clear Hu.
  cbn [mbind option_bind].
  replace (Z.of_nat (String.length user + S (String.length pass))
           - Z.of_nat (String.length user) - 1)%Z
    with (Z.of_nat (String.length pass)) by lia.
  pose proof (string_at_field (vec_from_string user ++ [Byte.x0a])
                req_slack pass) as Hp.
  rewrite <- !app_assoc in Hp. cbn [app] in Hp.
  rewrite length_app, length_vec_from_string in Hp. cbn [length] in Hp.
  rewrite Hp. clear Hp. cbn [mbind option_bind].
  destruct (bad_reg user pass); [done|].
  unfold add_user. by destruct (exists_ user st).
Qed.

Local Abbreviation bad_get user pass who :=
  (bool_decide (String.length user = 0)
   || bool_decide (String.length pass = 0)
   || bool_decide (String.length who = 0)
   || bool_decide (LEN_UNAME < String.length user)
   || bool_decide (LEN_PASS < String.length pass)
   || bool_decide (LEN_UNAME < String.length who)).

(** X18.  [server_cmd_get] on a request of the form user, newline,
    password, newline, who, where neither the user name nor the password
    holds a newline.  The name it looks up is [who] followed by the byte
    that lies behind the request buffer.  When [get_user_data] reports
    content, the reply is [OK], or [ERR_MSG_FMT] for a bad length, and the
    content is not sent; otherwise the reply is the message of
    [get_user_data], read as a C string. *)
Theorem server_cmd_get_well_formed (user pass who : string) (b : Byte.byte)
    (req_slack res_slack : vec) (st : Storage) :
  Byte.x0a ∉ vec_from_string user →
  Byte.x0a ∉ vec_from_string pass →
  let who' := String.string_of_list_byte (vec_from_string who ++ [b]) in
  server_cmd_get md5_hex
    (vec_from_string user ++ Byte.x0a :: vec_from_string pass
     ++ Byte.x0a :: vec_from_string who)
    (b :: req_slack) res_slack st
  = (rv ← get_user_data md5_hex user pass who' st;
     printed ← read_c_string (rv.2 ++ res_slack);
     if negb rv.1 then Some (String.string_of_list_byte printed)
     else Some (if bad_get user pass who' then RES_ERR_MSG_FMT else RES_OK)).
Proof.
  intros Hu Hp who'. unfold server_cmd_get.
  set (u := vec_from_string user) in *. set (p := vec_from_string pass) in *.
  set (w := vec_from_string who) in *.
  assert (length u = String.length user) as Hlu
    by apply length_vec_from_string.
  assert (length p = String.length pass) as Hlp
    by apply length_vec_from_string.
  replace ((u ++ Byte.x0a :: p ++ Byte.x0a :: w) ++ b :: req_slack)
    with (u ++ Byte.x0a :: p ++ Byte.x0a :: w ++ b :: req_slack)
    by (by rewrite <- !app_assoc, <- !app_comm_cons, <- !app_assoc).
  set (memory := u ++ Byte.x0a :: p ++ Byte.x0a :: w ++ b :: req_slack).
  set (size := length (u ++ Byte.x0a :: p ++ Byte.x0a :: w)).
  assert (size = length u + S (length p + S (length w))) as Hsize.
  { unfold size. rewrite length_app, length_cons, length_app. done. }
  assert (∃ c, head (u ++ [Byte.x0a]) = Some c ∧ memory !! 0 = Some c)
    as (c & Hhead & ->).
  { unfold memory. destruct u; by eexists. }
  cbn [mbind option_bind].
  pose proof (scan_field [] u (p ++ Byte.x0a :: w ++ b :: req_slack)
                size size c Hu) as Hs.
  cbn [app length Nat.add] in Hs. fold memory in Hs.
  rewrite Hs by (done || lia). clear Hs. cbn [mbind option_bind].
  pose proof (string_at_field []
                (Byte.x0a :: p ++ Byte.x0a :: w ++ b :: req_slack) user)
    as Hus.
  cbn [app length] in Hus. fold u memory in Hus. rewrite Hlu, Hus. clear Hus.
  cbn [mbind option_bind].
  assert (memory = (u ++ [Byte.x0a]) ++ p
                   ++ Byte.x0a :: w ++ b :: req_slack) as Hmem
    by (unfold memory; by rewrite <- app_assoc).
  assert (length (u ++ [Byte.x0a]) = S (String.length user)) as Hpre
    by (rewrite length_app, Hlu; cbn; lia).
  assert (∃ c', head (p ++ [Byte.x0a]) = Some c' ∧
                memory !! S (String.length user) = Some c')
    as (c' & Hhead' & ->).
  { rewrite Hmem, <- Hpre. rewrite lookup_app_r by lia.
    rewrite Nat.sub_diag. destruct p; by eexists. }
  cbn [mbind option_bind].
  pose proof (scan_field (u ++ [Byte.x0a]) p (w ++ b :: req_slack)
                size size c' Hp) as Hs.
  rewrite <- Hmem, Hpre in Hs.
  rewrite Hs by (done || lia). clear Hs. cbn [mbind option_bind].
  replace (Z.of_nat (S (String.length user) + length p)
           - Z.of_nat (S (String.length user)))%Z
    with (Z.of_nat (String.length pass)) by lia.
  pose proof (string_at_field (u ++ [Byte.x0a])
                (Byte.x0a :: w ++ b :: req_slack) pass) as Hps.
  fold p in Hps. rewrite <- Hmem, Hpre in Hps. rewrite Hps. clear Hps.
  cbn [mbind option_bind].
  replace (Z.of_nat size - Z.of_nat (S (String.length user) + length p))%Z
    with (Z.of_nat (length (w ++ [b])))
    by (rewrite length_app; cbn [length]; lia).
  pose proof (read_bytes_at memory (u ++ Byte.x0a :: p ++ [Byte.x0a])
                req_slack (w ++ [b])
                (S (String.length user) + length p + 1)) as Hw.
  unfold p3_storage_rest.read_string in Hw. rewrite Hw; clear Hw.
  - done.
  - unfold memory. by rewrite <- !app_assoc, <- !app_comm_cons, <- !app_assoc.
  - rewrite length_app, length_cons, length_app. cbn [length]. lia.
Qed.
End p1_parse_facts.

Ltac not_in_bytes :=
  let Hin := fresh "Hin" in
  intros Hin;
  repeat (apply elem_of_cons in Hin as [Hin|Hin]; [discriminate|]);
  by apply elem_of_nil in Hin.

Lemma server_cmd_reg_well_formed_witness :
  (Byte.x0a ∉ vec_from_string "bob") ∧
  p1_commands.server_cmd_reg samples.plain_hex samples.reg_bob []
    samples.p1_with_alice
  = Some (RES_OK,
          {| p1_storage.auth_table :=
               <["bob" := {| username := "bob"; pass_hash := "pw";
                             content := [] |}]>
                 (p1_storage.auth_table samples.p1_with_alice);
             p1_storage.filename := "db" |}).
Proof.
  assert (Byte.x0a ∉ vec_from_string "bob") as Hnl by not_in_bytes.
  split; [exact Hnl|].
  exact (server_cmd_reg_well_formed samples.plain_hex "bob" "pw" []
           samples.p1_with_alice Hnl).
Defined.

Lemma server_cmd_get_well_formed_witness :
  (Byte.x0a ∉ vec_from_string "alice") ∧
  (Byte.x0a ∉ vec_from_string "x") ∧
  p1_commands.server_cmd_get samples.plain_hex samples.get_bob
    [Byte.x00] [Byte.x00] samples.p1_with_alice
  = Some RES_ERR_NO_USER.
Proof.
  assert (Byte.x0a ∉ vec_from_string "alice") as Hu by not_in_bytes.
  assert (Byte.x0a ∉ vec_from_string "x") as Hp by not_in_bytes.
  split; [exact Hu|]. split; [exact Hp|].
  exact (server_cmd_get_well_formed samples.plain_hex "alice" "x" "bob"
           Byte.x00 [] [Byte.x00] samples.p1_with_alice Hu Hp).
Defined.

(** ** The storage of [p1] *)

Section p1_storage_facts.
Import p1_storage p1_storage_rest.
Variable md5_hex : string → string.

Local Abbreviation reloaded k e :=
  {| username := k; pass_hash := pass_hash e; content := content e |}.

Lemma persist_record_layout (k : string) (e : AuthTableEntry) :
  persist_record (k, e)
  = vec_from_string AUTHENTRY ++ str_size_int k ++ vec_from_string k
    ++ str_size_int (pass_hash e) ++ vec_from_string (pass_hash e)
    ++ size_int (content e) ++ content e.
Proof.
  unfold persist_record, vec_append. cbn [app fst snd].
  destruct (content e) as [|b c] eqn:Hc.
  - rewrite bool_decide_false by (cbn; lia).
    rewrite <- !app_assoc. by rewrite app_nil_r.
  - rewrite bool_decide_true by (cbn; lia). by rewrite <- !app_assoc.
Qed.

Lemma persist_record_length (k : string) (e : AuthTableEntry) :
  length (persist_record (k, e))
  = 20 + String.length k + String.length (pass_hash e) + length (content e).
Proof.
  rewrite persist_record_layout, !length_app, !length_vec_from_string.
  unfold str_size_int, size_int. rewrite !length_int_bytes.
  change (String.length AUTHENTRY) with 8. lia.
Qed.

Lemma p1_load_loop_false (rounds : nat) (data : vec) (i : nat)
    (st : Storage) (r : bool * Storage) :
  load_loop rounds data i st = Some r → r.1 = false.
Proof.
  revert i st. induction rounds as [|rounds IH]; intros i st; cbn [load_loop].
  - destruct (bool_decide (i < length data)); [done|]. by intros [= <-].
  - destruct (bool_decide (i < length data)); [|by intros [= <-]].
    destruct (p3_storage_rest.read_int data i) as [u_size|]; [|done].
    cbn [mbind option_bind].
    destruct (p1_commands.string_at data (i + 4) u_size) as [user|]; [|done].
    cbn [mbind option_bind].
    destruct (p3_storage_rest.read_int data _) as [p_size|]; [|done].
    cbn [mbind option_bind].
    destruct (p1_commands.string_at data _ p_size) as [pass|]; [|done].
    cbn [mbind option_bind].
    destruct (p3_storage_rest.read_int data _) as [c_size|]; [|done].
    cbn [mbind option_bind].
    destruct (p1_commands.string_at data _ c_size) as [c|]; [|done].
    cbn [mbind option_bind]. apply IH.
Qed.

(** X19.  The answer of [load] of [p1].  Without the file it is [true]
    and the table is left as it is, not cleared; on an empty file it is
    [true] and the table is cleared; on a file that holds any data it is
    never [true]: when the records have been read the function returns
    [false]. *)
Theorem p1_load_answer (st : Storage) (fs : files) :
  (fs !! filename st = None → load st fs = Some (true, st)) ∧
  (fs !! filename st = Some [] →
     load st fs = Some (true, with_auth_table st ∅)) ∧
  (∀ data r,
     fs !! filename st = Some data → data ≠ [] →
     load st fs = Some r → r.1 = false).
Proof.
  unfold load. split; [by intros ->|]. split; [by intros ->|].
  intros data r -> Hne.
  rewrite bool_decide_false by (by destruct data).
  destruct (bool_decide _); [done|]. apply p1_load_loop_false.
Qed.

(** One round of the loop on a record that [persist] wrote, from the
    position behind its magic. *)
Lemma p1_load_loop_record (rounds : nat) (pre rest : vec) (k : string)
    (e : AuthTableEntry) (st : Storage) :
  (Z.of_nat (length (persist_record (k, e))) < 2 ^ 31)%Z →
  load_loop (S rounds) (pre ++ persist_record (k, e) ++ rest)
    (length pre + 8) st
  = load_loop rounds (pre ++ persist_record (k, e) ++ rest)
      (length (pre ++ persist_record (k, e)))
      (with_auth_table st (insert_new k (reloaded k e) (auth_table st))).
Proof.
  intros Hlen. rewrite persist_record_length in Hlen.
  assert (length (pre ++ persist_record (k, e))
          = length pre + 8 + 4 + String.length k + 4
            + String.length (pass_hash e) + 4 + length (content e)) as ->
    by (rewrite length_app, persist_record_length; lia).
  rewrite persist_record_layout.
  set (p := pass_hash e) in *. set (c := content e) in *.
  set (data := pre ++ _ ++ rest).
  assert (length data
          = length pre + 20 + String.length k + String.length p + length c
            + length rest) as Hdata.
  { unfold data. rewrite !length_app, !length_vec_from_string.
    unfold str_size_int, size_int. rewrite !length_int_bytes.
    change (String.length AUTHENTRY) with 8. lia. }
  assert (∀ l, length (str_size_int l) = 4) as Hi4 by done.
  assert (∀ l : vec, length (size_int l) = 4) as Hv4 by done.
  cbn [load_loop]. rewrite bool_decide_true by lia.
  rewrite (read_int_at data (pre ++ vec_from_string AUTHENTRY)
             (vec_from_string k ++ str_size_int p ++ vec_from_string p
              ++ size_int c ++ c ++ rest) _ (Z.of_nat (String.length k)));
    [|unfold data; by rewrite <- !app_assoc|by rewrite length_app|lia].
  cbn [mbind option_bind].
  rewrite (read_string_at data
             (pre ++ vec_from_string AUTHENTRY ++ str_size_int k)
             (str_size_int p ++ vec_from_string p ++ size_int c ++ c
              ++ rest) _ k);
    [|unfold data; by rewrite <- !app_assoc
     |rewrite !length_app, Hi4, length_vec_from_string;
      change (String.length AUTHENTRY) with 8; lia].
  cbn [mbind option_bind]. rewrite Nat2Z.id.
  rewrite (read_int_at data
             (pre ++ vec_from_string AUTHENTRY ++ str_size_int k
                ++ vec_from_string k)
             (vec_from_string p ++ size_int c ++ c ++ rest) _
             (Z.of_nat (String.length p)));
    [|unfold data; by rewrite <- !app_assoc
     |rewrite !length_app, Hi4, !length_vec_from_string;
      change (String.length AUTHENTRY) with 8; lia
     |lia].
  cbn [mbind option_bind].
  rewrite (read_string_at data
             (pre ++ vec_from_string AUTHENTRY ++ str_size_int k
                ++ vec_from_string k ++ str_size_int p)
             (size_int c ++ c ++ rest) _ p);
    [|unfold data; by rewrite <- !app_assoc
     |rewrite !length_app, !Hi4, !length_vec_from_string;
      change (String.length AUTHENTRY) with 8; lia].
  cbn [mbind option_bind]. rewrite Nat2Z.id.
  rewrite (read_int_at data
             (pre ++ vec_from_string AUTHENTRY ++ str_size_int k
                ++ vec_from_string k ++ str_size_int p ++ vec_from_string p)
             (c ++ rest) _ (Z.of_nat (length c)));
    [|unfold data; by rewrite <- !app_assoc
     |rewrite !length_app, !Hi4, !length_vec_from_string;
      change (String.length AUTHENTRY) with 8; lia
     |lia].
  cbn [mbind option_bind].
  rewrite (read_bytes_at data
             (pre ++ vec_from_string AUTHENTRY ++ str_size_int k
                ++ vec_from_string k ++ str_size_int p ++ vec_from_string p
                ++ size_int c)
             rest c);
    [|unfold data; by rewrite <- !app_assoc
     |rewrite !length_app, !Hi4, Hv4, !length_vec_from_string;
      change (String.length AUTHENTRY) with 8; lia].
  cbn [mbind option_bind]. rewrite Nat2Z.id.
  by rewrite vec_from_string_of_bytes.
Qed.

Lemma p1_load_loop_end (rounds : nat) (data : vec) (st : Storage) :
  load_loop rounds data (length data) st = Some (false, st).
Proof.
  destruct rounds; cbn [load_loop]; by rewrite bool_decide_false by lia.
Qed.

(** X20.  A storage of [p1] with one user, stored under its own name,
    whose record is shorter than 2^31 bytes: [persist] writes that record
    to the temporary file, and [load], on any storage of that file name,
    of a file with these bytes rebuilds the table with the one user; its
    answer is [false]. *)
Theorem p1_load_one_user (st st0 : Storage) (k : string)
    (e : AuthTableEntry) (fs fs' : files) :
  auth_table st = {[k := e]} →
  username e = k →
  (Z.of_nat (length (persist_record (k, e))) < 2 ^ 31)%Z →
  filename st0 = filename st →
  fs' !! filename st = Some (persist_record (k, e)) →
  persist st fs
  = Some ((), <[filename st +:+ ".tmp" := persist_record (k, e)]> fs) ∧
  load st0 fs' = Some (false, with_auth_table st0 {[k := e]}).
Proof.
  intros Htable Hname Hlen Hfile Hdata. split.
  - unfold persist, modify, write_file. rewrite Htable.
    by rewrite map_to_list_singleton.
  - unfold load. rewrite Hfile, Hdata.
    pose proof (persist_record_length k e) as Hl.
    rewrite bool_decide_false by lia.
    rewrite bool_decide_false by lia.
    assert (∃ rounds, length (persist_record (k, e)) = S rounds)
      as [rounds Hr] by (exists (length (persist_record (k, e)) - 1); lia).
    pose proof (p1_load_loop_record rounds [] [] k e
                  (with_auth_table st0 ∅) Hlen) as Hround.
    cbn [app length Nat.add] in Hround. rewrite app_nil_r in Hround.
    rewrite Hr, Hround, p1_load_loop_end.
    unfold insert_new, with_auth_table. cbn [auth_table filename].
    rewrite lookup_empty. do 3 f_equal.
    rewrite insert_empty. f_equal. destruct e. cbn in *. by subst.
Qed.

(** X21.  A file of [p1] that holds the records of two or more users, as
    [persist] writes them one after the other, and is shorter than 2^30
    bytes: [load] has no defined outcome.  The loop starts behind the magic
    of the first record only; in the second round it reads the magic of
    the second record as a length of 1213486401 and the name behind it,
    which lies outside the data. *)
Theorem p1_load_two_users (x1 x2 : string * AuthTableEntry) (rest : vec)
    (st : Storage) (fs : files) :
  let data := persist_record x1 ++ persist_record x2 ++ rest in
  (Z.of_nat (length data) < 2 ^ 30)%Z →
  fs !! filename st = Some data →
  load st fs = None.
Proof.
  destruct x1 as [k1 e1], x2 as [k2 e2]. intros data Hlen Hdata.
  unfold load. rewrite Hdata.
  pose proof (persist_record_length k1 e1) as Hl1.
  pose proof (persist_record_length k2 e2) as Hl2.
  assert (length data = length (persist_record (k1, e1))
                        + length (persist_record (k2, e2)) + length rest)
    as Hl by (unfold data; rewrite !length_app; lia).
  rewrite bool_decide_false by lia.
  rewrite bool_decide_false by lia.
  assert (∃ rounds, length data = S (S rounds)) as [rounds Hr]
    by (exists (length data - 2); lia).
  rewrite Hr.
  pose proof (p1_load_loop_record (S rounds) []
                (persist_record (k2, e2) ++ rest) k1 e1
                (with_auth_table st ∅)) as Hround.
  cbn [app length Nat.add] in Hround. fold data in Hround.
  rewrite Hround by lia. clear Hround.
  cbn [load_loop]. rewrite bool_decide_true by lia.
  rewrite (read_int_at data (persist_record (k1, e1))
             (drop 4 (persist_record (k2, e2)) ++ rest) _ 1213486401%Z);
    [|unfold data; rewrite (persist_record_layout k2 e2); done|done|lia].
  cbn [mbind option_bind].
  unfold p1_commands.string_at.
  rewrite bool_decide_true by lia.
  rewrite (bool_decide_false (_ ≤ length data)) by lia.
  done.
Qed.

Lemma error_check_auth (user pass : string) (st : Storage) :
  auth md5_hex user pass st = Some true →
  exists_ user st = true ∧
  error_check md5_hex user pass st = Some (false, vec_from_string RES_OK).
Proof.
  intros Hauth. unfold error_check, exists_. rewrite Hauth.
  unfold auth in Hauth.
  destruct (auth_table st !! user) as [entry|]; [|done].
  by rewrite bool_decide_true.
Qed.

(** X22.  [set_user_data] of [p1] by a user who authenticates, when the
    trace line finds a NUL in the content or behind it, then
    [get_user_data]: the first answers [OK] and the user still
    authenticates; the second returns the new content for that user, or
    [ERR_NO_DATA], flagged [false], when the content is empty, and for
    every other name what it returned before. *)
Theorem p1_set_then_get_user_data (user pass : string)
    (c content_slack : vec) (st : Storage) :
  auth md5_hex user pass st = Some true →
  is_Some (p1_commands.read_c_string (c ++ content_slack)) →
  ∃ st1,
    set_user_data md5_hex user pass c content_slack st
    = Some (vec_from_string RES_OK, st1) ∧
    auth md5_hex user pass st1 = Some true ∧
    get_user_data md5_hex user pass user st1
    = Some (match c with
            | [] => (false, vec_from_string RES_ERR_NO_DATA)
            | _ => (true, c)
            end) ∧
    ∀ who, who ≠ user →
      get_user_data md5_hex user pass who st1
      = get_user_data md5_hex user pass who st.
Proof.
  intros Hauth [printed Hprinted].
  destruct (error_check_auth user pass st Hauth) as [Hex Hcheck].
  unfold set_user_data. rewrite Hcheck. cbn [mbind option_bind fst snd].
  pose proof Hauth as Hentry. unfold auth in Hentry.
  destruct (auth_table st !! user) as [entry|] eqn:Huser; [|done].
  cbn [mbind option_bind] in *. rewrite Hprinted. cbn [mbind option_bind].
  eexists. split; [done|].
  assert (auth md5_hex user pass
            (with_auth_table st
               (<[user := p3_storage_rest.with_content entry c]>
                  (auth_table st)))
          = Some true) as Hauth'.
  { unfold auth. cbn [auth_table with_auth_table].
    rewrite lookup_insert_eq. exact Hentry. }
  split; [exact Hauth'|].
  unfold get_user_data, exists_. rewrite !Hauth', Hauth.
  cbn [auth_table with_auth_table]. rewrite !lookup_insert_eq, Huser.
  rewrite !bool_decide_true by done. cbn [negb mbind option_bind].
  split; [by destruct c|].
  intros who Hwho. by rewrite lookup_insert_ne.
Qed.

Local Abbreviation name_lines l :=
  (flat_map (λ kv : string * AuthTableEntry,
               vec_from_string kv.1 ++ [Byte.x0a]) l).

(** X23.  [get_all_users] of [p1] for a user who authenticates, when the
    loop visits the pairs of the user table in the order [elements], any
    permutation of them: the answer holds as many zero bytes as there are
    users, and behind them the users' names in the order of the visit,
    each one followed by a newline.  Every registered name is there once
    and no other name is. *)
Theorem p1_get_all_users_zero_bytes (user pass : string)
    (elements : list (string * AuthTableEntry)) (st : Storage) :
  auth md5_hex user pass st = Some true →
  elements ≡ₚ map_to_list (auth_table st) →
  get_all_users md5_hex user pass elements st
  = Some (true,
          replicate (size (auth_table st)) Byte.x00 ++ name_lines elements) ∧
  NoDup elements.*1 ∧
  ∀ name, name ∈ elements.*1 ↔ is_Some (auth_table st !! name).
Proof.
  intros Hauth Hvisit.
  destruct (error_check_auth user pass st Hauth) as [_ Hcheck].
  unfold get_all_users. rewrite Hcheck. cbn [mbind option_bind fst snd].
  split; [do 2 f_equal; apply lines_fold|].
  split.
  - rewrite Hvisit. apply NoDup_fst_map_to_list.
  - intros name. rewrite Hvisit, list_elem_of_fmap. split.
    + intros ([name' entry] & -> & Hin).
      apply elem_of_map_to_list in Hin. by exists entry.
    + intros [entry Hentry]. exists (name, entry).
      split; [done|]. by apply elem_of_map_to_list.
Qed.
End p1_storage_facts.

Lemma p1_load_answer_witness :
  p1_storage_rest.load (p1_storage.new "db") ∅
  = Some (true, p1_storage.new "db") ∧
  ∃ r,
    p1_storage_rest.load (p1_storage.new "db") {[ "db" := [Byte.x01] ]}
    = Some r ∧
    r.1 = false.
Proof.
  destruct (p1_load_answer (p1_storage.new "db") ∅) as (Hnone & _ & _).
  split; [by apply Hnone|].
  destruct (p1_load_answer (p1_storage.new "db") {[ "db" := [Byte.x01] ]})
    as (_ & _ & Hdata).
  eexists. split; [reflexivity|].
  by apply (Hdata [Byte.x01]).
Defined.

Lemma p1_load_one_user_witness :
  let st := samples.p1_with_alice in
  let record := p1_storage.persist_record ("alice", samples.alice) in
  p1_storage.persist st ∅ = Some ((), {[ "db.tmp" := record ]}) ∧
  p1_storage_rest.load (p1_storage.new "db") {[ "db" := record ]}
  = Some (false, st).
Proof.
  cbv zeta.
  destruct (p1_load_one_user samples.p1_with_alice (p1_storage.new "db")
              "alice" samples.alice ∅
              {[ "db" := p1_storage.persist_record ("alice", samples.alice) ]})
    as [Hpersist Hload].
  - reflexivity.
  - reflexivity.
  - by vm_compute.
  - reflexivity.
  - reflexivity.
  - split; [exact Hpersist | exact Hload].
Defined.

Lemma p1_load_two_users_witness :
  let bob := {| username := "bob"; pass_hash := "y"; content := [] |} in
  let data := p1_storage.persist_record ("alice", samples.alice)
              ++ p1_storage.persist_record ("bob", bob) in
  p1_storage_rest.load (p1_storage.new "db") {[ "db" := data ]} = None.
Proof.
  cbv zeta.
  apply (p1_load_two_users ("alice", samples.alice)
           ("bob", {| username := "bob"; pass_hash := "y"; content := [] |})
           [] (p1_storage.new "db")).
  - by vm_compute.
  - by rewrite app_nil_r.
Defined.

Lemma p1_set_then_get_user_data_witness :
  let st := samples.p1_with_alice in
  p1_storage.auth samples.plain_hex "alice" "x" st = Some true ∧
  ∃ st1,
    p1_storage_rest.set_user_data samples.plain_hex "alice" "x" [Byte.x07]
      [Byte.x00] st
    = Some (vec_from_string RES_OK, st1) ∧
    p1_storage.get_user_data samples.plain_hex "alice" "x" "alice" st1
    = Some (true, [Byte.x07]).
Proof.
  cbv zeta. split; [reflexivity|].
  destruct (p1_set_then_get_user_data samples.plain_hex "alice" "x"
              [Byte.x07] [Byte.x00] samples.p1_with_alice eq_refl)
    as (st1 & Hset & _ & Hget & _).
  - by eexists.
  - exists st1. split; [exact Hset | exact Hget].
Defined.

Lemma p1_get_all_users_zero_bytes_witness :
  let st := samples.p1_with_alice_and_bob in
  let elements := [("bob", samples.bob); ("alice", samples.alice)] in
  p1_storage.auth samples.plain_hex "alice" "x" st = Some true ∧
  elements ≡ₚ map_to_list (p1_storage.auth_table st) ∧
  p1_storage_rest.get_all_users samples.plain_hex "alice" "x" elements st
  = Some (true,
          [Byte.x00; Byte.x00] ++ vec_from_string "bob" ++ [Byte.x0a]
          ++ vec_from_string "alice" ++ [Byte.x0a]).
Proof.
  cbv zeta.
  assert ([("bob", samples.bob); ("alice", samples.alice)]
          ≡ₚ map_to_list
               (p1_storage.auth_table samples.p1_with_alice_and_bob))
    as Hvisit.
  { unfold samples.p1_with_alice_and_bob. cbn [p1_storage.auth_table].
    rewrite map_to_list_insert by done.
    by rewrite map_to_list_singleton. }
  split; [reflexivity|]. split; [exact Hvisit|].
  destruct (p1_get_all_users_zero_bytes samples.plain_hex "alice" "x"
              [("bob", samples.bob); ("alice", samples.alice)]
              samples.p1_with_alice_and_bob eq_refl Hvisit) as [-> _].
  reflexivity.
Defined.

(** ** The log of [p3] *)

Section p3_log_facts.
Import p3_storage p3_storage_rest.
Variable str_hash : string → nat.
Variable hashed : vec.

#[local] Existing Instance storage_locking.






(** The state of the file system is not used by the table operations of
    [load], whose callbacks are empty: their outcome is the same in every
    file system, which they leave alone. *)
Local Abbreviation pure m :=
  (∃ r, ∀ fs : files, m fs = (x ← r; Some (x, fs))).










Local Abbreviation short_string s :=
  (Z.of_nat (String.length s) < 2 ^ 31)%Z.
Local Abbreviation short_vec v := (Z.of_nat (length v) < 2 ^ 31)%Z.

Ltac vec_len :=
  rewrite ?length_app, ?length_vec_from_string;
  unfold str_size_int, size_int; rewrite ?length_int_bytes;
  change (String.length KVUPDATE) with 8;
  change (String.length KVDELETE) with 8;
  change (String.length AUTHDIFF) with 8;
  lia.
















End p3_log_facts.


(** ** The log record of a registration *)

Section p3_add_user_facts.
Import p3_storage p3_storage_rest.
Variable str_hash : string → nat.
Variable hashed : vec.

#[local] Existing Instance storage_locking.

Local Abbreviation in_memory user :=
  {| username := user; pass_hash := c_string hashed; content := [] |}.
Local Abbreviation in_log user :=
  {| username := user;
     pass_hash := String.string_of_list_byte (take 16 hashed);
     content := [] |}.



End p3_add_user_facts.


(** ** The receive loops of [p1] *)

Section net_facts.
Import net.

Lemma stream_cons_data (first : Byte.byte) (more : vec)
    (rest : list arrival) :
  stream (Data first more :: rest) = first :: more ++ stream rest.
Proof. done. Qed.

Lemma interrupts_only_tail (a : arrival) (rest : list arrival) :
  interrupts_only (a :: rest) → interrupts_only rest.
Proof. intros Hint error Hin. apply Hint. by right. Qed.

(** What [recv] returns when the whole chunk fits. *)
Lemma recv_whole (remain : nat) (first : Byte.byte) (more : vec)
    (rest : list arrival) (e : Z) :
  length (first :: more) ≤ remain →
  recv remain {| incoming := Data first more :: rest; errno := e |}
  = (Z.of_nat (length (first :: more)), first :: more,
     {| incoming := rest; errno := e |}).
Proof.
  intros Hlen. unfold recv. cbn [incoming errno].
  rewrite take_ge by done. by rewrite drop_ge by done.
Qed.

(** What it returns when only a part fits. *)
Lemma recv_part (remain : nat) (first : Byte.byte) (more : vec)
    (rest : list arrival) (e : Z) :
  remain < length (first :: more) →
  ∃ b bytes,
    drop remain (first :: more) = b :: bytes ∧
    recv remain {| incoming := Data first more :: rest; errno := e |}
    = (Z.of_nat remain, take remain (first :: more),
       {| incoming := Data b bytes :: rest; errno := e |}).
Proof.
  intros Hlen. unfold recv. cbn [incoming errno].
  destruct (drop remain (first :: more)) as [|b bytes] eqn:Hdrop.
  { apply (f_equal length) in Hdrop. rewrite length_drop in Hdrop.
    cbn [length] in *. lia. }
  exists b, bytes. split; [done|].
  by rewrite length_take, Nat.min_l by lia.
Qed.

Lemma get_to_eof_or_n_round (rounds remain : nat) (stored : vec)
    (sd : socket) :
  remain ≠ 0 →
  reliable_get_to_eof_or_n (S rounds) remain stored sd
  = (let '(rcd, got, sd) := recv remain sd in
     if bool_decide (rcd ≤ 0)%Z then
       if bool_decide (errno sd ≠ EINTR) then
         if bool_decide (rcd = 0%Z)
         then Some (Z.of_nat (length stored), stored, sd)
         else Some ((-1)%Z, stored, sd)
       else reliable_get_to_eof_or_n rounds remain stored sd
     else
       reliable_get_to_eof_or_n rounds (remain - length got)
         (stored ++ got) sd).
Proof.
  intros Hne. cbn [reliable_get_to_eof_or_n].
  by rewrite bool_decide_false by done.
Qed.

(** X26.  [reliable_get_to_eof_or_n] when the connection closes before
    [amnt] bytes have arrived and the only failures are interrupted
    calls.  When no call fails and [errno] was not [EINTR] before, the
    function returns the number of bytes that arrived, all of them stored
    in order.  When a call was interrupted, or [errno] was [EINTR] before,
    the function does not return, however many rounds it is given: at the
    end of the data [recv] returns 0 and leaves [errno] as it is, so the
    loop takes the end for an interrupted call and calls [recv] again. *)
Theorem get_to_eof_or_n_short (arrivals : list arrival) (e0 : Z)
    (amnt : nat) :
  interrupts_only arrivals →
  length (stream arrivals) < amnt →
  let sd := {| incoming := arrivals; errno := e0 |} in
  ((∀ error, Failure error ∉ arrivals) → e0 ≠ EINTR →
   reliable_get_to_eof_or_n (S (length arrivals)) amnt [] sd
   = Some (Z.of_nat (length (stream arrivals)), stream arrivals,
           {| incoming := []; errno := e0 |})) ∧
  ((∃ error, Failure error ∈ arrivals) ∨ e0 = EINTR →
   ∀ rounds, reliable_get_to_eof_or_n rounds amnt [] sd = None).
Proof.
  intros Hint Hshort sd. subst sd. split.
  - intros Hclean He0.
    assert (∀ stored remain,
      length (stream arrivals) < remain →
      reliable_get_to_eof_or_n (S (length arrivals)) remain stored
        {| incoming := arrivals; errno := e0 |}
      = Some (Z.of_nat (length (stored ++ stream arrivals)),
              stored ++ stream arrivals,
              {| incoming := []; errno := e0 |})) as Hgen.
    { clear Hshort Hint. induction arrivals as [|a arrivals IH];
        intros stored remain Hlen.
      - rewrite get_to_eof_or_n_round by lia. cbn.
        rewrite !bool_decide_true by (done || lia).
        by rewrite app_nil_r.
      - destruct a as [first more|error].
        2:{ exfalso. apply (Hclean error). left. }
        rewrite stream_cons_data in *. cbn [length] in Hlen.
        rewrite length_app in Hlen.
        cbn [length]. rewrite get_to_eof_or_n_round by lia.
        rewrite recv_whole by (cbn [length]; lia).
        rewrite bool_decide_false by (cbn [length]; lia).
        rewrite IH.
        + by rewrite <- app_assoc.
        + intros error Hin. apply (Hclean error). by right.
        + cbn [length]. lia. }
    by apply Hgen.
  - intros Hbad rounds.
    assert (∀ stored remain e,
      interrupts_only arrivals →
      length (stream arrivals) < remain →
      (∃ error, Failure error ∈ arrivals) ∨ e = EINTR →
      reliable_get_to_eof_or_n rounds remain stored
        {| incoming := arrivals; errno := e |} = None) as Hgen.
    { clear. revert arrivals.
      induction rounds as [|rounds IH];
        intros arrivals stored remain e Hint Hlen Hbad.
      { cbn. by rewrite bool_decide_false by lia. }
      rewrite get_to_eof_or_n_round by lia.
      destruct arrivals as [|[first more|error] arrivals].
      - destruct Hbad as [[error Hin]| ->]; [by apply elem_of_nil in Hin|].
        cbn. by apply IH; [|cbn; lia|right].
      - rewrite stream_cons_data in Hlen. cbn [length] in Hlen.
        rewrite length_app in Hlen.
        rewrite recv_whole by (cbn [length]; lia).
        rewrite bool_decide_false by (cbn [length]; lia).
        apply IH; [by apply interrupts_only_tail in Hint|cbn [length]; lia|].
        destruct Hbad as [[error Hin]|He]; [left|by right].
        exists error. by apply elem_of_cons in Hin as [?|?].
      - assert (error = EINTR) as -> by (apply Hint; left).
        cbn. apply IH; [by apply interrupts_only_tail in Hint|done
                       |by right]. }
    by apply Hgen.
Qed.

Lemma get_to_eof_or_n_done (rounds : nat) (stored : vec) (sd : socket) :
  reliable_get_to_eof_or_n rounds 0 stored sd
  = Some (Z.of_nat (length stored), stored, sd).
Proof. by destruct rounds. Qed.

Lemma get_to_eof_or_n_enough_from (rounds : nat) (arrivals : list arrival)
    (stored : vec) (remain : nat) (e : Z) :
  interrupts_only arrivals →
  remain ≤ length (stream arrivals) →
  remain + length arrivals ≤ rounds →
  ∃ sd',
    reliable_get_to_eof_or_n rounds remain stored
      {| incoming := arrivals; errno := e |}
    = Some (Z.of_nat (length stored + remain),
            stored ++ take remain (stream arrivals), sd') ∧
    stream (incoming sd') = drop remain (stream arrivals).
Proof.
  revert arrivals stored remain e.
  induction rounds as [|rounds IH];
    intros arrivals stored remain e Hint Hlen Hrounds.
  { assert (remain = 0) as -> by lia. eexists.
    rewrite get_to_eof_or_n_done, take_0, app_nil_r, Nat.add_0_r. done. }
  destruct (decide (remain = 0)) as [->|Hpos].
  { eexists.
    rewrite get_to_eof_or_n_done, take_0, app_nil_r, Nat.add_0_r. done. }
  rewrite get_to_eof_or_n_round by done.
  destruct arrivals as [|[first more|error] arrivals].
  - cbn in Hlen. lia.
  - rewrite stream_cons_data in *. cbn [length] in Hrounds.
    rewrite app_comm_cons in *. set (chunk := first :: more) in *.
    rewrite length_app in Hlen.
    destruct (decide (length chunk ≤ remain)) as [Hfits|Hpart].
    + rewrite recv_whole by done. fold chunk.
      rewrite bool_decide_false by (unfold chunk; cbn [length]; lia).
      destruct (IH arrivals (stored ++ chunk) (remain - length chunk) e)
        as (sd' & -> & Hrest);
        [by apply interrupts_only_tail in Hint|lia
        |unfold chunk in *; cbn [length] in *; lia|].
      exists sd'. split.
      * rewrite length_app, <- app_assoc, take_app_ge by done.
        do 3 f_equal. lia.
      * by rewrite drop_app_ge.
    + destruct (recv_part remain first more arrivals e)
        as (b & bytes & Hdrop & ->); [fold chunk; lia|].
      fold chunk in Hdrop |- *.
      rewrite bool_decide_false by lia.
      rewrite length_take, Nat.min_l, Nat.sub_diag by lia.
      eexists. split.
      * rewrite get_to_eof_or_n_done.
        rewrite length_app, length_take, Nat.min_l by lia.
        by rewrite take_app_le by lia.
      * cbn [incoming]. rewrite stream_cons_data, app_comm_cons, <- Hdrop.
        by rewrite drop_app_le by lia.
  - assert (error = EINTR) as -> by (apply Hint; left).
    change (stream (Failure EINTR :: arrivals)) with (stream arrivals) in *.
    cbn [recv incoming errno]. rewrite bool_decide_true by done.
    rewrite bool_decide_false by (by intros []).
    cbn [length] in Hrounds.
    apply IH; [by apply interrupts_only_tail in Hint|done|lia].
Qed.

(** X27.  [reliable_get_to_eof_or_n] when [amnt] bytes or more arrive
    before the connection closes, in chunks of any sizes and between any
    number of interrupted calls: the function returns [amnt] and has
    stored the first [amnt] bytes in order; the bytes behind them are
    still to be received. *)
Theorem get_to_eof_or_n_enough (arrivals : list arrival) (e0 : Z)
    (amnt : nat) :
  interrupts_only arrivals →
  amnt ≤ length (stream arrivals) →
  ∃ sd',
    reliable_get_to_eof_or_n (amnt + length arrivals) amnt []
      {| incoming := arrivals; errno := e0 |}
    = Some (Z.of_nat amnt, take amnt (stream arrivals), sd') ∧
    stream (incoming sd') = drop amnt (stream arrivals).
Proof.
  intros Hint Hlen.
  by apply (get_to_eof_or_n_enough_from _ arrivals [] amnt e0).
Qed.

(** While fewer than [2^31] bytes are held and the free part of the buffer
    is an [int], the conversions of the loop change nothing. *)
Lemma remain_in_range (size len : nat) :
  len < size →
  (Z.of_nat size - Z.of_nat len ≤ INT_MAX)%Z →
  Z.to_nat (to_size_t (to_int (Z.of_nat size - Z.of_nat len))) = size - len.
Proof.
  intros Hlen Hfree. unfold to_size_t, to_int, INT_MAX in *.
  rewrite (Z.mod_small (_ + _)) by lia.
  rewrite Z.mod_small by lia. lia.
Qed.

Lemma full_in_range (size len : nat) :
  (Z.of_nat len ≤ INT_MAX)%Z →
  (Z.of_nat size ≤ 2 * INT_MAX)%Z →
  Z.of_nat len = to_int (Z.of_nat size) ↔ len = size.
Proof.
  intros Hlen Hsize. unfold to_int, INT_MAX in *.
  destruct (decide (Z.of_nat size < 2 ^ 31)%Z) as [Hsmall|Hlarge].
  - rewrite Z.mod_small by lia. lia.
  - replace (Z.of_nat size + 2 ^ 31)%Z
      with (Z.of_nat size - 2 ^ 31 + 1 * 2 ^ 32)%Z by lia.
    rewrite Z.mod_add by lia. rewrite Z.mod_small by lia. lia.
Qed.

Lemma get_to_eof_loop_stream (rounds : nat) (arrivals : list arrival)
    (size : nat) (stored : vec) (e : Z) :
  interrupts_only arrivals →
  length stored < size →
  (Z.of_nat size - Z.of_nat (length stored) ≤ INT_MAX)%Z →
  (Z.of_nat (length stored + length (stream arrivals)) ≤ INT_MAX)%Z →
  length (stream arrivals) + length arrivals < rounds →
  ∃ sd',
    get_to_eof_loop rounds size stored {| incoming := arrivals; errno := e |}
    = Some (stored ++ stream arrivals, sd').
Proof.
  revert arrivals size stored e.
  induction rounds as [|rounds IH];
    intros arrivals size stored e Hint Hsize Hfree Hmax Hrounds; [lia|].
  cbn [get_to_eof_loop]. rewrite remain_in_range by done.
  destruct arrivals as [|[first more|error] arrivals].
  - eexists. cbn. by rewrite app_nil_r.
  - rewrite stream_cons_data in *. cbn [length] in Hrounds.
    rewrite app_comm_cons in *. set (chunk := first :: more) in *.
    rewrite length_app in Hrounds, Hmax.
    assert (length chunk = S (length more)) as Hchunk by done.
    destruct (decide (length chunk ≤ size - length stored)) as [Hfits|Hpart].
    + rewrite recv_whole by done. fold chunk.
      rewrite bool_decide_false by lia.
      rewrite bool_decide_false by lia.
      rewrite bool_decide_false by (unfold INT_MAX in *; lia).
      set (size' := if bool_decide
                         (Z.of_nat (length (stored ++ chunk))
                          = to_int (Z.of_nat size))
                    then 2 * size else size).
      assert (length (stored ++ chunk) < size' ∧
              (Z.of_nat size' - Z.of_nat (length (stored ++ chunk))
               ≤ INT_MAX)%Z) as [Hsize' Hfree'].
      { unfold size'. rewrite length_app.
        case_bool_decide as Hfull.
        - rewrite <- length_app in Hfull.
          apply full_in_range in Hfull;
            rewrite ?length_app in *; unfold INT_MAX in *; lia.
        - rewrite <- length_app in Hfull.
          rewrite full_in_range in Hfull;
            rewrite ?length_app in *; unfold INT_MAX in *; lia. }
      destruct (IH arrivals size' (stored ++ chunk) e) as (sd' & ->);
        [by apply interrupts_only_tail in Hint|done|done
        |rewrite length_app; lia|lia|].
      exists sd'. by rewrite <- app_assoc.
    + destruct (recv_part (size - length stored) first more arrivals e)
        as (b & bytes & Hdrop & ->); [fold chunk; lia|].
      fold chunk in Hdrop |- *.
      rewrite bool_decide_false by lia.
      rewrite bool_decide_false by lia.
      rewrite bool_decide_false by (unfold INT_MAX in *; lia).
      set (part := take (size - length stored) chunk) in *.
      assert (length (stored ++ part) = size) as Hfull.
      { unfold part. rewrite length_app, length_take. lia. }
      rewrite (bool_decide_true (Z.of_nat (length (stored ++ part)) = _))
        by (apply full_in_range; unfold INT_MAX in *; lia).
      destruct (IH (Data b bytes :: arrivals) (2 * size) (stored ++ part) e)
        as (sd' & ->).
      * intros error Hin. apply Hint.
        apply elem_of_cons in Hin as [?|?]; [done|by right].
      * lia.
      * unfold INT_MAX in *. lia.
      * rewrite stream_cons_data, app_comm_cons, <- Hdrop.
        rewrite Hfull, length_app, length_drop. lia.
      * rewrite stream_cons_data, app_comm_cons, <- Hdrop.
        rewrite length_app, length_drop. cbn [length]. lia.
      * exists sd'. rewrite stream_cons_data, app_comm_cons, <- Hdrop.
        unfold part.
        by rewrite <- app_assoc, (app_assoc (take _ _)), take_drop.
  - assert (error = EINTR) as -> by (apply Hint; left).
    change (stream (Failure EINTR :: arrivals)) with (stream arrivals) in *.
    cbn [recv incoming errno]. rewrite bool_decide_false by done.
    rewrite bool_decide_true by done.
    rewrite bool_decide_false by (by intros []).
    cbn [length] in Hrounds.
    apply IH; [by apply interrupts_only_tail in Hint|done|done|done|lia].
Qed.

(** X28.  [reliable_get_to_eof], when the only failures are interrupted
    calls and fewer than [2^31] bytes arrive before the connection closes,
    so that the [int] that counts them does not overflow: it returns
    every byte that arrives, in order, whatever the sizes of the chunks
    and however often the buffer of 16 bytes has to double. *)
Theorem reliable_get_to_eof_stream (arrivals : list arrival) (e0 : Z) :
  interrupts_only arrivals →
  (Z.of_nat (length (stream arrivals)) < 2 ^ 31)%Z →
  ∃ sd',
    reliable_get_to_eof (S (length (stream arrivals) + length arrivals))
      {| incoming := arrivals; errno := e0 |}
    = Some (stream arrivals, sd').
Proof.
  intros Hint Hmax. unfold reliable_get_to_eof.
  destruct (get_to_eof_loop_stream
              (S (length (stream arrivals) + length arrivals))
              arrivals 16 [] e0 Hint) as (sd' & ->);
    [cbn; lia|by cbn|cbn [length]; unfold INT_MAX; lia|lia|].
  by exists sd'.
Qed.
End net_facts.

Ltac interrupts :=
  let error := fresh "error" in
  let Hin := fresh "Hin" in
  intros error Hin;
  repeat (apply elem_of_cons in Hin as [Hin|Hin];
          [first [discriminate | by injection Hin as ->]|]);
  by apply elem_of_nil in Hin.

Lemma get_to_eof_or_n_short_witness :
  net.reliable_get_to_eof_or_n 2 2 []
    {| net.incoming := [net.Data Byte.x01 []]; net.errno := 0 |}
  = Some (1%Z, [Byte.x01], {| net.incoming := []; net.errno := 0 |}) ∧
  ∀ rounds,
    net.reliable_get_to_eof_or_n rounds 2 []
      {| net.incoming := [net.Data Byte.x01 []; net.Failure net.EINTR];
         net.errno := 0 |}
    = None.
Proof.
  split.
  - apply (get_to_eof_or_n_short [net.Data Byte.x01 []] 0 2);
      [interrupts|cbn; lia|interrupts|done].
  - apply (get_to_eof_or_n_short
             [net.Data Byte.x01 []; net.Failure net.EINTR] 0 2);
      [interrupts|cbn; lia|].
    left. exists net.EINTR. right. left.
Defined.

Lemma get_to_eof_or_n_enough_witness :
  ∃ sd',
    net.reliable_get_to_eof_or_n 5 2 []
      {| net.incoming := [net.Data Byte.x01 []; net.Failure net.EINTR;
                          net.Data Byte.x02 [Byte.x03]];
         net.errno := 0 |}
    = Some (2%Z, [Byte.x01; Byte.x02], sd') ∧
    net.stream (net.incoming sd') = [Byte.x03].
Proof.
  apply (get_to_eof_or_n_enough
           [net.Data Byte.x01 []; net.Failure net.EINTR;
            net.Data Byte.x02 [Byte.x03]] 0 2);
    [interrupts|cbn; lia].
Defined.

Lemma reliable_get_to_eof_stream_witness :
  ∃ sd',
    net.reliable_get_to_eof 21
      {| net.incoming := [net.Data Byte.x01 (replicate 16 Byte.x02);
                          net.Failure net.EINTR;
                          net.Data Byte.x03 []];
         net.errno := 0 |}
    = Some (Byte.x01 :: replicate 16 Byte.x02 ++ [Byte.x03], sd').
Proof.
  apply (reliable_get_to_eof_stream
           [net.Data Byte.x01 (replicate 16 Byte.x02);
            net.Failure net.EINTR; net.Data Byte.x03 []] 0);
    [interrupts|cbn; lia].
Defined.

(** ** The table of [p4] *)

Section p4_table_facts.
Context {K V : Type} `{EqDecision K}.
Variable hash : K → nat.
Context {St : Type} `{!Locking St}.
Implicit Types (pairs : list (K * V)) (s : St).

Lemma one_bucket_index (key : K) pairs :
  bucket_index hash key [pairs] = Some 0.
Proof. unfold bucket_index. cbn [length]. by rewrite Nat.mod_1_r. Qed.

Local Abbreviation in_bucket m :=
  ('(b, pairs') ← m; mret (b, [pairs'])).

(** X29.  The table of [p4], one vector under one mutex, does what the
    sharded table of [p5] does with a single bucket, whatever the hash
    function: every operation runs the same callbacks on the same values
    in the same order between the same lock and unlock, returns the same
    answer, and leaves the pairs that [p5] leaves in its bucket. *)
Theorem p4_is_one_bucket pairs (key : K) (val : V)
    (on_a on_b then_ : Eff St ()) (f : V → Eff St V) (g : V → Eff St ())
    (h : K → V → Eff St ()) s :
  p5_hashtable.insert hash key val on_a [pairs] s
  = in_bucket (p4_hashtable.insert key val on_a pairs) s ∧
  p5_hashtable.upsert hash key val on_a on_b [pairs] s
  = in_bucket (p4_hashtable.upsert key val on_a on_b pairs) s ∧
  p5_hashtable.do_with hash key f [pairs] s
  = in_bucket (p4_hashtable.do_with key f pairs) s ∧
  p5_hashtable.remove hash key on_a [pairs] s
  = in_bucket (p4_hashtable.remove key on_a pairs) s ∧
  p5_hashtable.do_with_readonly hash key g [pairs] s
  = p4_hashtable.do_with_readonly key g pairs s ∧
  p5_hashtable.do_all_readonly h then_ [pairs] s
  = p4_hashtable.do_all_readonly h then_ pairs s ∧
  p5_hashtable.clear [pairs] s
  = (pairs' ← p4_hashtable.clear pairs; mret [pairs']) s.
Proof.
  unfold p5_hashtable.insert, p5_hashtable.upsert, p5_hashtable.do_with,
    p5_hashtable.remove, p5_hashtable.do_with_readonly,
    p5_hashtable.do_all_readonly, p5_hashtable.clear,
    p4_hashtable.insert, p4_hashtable.upsert, p4_hashtable.do_with,
    p4_hashtable.remove, p4_hashtable.do_with_readonly,
    p4_hashtable.do_all_readonly, p4_hashtable.clear.
  rewrite !one_bucket_index.
  repeat split.
  all: eff; destruct (find_key key pairs) as [i|]; eff; try done.
  all: try (destruct (pairs !! i) as [e|]; eff; [|done]).
  all: repeat match goal with
              | |- context [match ?m ?st with _ => _ end] =>
                  destruct (m st) as [[? ?]|]; eff; try done
              end.
Qed.
End p4_table_facts.

(** ** The reducers of [p5] *)

Section reducer_facts.

Local Abbreviation all_step :=
  (λ (res r : vec),
     let res := if bool_decide (length res ≠ 0)
                then vec_append res [Byte.x0a] else res in
     vec_append res r).

Lemma all_keys_fold (res : vec) (results : list vec) :
  res ≠ [] →
  foldl all_step res results
  = res ++ flat_map (λ r, Byte.x0a :: r) results.
Proof.
  revert res. induction results as [|r results IH]; intros res Hne;
    cbn [foldl flat_map].
  - by rewrite app_nil_r.
  - rewrite bool_decide_true by (by destruct res).
    unfold vec_append. rewrite IH by (by destruct res).
    by rewrite <- !app_assoc.
Qed.

Lemma odd_key_vals_fold (res : vec) (results : list vec) :
  foldl (λ res r,
           if bool_decide (0 < length r) then
             let res := if bool_decide (length res ≠ 0)
                        then vec_append res [Byte.x0a] else res in
             let res := vec_append res r in
             vec_append res r
           else res)
    res results
  = foldl all_step res
      ((λ r, r ++ r) <$> filter (λ r, 0 < length r) results).
Proof.
  revert res. induction results as [|r results IH]; intros res; [done|].
  cbn [foldl]. rewrite IH. rewrite filter_cons.
  destruct (decide (0 < length r)) as [Hr|Hr].
  - rewrite bool_decide_true by done. cbn [fmap list_fmap foldl].
    unfold vec_append. by rewrite <- !app_assoc.
  - by rewrite bool_decide_false by done.
Qed.

(** X30.  The two reducers of [p5/so].  [reduce] of [all_keys] joins the
    results with newlines, except that empty results in front leave no
    trace: behind the first result that is not empty every result, empty
    or not, follows a newline.  [reduce] of [odd_key_vals] is [reduce] of
    [all_keys] over the results that are not empty, each one doubled. *)
Theorem reducers (results : list vec) :
  all_keys.reduce ([] :: results) = all_keys.reduce results ∧
  (∀ b r,
     all_keys.reduce ((b :: r) :: results)
     = b :: r ++ flat_map (λ r, Byte.x0a :: r) results) ∧
  odd_key_vals.reduce results
  = all_keys.reduce ((λ r, r ++ r) <$> filter (λ r, 0 < length r) results).
Proof.
  split; [done|]. split.
  - intros b r. unfold all_keys.reduce. cbn [foldl].
    rewrite bool_decide_false by (cbn; lia). unfold vec_append at 1.
    cbn [app]. by rewrite all_keys_fold.
  - apply odd_key_vals_fold.
Qed.
End reducer_facts.
